(** * Manga Secure Proxy + Silent Smart Cacher (server.js): a shallow embedding

    The worker has two entry points.  [fetch] authorises a signed URL
    ([verifySignature]) and serves the page through the cache-fill proxy
    ([handleMangaLogic]); [scheduled] runs the resumable cache warmer
    ([runSmartCacher], [warmUpPage]).

    Conventions of the embedding.
    - A JavaScript string is a [string]: one [ascii] per UTF-16 code unit,
      which covers the code units below 256.
    - A JavaScript number is a double.  One that holds an integer is the
      [Z] of its value, and the arithmetic of the warmer rounds as the
      doubles do ([JS.add], [JS.toString]); [NaN] is [None] where the
      source can produce it ([parseInt]).
    - The platform (network, edge cache, KV store, clock) is passed in
      explicitly; awaited calls are modelled by their results, a rejected
      promise or a thrown exception by [None] or a dedicated outcome. *)

From Stdlib Require Import ZArith List String Ascii Bool Lia.
From Stdlib Require Import DecimalString DecimalPos DecimalN DecimalZ.
From Stdlib Require Import Sorted.
Import ListNotations.

#[local] Set Warnings "-register-all".

Local Open Scope Z_scope.
Local Open Scope list_scope.

(** ** Configuration constants (server.js, lines 6-9) *)

Definition SECRET_KEY : string := "SUPER_SECRET_SAFE_KEY_123456".
Definition JSON_CONFIG_URL : string := "https://yoursite.com/manga_list.json".
Definition BATCH_SIZE : Z := 5.
Definition CACHE_TTL : Z := 2592000.

(** ** JavaScript strings and numbers *)

Module JS.

Definition code (c : ascii) : Z := Z.of_N (N_of_ascii c).

Definition dquote : ascii := ascii_of_N 34.

(** The decimal digits of an integer, with [-] in front of a negative
    one: the spelling of a timestamp in a signed URL. *)
Definition show (z : Z) : string := NilZero.string_of_int (Z.to_int z).

(** White space and line terminators that [parseInt] skips, among the
    code units below 256: TAB, LF, VT, FF, CR, SP, NBSP. *)
Definition is_space (c : ascii) : bool :=
  let n := code c in
  (9 <=? n) && (n <=? 13) || (n =? 32) || (n =? 160).

Fixpoint skip_space (s : string) : string :=
  match s with
  | String c r => if is_space c then skip_space r else s
  | EmptyString => s
  end.

Definition is_digit (c : ascii) : bool := (48 <=? code c) && (code c <=? 57).

(** Value of a character as a digit in [radix], when it is one. *)
Definition digit_val (radix : Z) (c : ascii) : option Z :=
  let n := code c in
  let v := if (48 <=? n) && (n <=? 57) then n - 48
           else if (97 <=? n) && (n <=? 122) then n - 87
           else if (65 <=? n) && (n <=? 90) then n - 55
           else radix in
  if v <? radix then Some v else None.

(** Longest prefix of digits, most significant first; [acc] is [None]
    until a digit has been read. *)
Fixpoint scan_digits (radix : Z) (s : string) (acc : option Z) : option Z :=
  match s with
  | String c r =>
      match digit_val radix c with
      | Some d =>
          scan_digits radix r
            (Some (radix * match acc with Some a => a | None => 0 end + d))
      | None => acc
      end
  | EmptyString => acc
  end.

Definition strip_sign (s : string) : Z * string :=
  match s with
  | String "-" r => (-1, r)
  | String "+" r => (1, r)
  | _ => (1, s)
  end.

Definition has_hex_prefix (s : string) : bool :=
  match s with
  | String "0" (String "x" _) => true
  | String "0" (String "X" _) => true
  | _ => false
  end.

Definition drop2 (s : string) : string :=
  match s with
  | String _ (String _ r) => r
  | _ => s
  end.

(** [parseInt(s, radix)] for [radix] undefined ([0]) or 16: the result
    is [None] for [NaN]. *)
Definition parseInt (s : string) (radix : Z) : option Z :=
  let '(sign, body) := strip_sign (skip_space s) in
  let hex := has_hex_prefix body in
  let r := if radix =? 0 then (if hex then 16 else 10) else radix in
  let digits := if hex && (r =? 16) then drop2 body else body in
  option_map (Z.mul sign) (scan_digits r digits None).

(** [new TextEncoder().encode(s)]: UTF-8 of code units below 256. *)
Definition utf8_char (c : ascii) : list Z :=
  let n := code c in
  if n <? 128 then [n]
  else [Z.lor 192 (Z.shiftr n 6); Z.lor 128 (Z.land n 63)].

Fixpoint encode (s : string) : list Z :=
  match s with
  | String c r => utf8_char c ++ encode r
  | EmptyString => []
  end.

(** Truthiness of a string-or-null value: [null] and the empty string
    are falsy. *)
Definition truthy (v : option string) : bool :=
  match v with
  | Some (String _ _) => true
  | _ => false
  end.

(** *** Integer-valued doubles

    A double has a mantissa of 53 bits: every integer up to [2^53] in
    magnitude is one, and beyond that only the multiples of a power of
    two. *)

(** The double nearest to the integer [z], a tie going to the even
    mantissa: the rounding of every arithmetic operation. *)
Definition round53 (z : Z) : Z :=
  let a := Z.abs z in
  if a <? 2 ^ 53 then z
  else
    let e := Z.log2 a - 52 in
    let q := a / 2 ^ e in
    let r := a mod 2 ^ e in
    let h := 2 ^ (e - 1) in
    let up := if (h <? r) || ((r =? h) && Z.odd q) then 1 else 0 in
    Z.sgn z * ((q + up) * 2 ^ e).

(** [z] is the value of a (finite) double. *)
Definition is_double (z : Z) : Prop := round53 z = z /\ Z.abs z < 2 ^ 1024.

(** [a + b] on integer-valued doubles whose sum stays finite, as the
    sums of the warmer do: they add at most [BATCH_SIZE]. *)
Definition add (a b : Z) : Z := round53 (a + b).

(** The integer with the fewest significant digits whose nearest double
    is [a], and among those of that length the one closest to [a]:
    the digits that [Number::toString] prints.  [candidate a m] looks
    among the multiples of [10^m]. *)
Definition candidate (a m : Z) : option Z :=
  let lo := a / 10 ^ m * 10 ^ m in
  let hi := lo + 10 ^ m in
  match round53 lo =? a, round53 hi =? a with
  | true, true =>
      Some (if a - lo <? hi - a then lo
            else if hi - a <? a - lo then hi
            else if Z.even (a / 10 ^ m) then lo else hi)
  | true, false => Some lo
  | false, true => Some hi
  | false, false => None
  end.

Fixpoint shortest_from (ms : list Z) (a : Z) : Z :=
  match ms with
  | m :: rest =>
      match candidate a m with
      | Some v => v
      | None => shortest_from rest a
      end
  | [] => a
  end.

Definition shortest (a : Z) : Z :=
  let n := String.length (show a) in
  shortest_from (map (fun k => Z.of_nat (n - k)) (seq 1 n)) a.

(** [v = d * 10^t] with [d] not a multiple of 10, for [v > 0]. *)
Fixpoint strip10 (fuel : nat) (v t : Z) : Z * Z :=
  match fuel with
  | O => (v, t)
  | S fuel' =>
      if v mod 10 =? 0 then strip10 fuel' (v / 10) (t + 1) else (v, t)
  end.

(** The exponent notation [d.ddde+x] of an integer [v >= 10^21]. *)
Definition exponential (v : Z) : string :=
  let '(d, t) := strip10 (String.length (show v)) v 0 in
  match show d with
  | String d1 rest =>
      let fraction := match rest with
                      | EmptyString => EmptyString
                      | _ => String "." rest
                      end in
      String d1 (fraction ++ "e+"
                   ++ show (t + Z.of_nat (String.length rest)))%string
  | EmptyString => EmptyString
  end.

Definition render (v : Z) : string :=
  if v <? 10 ^ 21 then show v else exponential v.

(** [String(z)] for an integer-valued double, as a template literal
    [`${z}`] and [JSON.stringify] spell it: all the digits of an
    integer below [2^53], the shortest digits that read back as the
    same double beyond, in exponent notation from [10^21]. *)
Definition toString (z : Z) : string :=
  if Z.abs z <? 2 ^ 53 then show z
  else if z <? 0 then String "-" (render (shortest (Z.abs z)))
  else render (shortest (Z.abs z)).

End JS.


(** ** Web Crypto: HMAC with SHA-256

    [crypto.subtle.importKey] and [crypto.subtle.verify] are platform
    functions; they are modelled by the algorithms they implement
    (FIPS 180-4 for SHA-256, RFC 2104 for HMAC) over bytes and 32-bit
    words held in [Z]. *)

Module SHA256.

Definition mask32 : Z := 0xffffffff.
Definition add32 (a b : Z) : Z := Z.land (a + b) mask32.
Definition rotr (n x : Z) : Z :=
  Z.lor (Z.shiftr x n) (Z.land (Z.shiftl x (32 - n)) mask32).
Definition not32 (x : Z) : Z := Z.lxor x mask32.

Definition Ch (x y z : Z) : Z := Z.lxor (Z.land x y) (Z.land (not32 x) z).
Definition Maj (x y z : Z) : Z :=
  Z.lxor (Z.lxor (Z.land x y) (Z.land x z)) (Z.land y z).
Definition bsig0 (x : Z) : Z := Z.lxor (Z.lxor (rotr 2 x) (rotr 13 x)) (rotr 22 x).
Definition bsig1 (x : Z) : Z := Z.lxor (Z.lxor (rotr 6 x) (rotr 11 x)) (rotr 25 x).
Definition ssig0 (x : Z) : Z := Z.lxor (Z.lxor (rotr 7 x) (rotr 18 x)) (Z.shiftr x 3).
Definition ssig1 (x : Z) : Z := Z.lxor (Z.lxor (rotr 17 x) (rotr 19 x)) (Z.shiftr x 10).

(** The round constants and the initial hash value are the first 32
    bits of the fractional parts of the cube roots of the first 64 primes
    and of the square roots of the first 8 primes (FIPS 180-4, 4.2.2 and
    5.3.3). *)
Definition is_prime (n : Z) : bool :=
  (1 <? n)
  && forallb (fun d => negb (n mod d =? 0))
             (map Z.of_nat (seq 2 (Z.to_nat n - 2))).

Definition primes (count : nat) : list Z :=
  firstn count (filter is_prime (map Z.of_nat (seq 2 310))).

(** The integer cube root, one bit at a time from bit [k - 1] down. *)
Fixpoint cbrt_bits (k : nat) (n r : Z) : Z :=
  match k with
  | O => r
  | S k' =>
      let r' := r + Z.shiftl 1 (Z.of_nat k') in
      if r' * r' * r' <=? n then cbrt_bits k' n r' else cbrt_bits k' n r
  end.

Definition frac_cbrt32 (p : Z) : Z :=
  Z.land (cbrt_bits 40 (Z.shiftl p 96) 0) mask32.

Definition frac_sqrt32 (p : Z) : Z :=
  Z.land (Z.sqrt (Z.shiftl p 64)) mask32.

Definition K : list Z := Eval vm_compute in map frac_cbrt32 (primes 64).

Definition H0 : list Z := Eval vm_compute in map frac_sqrt32 (primes 8).

(** Big-endian bytes of a word of [n] bytes. *)
Fixpoint be_bytes (n : nat) (x : Z) : list Z :=
  match n with
  | O => []
  | S m => Z.land (Z.shiftr x (8 * Z.of_nat m)) 255 :: be_bytes m x
  end.

Definition pad (msg : list Z) : list Z :=
  let len := Z.of_nat (List.length msg) in
  let zeros := Z.to_nat ((55 - len) mod 64) in
  msg ++ 128 :: repeat 0 zeros ++ be_bytes 8 (8 * len).

(** Big-endian words of a byte sequence whose List.length is a multiple of 4. *)
Fixpoint words (bs : list Z) : list Z :=
  match bs with
  | a :: b :: c :: d :: r =>
      Z.lor (Z.shiftl a 24) (Z.lor (Z.shiftl b 16) (Z.lor (Z.shiftl c 8) d))
      :: words r
  | _ => []
  end.

(** Message schedule: [w] holds the words computed so far, the latest
    first; [n] more are added. *)
Fixpoint schedule (n : nat) (w : list Z) : list Z :=
  match n with
  | O => rev w
  | S m =>
      let x := add32 (add32 (ssig1 (nth 1 w 0)) (nth 6 w 0))
                     (add32 (ssig0 (nth 14 w 0)) (nth 15 w 0)) in
      schedule m (x :: w)
  end.

Definition round (s : list Z) (kw : Z * Z) : list Z :=
  match s with
  | [a; b; c; d; e; f; g; h] =>
      let t1 := add32 (add32 (add32 h (bsig1 e)) (add32 (Ch e f g) (fst kw)))
                      (snd kw) in
      let t2 := add32 (bsig0 a) (Maj a b c) in
      [add32 t1 t2; a; b; c; add32 d t1; e; f; g]
  | _ => s
  end.

Definition compress (h : list Z) (block : list Z) : list Z :=
  let w := schedule 48 (rev block) in
  map (fun p => add32 (fst p) (snd p))
      (combine h (fold_left round (combine K w) h)).

(** The blocks of 16 words each; [n] bounds their number. *)
Fixpoint blocks (n : nat) (ws : list Z) : list (list Z) :=
  match n, ws with
  | S m, _ :: _ => firstn 16 ws :: blocks m (skipn 16 ws)
  | _, _ => []
  end.

Definition digest (msg : list Z) : list Z :=
  let ws := words (pad msg) in
  flat_map (be_bytes 4) (fold_left compress (blocks (List.length ws) ws) H0).

End SHA256.

Module HMAC.

Definition block_size : nat := 64.

Definition block_key (key : list Z) : list Z :=
  let k := if Nat.ltb block_size (List.length key) then SHA256.digest key else key in
  k ++ repeat 0 (block_size - List.length k).

Definition sign (key data : list Z) : list Z :=
  let k := block_key key in
  let ipad := map (Z.lxor 0x36) k in
  let opad := map (Z.lxor 0x5c) k in
  SHA256.digest (opad ++ SHA256.digest (ipad ++ data)).

End HMAC.

(** ** verifySignature (server.js, lines 198-221) *)

Module Hex.

(** [.] of a regular expression matches every code unit but the line
    terminators (LF and CR below 256). *)
Definition is_line_terminator (c : ascii) : bool :=
  (JS.code c =? 10) || (JS.code c =? 13).

(** [sig.match(/.{1,2}/g)]: greedy chunks of two code units, one at the
    end of a line, the terminators skipped. *)
Fixpoint chunks (s : string) : list string :=
  match s with
  | EmptyString => []
  | String a r =>
      if is_line_terminator a then chunks r
      else match r with
           | EmptyString => [String a EmptyString]
           | String b r' =>
               if is_line_terminator b then String a EmptyString :: chunks r'
               else String a (String b EmptyString) :: chunks r'
           end
  end.

(** The result of [match]: [null] when nothing matched. *)
Definition match_pairs (s : string) : option (list string) :=
  match chunks s with
  | [] => None
  | l => Some l
  end.

(** Conversion of a number to an element of a [Uint8Array]: [NaN]
    becomes 0, an integer is taken modulo 256. *)
Definition to_uint8 (v : option Z) : Z :=
  match v with
  | Some z => z mod 256
  | None => 0
  end.

Definition decode (chunked : list string) : list Z :=
  map (fun byte => to_uint8 (JS.parseInt byte 16)) chunked.

End Hex.

Module Subtle.

(** [crypto.subtle.importKey("raw", keyData, {name: "HMAC", ...})]
    rejects key data of length zero. *)
Definition importKey (keyData : list Z) : option (list Z) :=
  match keyData with
  | [] => None
  | _ => Some keyData
  end.

Fixpoint bytes_eqb (a b : list Z) : bool :=
  match a, b with
  | [], [] => true
  | x :: a', y :: b' => (x =? y) && bytes_eqb a' b'
  | _, _ => false
  end.

(** [crypto.subtle.verify("HMAC", key, signature, data)]. *)
Definition verify (key signature data : list Z) : bool :=
  bytes_eqb signature (HMAC.sign key data).

End Subtle.

(** [Math.abs(now - parseInt(timestamp)) > 3600]; a comparison with
    [NaN] is false. *)
Definition expired (now : Z) (t : option Z) : bool :=
  match t with
  | Some t => 3600 <? Z.abs (now - t)
  | None => false
  end.

(** The body of the [try] block: [None] when it throws.  [nowMs] is the
    value of [Date.now()]. *)
Definition verifySignature_try (nowMs : Z) (path : string)
    (timestamp sig : option string) (secret : string) : option bool :=
  match sig, timestamp with
  | Some sg, Some ts =>
      if negb (JS.truthy sig) || negb (JS.truthy timestamp) then Some false
      else
        let now := nowMs / 1000 in
        if expired now (JS.parseInt ts 0) then Some false
        else
          match Hex.match_pairs sg with
          | None => None
          | Some chunked =>
              let sigArray := Hex.decode chunked in
              match Subtle.importKey (JS.encode secret) with
              | None => None
              | Some key =>
                  let data := JS.encode (path ++ ":" ++ ts)%string in
                  Some (Subtle.verify key sigArray data)
              end
          end
  | _, _ => Some false
  end.

Definition verifySignature (nowMs : Z) (path : string)
    (timestamp sig : option string) (secret : string) : bool :=
  match verifySignature_try nowMs path timestamp sig secret with
  | Some b => b
  | None => false
  end.

(** ** handleMangaLogic and the fetch handler (server.js, lines 11-35, 150-193) *)

Module Headers.

Definition lower_char (c : ascii) : ascii :=
  let n := JS.code c in
  if (65 <=? n) && (n <=? 90) then ascii_of_N (Z.to_N (n + 32)) else c.

Fixpoint lower (s : string) : string :=
  match s with
  | String c r => String (lower_char c) (lower r)
  | EmptyString => EmptyString
  end.

(** A [Headers] object: header names are case-insensitive and kept in
    lower case, one value per name. *)
Definition t : Type := list (string * string).

Definition set (name value : string) (h : t) : t :=
  (lower name, value)
    :: filter (fun kv => negb (String.eqb (fst kv) (lower name))) h.

Fixpoint get (name : string) (h : t) : option string :=
  match h with
  | (k, v) :: r => if String.eqb k (lower name) then Some v else get name r
  | [] => None
  end.

End Headers.

Record Response : Type := mkResponse {
  status : Z;
  headers : Headers.t;
  body : string
}.

(** [res.ok]: the status is in the range 200-299. *)
Definition ok (res : Response) : bool :=
  (200 <=? status res) && (status res <=? 299).

(** [new Response(text, {status})] with a string body: the content type
    defaults to plain text. *)
Definition text_response (text : string) (st : Z) : Response :=
  mkResponse st [("content-type", "text/plain;charset=UTF-8")%string] text.

(** The platform as the proxy sees it: [caches.default.match] by the URL
    of the cache key, and [fetch] of an origin URL, [None] when the
    promise rejects. *)
Record Edge : Type := mkEdge {
  cache_match : string -> option Response;
  origin_fetch : string -> option Response
}.

Inductive Outcome : Type :=
  | Returned (r : Response)
  | Rejected.

(** What a request did: its outcome, the origin URLs fetched, in order,
    and the cache writes handed to [ctx.waitUntil]. *)
Record Served : Type := mkServed {
  outcome : Outcome;
  fetched : list string;
  stored : list (string * Response)
}.

Definition origin_base (manga chapter : string) : string :=
  ("https://cdne.megaman-server.ir/564/" ++ manga ++ "/" ++ chapter)%string.

(** The response built from a successful origin response (lines 179-184):
    the origin's headers with three of them set, the status 200. *)
Definition finalRes_of (res : Response) : Response :=
  let h := Headers.set "X-Proxy-Cache" "MISS"
             (Headers.set "Cache-Control"
                ("public, max-age=" ++ JS.toString CACHE_TTL ++ ", immutable")%string
                (Headers.set "Access-Control-Allow-Origin" "*" (headers res))) in
  mkResponse 200 h (body res).

(** The loop [for (const url of targets)]; [done] holds the origin URLs
    already fetched. *)
Fixpoint serve_targets (edge : Edge) (targets : list string)
    (done : list string) : Served :=
  match targets with
  | [] => mkServed (Returned (text_response "Manga Page Not Found" 404)) done []
  | url :: rest =>
      match cache_match edge url with
      | Some response =>
          let newHeaders := Headers.set "X-Proxy-Cache" "HIT-V3" (headers response) in
          mkServed (Returned (mkResponse 200 newHeaders (body response))) done []
      | None =>
          match origin_fetch edge url with
          | None => mkServed Rejected (done ++ [url]) []
          | Some res =>
              if ok res then
                let finalRes := finalRes_of res in
                mkServed (Returned finalRes) (done ++ [url]) [(url, finalRes)]
              else serve_targets edge rest (done ++ [url])
          end
      end
  end.

(** Destructuring [const [manga, chapter, file] = pathParts]: a missing
    element is [undefined], which a template literal spells out. *)
Definition part (pathParts : list string) (n : nat) : string :=
  nth n pathParts "undefined"%string.

(** The URL variants of a page, the HD one first (lines 151-153). *)
Definition targets_of (pathParts : list string) : list string :=
  let manga := part pathParts 0 in
  let chapter := part pathParts 1 in
  let file := part pathParts 2 in
  let base := origin_base manga chapter in
  [(base ++ "/HD/" ++ file)%string; (base ++ "/" ++ file)%string].

Definition handleMangaLogic (edge : Edge) (pathParts : list string) : Served :=
  serve_targets edge (targets_of pathParts) [].

(** [url.pathname.split('/').filter(p => p)]; [cur] is the segment being
    read. *)
Fixpoint segments (s : string) (cur : string) : list string :=
  match s with
  | EmptyString =>
      match cur with EmptyString => [] | _ => [cur] end
  | String c r =>
      if Ascii.eqb c "/" then
        match cur with
        | EmptyString => segments r EmptyString
        | _ => cur :: segments r EmptyString
        end
      else segments r (cur ++ String c EmptyString)%string
  end.

(** The parts of a request the handler reads: [url.pathname] and the
    query parameters [sig] and [t] ([null] when absent). *)
Record Request : Type := mkRequest {
  pathname : string;
  param_sig : option string;
  param_t : option string
}.

Module Worker.

Definition fetch (nowMs : Z) (edge : Edge) (request : Request) : Served :=
  let pathParts := segments (pathname request) EmptyString in
  if Nat.ltb (List.length pathParts) 3 then
    mkServed
      (Returned (mkResponse 200
         [("content-type", "text/plain; charset=utf-8")%string]
         "Manga Proxy Engine v3.1 | Status: Online"))
      [] []
  else
    let sig := param_sig request in
    let ts := param_t request in
    let isValid := verifySignature nowMs (pathname request) ts sig SECRET_KEY in
    if negb isValid then
      mkServed
        (Returned (text_response "Access Denied: Invalid or Expired Signature" 403))
        [] []
    else handleMangaLogic edge pathParts.

End Worker.

(** ** JSON.parse and JSON.stringify

    The checkpoint is stored as JSON text.  [JSON.parse] is modelled in
    full for texts of code units below 256: a lexer that reads one code
    unit at a time and a pushdown parser over its tokens.  A number is
    read as the double nearest to its literal: [Num] when that double is
    an integer, whatever the spelling ([10], [1e1] and [10.0] are the
    same number); any other number, a fraction or an infinity, keeps its
    spelling ([Frac]).  The characters of a JSON string are code units,
    which [\u] escapes take above 255. *)

Module JSON.

Inductive value : Type :=
  | Null
  | Bool (b : bool)
  | Num (z : Z)
  | Frac (literal : string)
  | Str (s : list Z)
  | Arr (items : list value)
  | Obj (members : list (list Z * value)).

Inductive token : Type :=
  | LBrace | RBrace | LBrack | RBrack | Colon | Comma
  | Lit (v : value).

Inductive mode : Type :=
  | Idle
  | InNumber (acc : string)
  | InWord (acc : string)
  | InString (acc : list Z)
  | InEscape (acc : list Z)
  | InUnicode (todo : nat) (v : Z) (acc : list Z).

Definition units (s : string) : list Z := map JS.code (list_ascii_of_string s).

Definition is_ws (c : ascii) : bool :=
  let n := JS.code c in (n =? 32) || (n =? 9) || (n =? 10) || (n =? 13).

Definition is_digit (c : ascii) : bool := JS.is_digit c.

Definition is_letter (c : ascii) : bool :=
  (97 <=? JS.code c) && (JS.code c <=? 122).

Definition is_numchar (c : ascii) : bool :=
  is_digit c || Ascii.eqb c "+" || Ascii.eqb c "-" || Ascii.eqb c "."
  || Ascii.eqb c "e" || Ascii.eqb c "E".

Definition snoc (s : string) (c : ascii) : string := (s ++ String c EmptyString)%string.

(** *** Numbers *)

Fixpoint span_digits (s : string) : string * string :=
  match s with
  | String c r =>
      if is_digit c then let '(d, r') := span_digits r in (String c d, r')
      else (EmptyString, s)
  | EmptyString => (EmptyString, EmptyString)
  end.

(** The integer part: one digit, or several that do not start with 0. *)
Definition int_ok (d : string) : bool :=
  match d with
  | EmptyString => false
  | String _ EmptyString => true
  | String c _ => negb (Ascii.eqb c "0")
  end.

Definition nonempty (d : string) : bool :=
  match d with EmptyString => false | _ => true end.

(** An optional fraction [. digits]: its digits and the rest of the
    literal. *)
Definition split_frac (s : string) : option (string * string) :=
  match s with
  | String "." r =>
      let '(d, r') := span_digits r in
      if nonempty d then Some (d, r') else None
  | _ => Some (EmptyString, s)
  end.

(** An optional exponent [e|E (+|-)? digits], then the end: its value. *)
Definition split_exp (s : string) : option Z :=
  match s with
  | EmptyString => Some 0
  | String c r =>
      if Ascii.eqb c "e" || Ascii.eqb c "E" then
        let '(sign, r1) := match r with
                           | String "+" x => (1, x)
                           | String "-" x => (-1, x)
                           | _ => (1, r)
                           end in
        let '(d, r2) := span_digits r1 in
        if nonempty d && String.eqb r2 EmptyString
        then option_map (Z.mul sign) (JS.scan_digits 10 d None)
        else None
      else None
  end.

(** [floor (log2 (n / d))] for [n, d > 0]. *)
Definition log2_ratio (n d : Z) : Z :=
  let g := Z.log2 n - Z.log2 d in
  if (if 0 <=? g then d * 2 ^ g <=? n else d <=? n * 2 ^ (- g))
  then g else g - 1.

(** The integer nearest to [n / d], a tie going to the even one. *)
Definition nearest (n d : Z) : Z :=
  let q := n / d in
  let r := n mod d in
  if (d <? 2 * r) || ((2 * r =? d) && Z.odd q) then q + 1 else q.

(** The double nearest to [n / d] when it is an integer ([n >= 0],
    [d > 0]): a mantissa [m] of at most 53 bits at the binary exponent
    [e], which does not go below that of the subnormal numbers. *)
Definition double_of_ratio (n d : Z) : option Z :=
  if n =? 0 then Some 0
  else
    let e := Z.max (log2_ratio n d - 52) (-1074) in
    if 0 <=? e then
      let m := nearest n (d * 2 ^ e) in
      if m * 2 ^ e <? 2 ^ 1024 then Some (m * 2 ^ e) else None
    else
      let m := nearest (n * 2 ^ (- e)) d in
      if m mod 2 ^ (- e) =? 0 then Some (m / 2 ^ (- e)) else None.

(** The double nearest to [n * 10^x] when it is an integer; [None] for a
    fraction and for an infinity.  Beyond the exponents of the doubles
    the result is known without the power of ten. *)
Definition number_value (n x : Z) : option Z :=
  if 0 <=? x then
    if n =? 0 then Some 0
    else if 309 <=? x then None
    else
      let v := JS.round53 (n * 10 ^ x) in
      if v <? 2 ^ 1024 then Some v else None
  else if Z.log2 n + 1076 <? 3 * - x then Some 0
  else double_of_ratio n (10 ^ (- x)).

Definition number (s : string) : option value :=
  let '(sign, s1) := match s with
                     | String "-" r => (-1, r)
                     | _ => (1, s)
                     end in
  let '(d, s2) := span_digits s1 in
  if int_ok d then
    match split_frac s2 with
    | Some (f, s3) =>
        match split_exp s3, JS.scan_digits 10 (d ++ f) None with
        | Some x, Some n =>
            Some (match number_value n (x - Z.of_nat (String.length f)) with
                  | Some v => Num (sign * v)
                  | None => Frac s
                  end)
        | _, _ => None
        end
    | None => None
    end
  else None.

Definition word (s : string) : option value :=
  if String.eqb s "true" then Some (Bool true)
  else if String.eqb s "false" then Some (Bool false)
  else if String.eqb s "null" then Some Null
  else None.

(** *** Lexer *)

Definition punct (c : ascii) : option token :=
  if Ascii.eqb c "{" then Some LBrace
  else if Ascii.eqb c "}" then Some RBrace
  else if Ascii.eqb c "[" then Some LBrack
  else if Ascii.eqb c "]" then Some RBrack
  else if Ascii.eqb c ":" then Some Colon
  else if Ascii.eqb c "," then Some Comma
  else None.

(** A code unit read between tokens: the mode it leads to and the
    token it completes, if any. *)
Definition start (c : ascii) : option (mode * list token) :=
  if is_ws c then Some (Idle, [])
  else match punct c with
       | Some t => Some (Idle, [t])
       | None =>
           if Ascii.eqb c JS.dquote then Some (InString [], [])
           else if Ascii.eqb c "-" || is_digit c
                then Some (InNumber (String c EmptyString), [])
           else if is_letter c then Some (InWord (String c EmptyString), [])
           else None
       end.

(** The code unit an escape [\c] stands for; [inr tt] for [\u]. *)
Definition escape (c : ascii) : option (Z + unit) :=
  if Ascii.eqb c JS.dquote then Some (inl 34)
  else if Ascii.eqb c "\" then Some (inl 92)
  else if Ascii.eqb c "/" then Some (inl 47)
  else if Ascii.eqb c "b" then Some (inl 8)
  else if Ascii.eqb c "f" then Some (inl 12)
  else if Ascii.eqb c "n" then Some (inl 10)
  else if Ascii.eqb c "r" then Some (inl 13)
  else if Ascii.eqb c "t" then Some (inl 9)
  else if Ascii.eqb c "u" then Some (inr tt)
  else None.

Definition finish (m : mode) : option (list token) :=
  match m with
  | Idle => Some []
  | InNumber acc => option_map (fun v => [Lit v]) (number acc)
  | InWord acc => option_map (fun v => [Lit v]) (word acc)
  | _ => None
  end.

(** The token [v] is complete and [c] is the code unit after it. *)
Definition close (v : option value) (c : ascii) (k : mode -> option (list token))
  : option (list token) :=
  match v, start c with
  | Some v, Some (m, ts) => option_map (fun l => Lit v :: ts ++ l) (k m)
  | _, _ => None
  end.

Fixpoint lex (m : mode) (s : string) : option (list token) :=
  match s with
  | EmptyString => finish m
  | String c r =>
      match m with
      | Idle =>
          match start c with
          | Some (m', ts) => option_map (app ts) (lex m' r)
          | None => None
          end
      | InNumber acc =>
          if is_numchar c then lex (InNumber (snoc acc c)) r
          else close (number acc) c (fun m' => lex m' r)
      | InWord acc =>
          if is_letter c then lex (InWord (snoc acc c)) r
          else close (word acc) c (fun m' => lex m' r)
      | InString acc =>
          if Ascii.eqb c JS.dquote then option_map (cons (Lit (Str acc))) (lex Idle r)
          else if Ascii.eqb c "\" then lex (InEscape acc) r
          else if JS.code c <? 32 then None
          else lex (InString (acc ++ [JS.code c])) r
      | InEscape acc =>
          match escape c with
          | Some (inl u) => lex (InString (acc ++ [u])) r
          | Some (inr _) => lex (InUnicode 4 0 acc) r
          | None => None
          end
      | InUnicode todo v acc =>
          match JS.digit_val 16 c, todo with
          | Some d, S O => lex (InString (acc ++ [16 * v + d])) r
          | Some d, S todo' => lex (InUnicode todo' (16 * v + d) acc) r
          | _, _ => None
          end
      end
  end.

(** *** Parser *)

Inductive frame : Type :=
  | InArr (done : list value)
  | InObj (done : list (list Z * value)) (key : list Z).

Inductive pstate : Type :=
  | Want (stk : list frame)
  | WantFirst (stk : list frame)
  | WantKey (first : bool) (done : list (list Z * value)) (stk : list frame)
  | WantColon (done : list (list Z * value)) (key : list Z) (stk : list frame)
  | Have (v : value) (stk : list frame).

Definition open_value (t : token) (stk : list frame) : option pstate :=
  match t with
  | Lit v => Some (Have v stk)
  | LBrack => Some (WantFirst stk)
  | LBrace => Some (WantKey true [] stk)
  | _ => None
  end.

Definition step (st : pstate) (t : token) : option pstate :=
  match st with
  | Want stk => open_value t stk
  | WantFirst stk =>
      match t with
      | RBrack => Some (Have (Arr []) stk)
      | _ => open_value t (InArr [] :: stk)
      end
  | WantKey first done stk =>
      match t with
      | Lit (Str k) => Some (WantColon done k stk)
      | RBrace => if first then Some (Have (Obj []) stk) else None
      | _ => None
      end
  | WantColon done k stk =>
      match t with
      | Colon => Some (Want (InObj done k :: stk))
      | _ => None
      end
  | Have v stk =>
      match stk, t with
      | InArr done :: r, Comma => Some (Want (InArr (done ++ [v]) :: r))
      | InArr done :: r, RBrack => Some (Have (Arr (done ++ [v])) r)
      | InObj done k :: r, Comma => Some (WantKey false (done ++ [(k, v)]) r)
      | InObj done k :: r, RBrace => Some (Have (Obj (done ++ [(k, v)])) r)
      | _, _ => None
      end
  end.

Fixpoint run (st : pstate) (ts : list token) : option value :=
  match ts with
  | t :: r =>
      match step st t with
      | Some st' => run st' r
      | None => None
      end
  | [] =>
      match st with
      | Have v [] => Some v
      | _ => None
      end
  end.

(** [JSON.parse(text)]: [None] when it throws a [SyntaxError]. *)
Definition parse (text : string) : option value :=
  match lex Idle text with
  | Some ts => run (Want []) ts
  | None => None
  end.

(** *** Property access and printing *)

Fixpoint units_eqb (a b : list Z) : bool :=
  match a, b with
  | [], [] => true
  | x :: a', y :: b' => (x =? y) && units_eqb a' b'
  | _, _ => false
  end.

(** The value of an own property: the last member with that key wins. *)
Fixpoint lookup (k : list Z) (members : list (list Z * value)) : option value :=
  match members with
  | (k', v) :: r =>
      match lookup k r with
      | Some v' => Some v'
      | None => if units_eqb k' k then Some v else None
      end
  | [] => None
  end.

(** [v.name] for a parsed value that is not [null]: [None] is
    [undefined]. *)
Definition prop (name : string) (v : value) : option value :=
  match v with
  | Obj members => lookup (units name) members
  | _ => None
  end.

Definition quote (s : string) : string :=
  String JS.dquote (s ++ String JS.dquote EmptyString)%string.

(** [JSON.stringify({ mIdx: i, cIdx: c, pIdx: p })] for integer-valued
    doubles [i], [c] and [p]. *)
Definition stringify_triple (i c p : Z) : string :=
  ("{" ++ quote "mIdx" ++ ":" ++ JS.toString i ++ ","
       ++ quote "cIdx" ++ ":" ++ JS.toString c ++ ","
       ++ quote "pIdx" ++ ":" ++ JS.toString p ++ "}")%string.

End JSON.

(** ** The cache warmer (server.js, lines 48-145) *)

(** The persisted checkpoint [{ mIdx, cIdx, pIdx }] with integer-valued
    fields, and a catalog entry [{ name, chapters }].  The integers are
    values of doubles. *)
Record State : Type := mkState { mIdx : Z; cIdx : Z; pIdx : Z }.

Record Manga : Type := mkManga { name : string; chapters : Z }.

(** What [fetch] of a page URL gives the warmer: the promise rejects, or
    a response arrives with a status and a body that [arrayBuffer()]
    reads to the end or fails on. *)
Inductive Reply : Type :=
  | Fails
  | Replies (status : Z) (readable : bool).

(** Observable effects, in order: a call [warmUpPage(manga.name, c, page)]
    (with the index [i] of the manga in the catalog) and a write of the
    key [nightly_step]. *)
Inductive Event : Type :=
  | Warm (i : Z) (mangaName : string) (c page : Z)
  | Put (text : string).

(** The state threaded through an invocation: the value stored under
    [nightly_step] ([None] when the key is absent), the number of batch
    rounds completed, and the effects so far. *)
Record World : Type := mkWorld {
  kv : option string;
  rounds : nat;
  log : list Event
}.

Inductive Signal : Type :=
  | Continue      (* the loop ran to its end *)
  | Halted        (* the time budget was hit: checkpoint written, return *)
  | Threw         (* a TypeError escaped (reading a property of undefined) *)
  | OutOfFuel.    (* a bound of the model was reached: the run goes on *)

Definition put (text : string) (w : World) : World :=
  mkWorld (Some text) (rounds w) (log w ++ [Put text]).

Definition set_pIdx (state : State) (v : Z) : State :=
  mkState (mIdx state) (cIdx state) v.

Definition set_cIdx (state : State) (v : Z) : State :=
  mkState (mIdx state) v (pIdx state).

(** The chapter at which the loop over the chapters of the manga at
    index [i] starts (line 77), and the page offset at which chapter [c]
    is entered (line 78). *)
Definition entry_chapter (state : State) (i : Z) : Z :=
  if i =? mIdx state then cIdx state else 1.

Definition entry_page (state : State) (i c : Z) : Z :=
  if (i =? mIdx state) && (c =? cIdx state) then pIdx state else 0.

(** [results.indexOf(false)], counting from [from]. *)
Fixpoint indexOf_false (results : list bool) (from : Z) : Z :=
  match results with
  | [] => -1
  | r :: rest => if r then indexOf_false rest (from + 1) else from
  end.

(** The offsets [b = 0 .. BATCH_SIZE - 1] of the inner [for] loop. *)
Definition offsets : list Z := map Z.of_nat (seq 0 (Z.to_nat BATCH_SIZE)).

(** [mangaList[i]] for an integer [i]: [undefined] out of range. *)
Definition item (mangaList : list Manga) (i : Z) : option Manga :=
  if i <? 0 then None else nth_error mangaList (Z.to_nat i).

Section Cacher.

(** [net k url]: the reply to the GET of [url] issued during round [k]
    (counted from 0 within the invocation).  [clock 0] is [Date.now()] at
    the start, [clock k] its value when read after [k] rounds. *)
Variable net : nat -> string -> Reply.
Variable clock : nat -> Z.

(** The loop [for (const url of urls)] of [warmUpPage], inside [try]. *)
Fixpoint warm_urls (round : nat) (urls : list string) : bool :=
  match urls with
  | [] => false
  | url :: rest =>
      match net round url with
      | Fails => false
      | Replies st readable =>
          if st =? 200 then readable else warm_urls round rest
      end
  end.

Definition warmUpPage (round : nat) (mangaName : string) (chapter page : Z) : bool :=
  let base := origin_base mangaName (JS.toString chapter) in
  let urls := [(base ++ "/HD/" ++ JS.toString page ++ ".webp")%string;
               (base ++ "/" ++ JS.toString page ++ ".webp")%string] in
  warm_urls round urls.

(** The results of [Promise.all(batch)], in the order of the pages
    [pageNum = p + b] (line 84). *)
Definition batch (round : nat) (mangaName : string) (c p : Z) : list bool :=
  map (fun b => warmUpPage round mangaName c (JS.add p b)) offsets.

Definition batch_events (i : Z) (mangaName : string) (c p : Z) : list Event :=
  map (fun b => Warm i mangaName c (JS.add p b)) offsets.

(** The page offset after a round and whether the chapter is finished
    (lines 89-96). *)
Definition advance (p : Z) (results : list bool) : Z * bool :=
  let failIndex := indexOf_false results 0 in
  if negb (failIndex =? -1) then (JS.add p failIndex, true)
  else (JS.add p BATCH_SIZE, false).

Definition over_budget (k : nat) : bool := 24000 <? clock k - clock 0.

(** The world once the round at offset [p] has been awaited. *)
Definition round_done (i : Z) (mangaName : string) (c p : Z) (w : World) : World :=
  mkWorld (kv w) (S (rounds w)) (log w ++ batch_events i mangaName c p).

(** The loop [while (!chapterFinished)] (lines 81-103); [fuel] bounds
    the number of rounds. *)
Fixpoint pages_loop (fuel : nat) (i : Z) (manga : Manga) (c p : Z) (w : World)
  : Signal * World :=
  match fuel with
  | O => (OutOfFuel, w)
  | S fuel' =>
      let results := batch (rounds w) (name manga) c p in
      let '(p', chapterFinished) := advance p results in
      let w1 := round_done i (name manga) c p w in
      if over_budget (rounds w1) then
        (Halted, put (JSON.stringify_triple i c p') w1)
      else if chapterFinished then (Continue, w1)
      else pages_loop fuel' i manga c p' w1
  end.

(** The loop over the chapters [c .. manga.chapters] (lines 77-105);
    [n] bounds the number of chapters entered.  The bound is reached
    with chapters left only where [c++] does not advance a double any
    more. *)
Fixpoint chapters_loop (n : nat) (fuel : nat) (i : Z) (manga : Manga) (c : Z)
    (state : State) (w : World) : Signal * State * World :=
  if c <=? chapters manga then
    match n with
    | O => (OutOfFuel, state, w)
    | S n' =>
        let p := entry_page state i c in
        match pages_loop fuel i manga c p w with
        | (Continue, w1) =>
            chapters_loop n' fuel i manga (JS.add c 1) (set_pIdx state 0) w1
        | (sig, w1) => (sig, state, w1)
        end
    end
  else (Continue, state, w).

(** The number of chapters from [c] to the last one of [manga]. *)
Definition chapters_left (manga : Manga) (c : Z) : nat :=
  Z.to_nat (chapters manga - c + 1).

(** The loop over the catalog from index [i] (lines 74-107); [n] is the
    number of entries left.  The increment [i++] is exact: it runs after
    an entry was found at [i], below the length of an array. *)
Fixpoint mangas_loop (n : nat) (fuel : nat) (mangaList : list Manga) (i : Z)
    (state : State) (w : World) : Signal * State * World :=
  match n with
  | O => (Continue, state, w)
  | S n' =>
      if i <? Z.of_nat (List.length mangaList) then
        match item mangaList i with
        | None => (Threw, state, w)
        | Some manga =>
            let c := entry_chapter state i in
            match chapters_loop (chapters_left manga c) fuel i manga c state w with
            | (Continue, state1, w1) =>
                mangas_loop n' fuel mangaList (i + 1) (set_cIdx state1 1) w1
            | r => r
            end
        end
      else (Continue, state, w)
  end.

Definition mangas_left (mangaList : list Manga) (i : Z) : nat :=
  Z.to_nat (Z.of_nat (List.length mangaList) - i).

Inductive Result : Type :=
  | NoCatalog     (* silent return at line 62 or 65 *)
  | Budget        (* return at line 101 *)
  | Completed     (* checkpoint reset at line 110 *)
  | TypeError     (* the promise rejects; [scheduled] logs it *)
  | Unfinished    (* a bound of the model was reached *)
  | Untyped.      (* catalog or checkpoint outside the typed embedding *)

(** Lines 74-110: the traversal from a loaded checkpoint. *)
Definition traverse (fuel : nat) (mangaList : list Manga) (state : State)
    (w : World) : Result * World :=
  match mangas_loop (mangas_left mangaList (mIdx state)) fuel mangaList
                    (mIdx state) state w with
  | (Continue, _, w1) => (Completed, put (JSON.stringify_triple 0 1 0) w1)
  | (Halted, _, w1) => (Budget, w1)
  | (Threw, _, w1) => (TypeError, w1)
  | (OutOfFuel, _, w1) => (Unfinished, w1)
  end.

End Cacher.

(** Lines 68-72: the checkpoint as loaded from the store. *)
Definition default_state : JSON.value :=
  JSON.Obj [(JSON.units "mIdx", JSON.Num 0);
            (JSON.units "cIdx", JSON.Num 1);
            (JSON.units "pIdx", JSON.Num 0)].

Definition load_state (stateRaw : option string) : JSON.value :=
  if JS.truthy stateRaw then
    match stateRaw with
    | Some text =>
        match JSON.parse text with
        | Some v => v
        | None => default_state
        end
    | None => default_state
    end
  else default_state.

(** The typed views: a checkpoint whose three properties are integers,
    a catalog whose entries have a string [name] of code units below
    256 and an integer [chapters]. *)
Definition as_state (v : JSON.value) : option State :=
  match JSON.prop "mIdx" v, JSON.prop "cIdx" v, JSON.prop "pIdx" v with
  | Some (JSON.Num i), Some (JSON.Num c), Some (JSON.Num p) => Some (mkState i c p)
  | _, _, _ => None
  end.

Fixpoint as_string (s : list Z) : option string :=
  match s with
  | [] => Some EmptyString
  | u :: r =>
      match as_string r with
      | Some t => if (0 <=? u) && (u <? 256)
                  then Some (String (ascii_of_N (Z.to_N u)) t) else None
      | None => None
      end
  end.

Definition as_manga (v : JSON.value) : option Manga :=
  match JSON.prop "name" v, JSON.prop "chapters" v with
  | Some (JSON.Str s), Some (JSON.Num n) =>
      option_map (fun t => mkManga t n) (as_string s)
  | _, _ => None
  end.

Fixpoint as_catalog (items : list JSON.value) : option (list Manga) :=
  match items with
  | [] => Some []
  | v :: r =>
      match as_manga v, as_catalog r with
      | Some m, Some l => Some (m :: l)
      | _, _ => None
      end
  end.

(** The reply to the catalog fetch (lines 52-64): the promise rejects or
    is aborted after 10 seconds, or a response arrives with its [ok]
    flag and body text. *)
Inductive Feed : Type :=
  | FeedFails
  | FeedReplies (ok : bool) (text : string).

Definition runSmartCacher (net : nat -> string -> Reply) (clock : nat -> Z)
    (fuel : nat) (feed : Feed) (w : World) : Result * World :=
  match feed with
  | FeedFails => (NoCatalog, w)
  | FeedReplies ok text =>
      if negb ok then (NoCatalog, w)
      else
        match JSON.parse text with
        | Some (JSON.Arr items) =>
            match load_state (kv w) with
            | JSON.Null => (TypeError, w)
            | stateV =>
                match JSON.prop "mIdx" stateV with
                | None =>
                    (* [state.mIdx] is [undefined] and [undefined < length]
                       is false: no loop is entered (line 74), line 110
                       writes. *)
                    (Completed, put (JSON.stringify_triple 0 1 0) w)
                | Some _ =>
                    match as_catalog items, as_state stateV with
                    | Some mangaList, Some state =>
                        traverse net clock fuel mangaList state w
                    | _, _ => (Untyped, w)
                    end
                end
            end
        | _ => (NoCatalog, w)
        end
  end.

(** ** Vocabulary of the statements *)

(** A URL variant fails: it is not in the cache and the origin answers
    with a status outside 200-299. *)
Definition variant_fails (edge : Edge) (url : string) : Prop :=
  cache_match edge url = None /\
  exists res, origin_fetch edge url = Some res /\ ok res = false.

(** The catalog is unavailable: the fetch failed, the status is not a
    success, or the body is not the JSON text of an array. *)
Definition is_array (v : option JSON.value) : bool :=
  match v with
  | Some (JSON.Arr _) => true
  | _ => false
  end.

Definition catalog_unavailable (feed : Feed) : Prop :=
  match feed with
  | FeedFails => True
  | FeedReplies ok text => ok = false \/ is_array (JSON.parse text) = false
  end.

(** A property of every code unit, checked on the 256 of them. *)
Ltac each_ascii c :=
  destruct c as [[|] [|] [|] [|] [|] [|] [|] [|]]; vm_compute; try reflexivity;
  try discriminate; auto.

Fixpoint all_digits (s : string) : bool :=
  match s with
  | String c r => JS.is_digit c && all_digits r
  | EmptyString => true
  end.

(** The code units of [s] may all continue a number. *)
Fixpoint all_numchars (s : string) : bool :=
  match s with
  | String c r => JSON.is_numchar c && all_numchars r
  | EmptyString => true
  end.

(** Rounding to the multiples of [2^e]: whether the tie rule adds one to
    the quotient, and the multiple nearest to [a]. *)
Definition tie_up (e a : Z) : Z :=
  if (2 ^ (e - 1) <? a mod 2 ^ e)
     || ((a mod 2 ^ e =? 2 ^ (e - 1)) && Z.odd (a / 2 ^ e))
  then 1 else 0.

Definition grid (e a : Z) : Z := (a / 2 ^ e + tie_up e a) * 2 ^ e.

(** The largest double ([Number.MAX_VALUE]). *)
Definition max_double : Z := 2 ^ 1024 - 2 ^ 971.

(** Scanning stops at the head of [rest]. *)
Definition stops (rest : string) : Prop :=
  match rest with
  | String c _ => JS.is_digit c = false
  | EmptyString => True
  end.

(** The spelling of a positive number: digits, the first one not 0. *)
Definition spelled (p : positive) : string := NilEmpty.string_of_uint (Pos.to_uint p).

(** The signature text [sg] decodes to the HMAC of ["{path}:{ts}"] under
    the secret. *)
Definition signs (secret path ts sg : string) : Prop :=
  exists chunked,
    Hex.match_pairs sg = Some chunked /\
    Hex.decode chunked
    = HMAC.sign (JS.encode secret) (JS.encode (path ++ ":" ++ ts)%string).

(** The number of positions at which two strings of the same length
    differ; [None] when the lengths differ. *)
Fixpoint distance (a b : string) : option nat :=
  match a, b with
  | EmptyString, EmptyString => Some O
  | String x a', String y b' =>
      option_map (fun n => if Ascii.eqb x y then n else S n) (distance a' b')
  | _, _ => None
  end.

(** The members of the object that [JSON.parse] builds from a stored
    checkpoint. *)
Definition triple_value (i c p : Z) : JSON.value :=
  JSON.Obj [(JSON.units "mIdx", JSON.Num i);
            (JSON.units "cIdx", JSON.Num c);
            (JSON.units "pIdx", JSON.Num p)].

(** The page at relative index [k] is the first of a batch that failed. *)
Definition first_failure (results : list bool) (k : nat) : Prop :=
  nth_error results k = Some false /\
  forall j, (j < k)%nat -> nth_error results j = Some true.

(** *** The order of the warm-ups *)

(** A warm-up as (index of the manga, chapter, page). *)
Definition Pos : Type := (Z * Z * Z)%type.

Definition manga_of (e : Pos) : Z := fst (fst e).

Fixpoint positions (l : list Event) : list Pos :=
  match l with
  | Warm i _ c page :: r => (i, c, page) :: positions r
  | Put _ :: r => positions r
  | [] => []
  end.

(** The first warm-up of an invocation: the checkpoint itself, or the
    first page of the first chapter of a later manga. *)
Definition first_ok (st : State) (e : Pos) : Prop :=
  let '(i, c, page) := e in
  (i = mIdx st /\ c = cIdx st /\ page = pIdx st)
  \/ (mIdx st < i /\ c = 1 /\ page = 0).

(** Two warm-ups in a row: a further page of the chapter, the first page
    of the chapter that [c++] leads to, or the first page of the first
    chapter of a later manga. *)
Definition next_ok (e1 e2 : Pos) : Prop :=
  let '(i1, c1, p1) := e1 in
  let '(i2, c2, p2) := e2 in
  (i2 = i1 /\ c2 = c1 /\ p1 <= p2)
  \/ (i2 = i1 /\ c1 <= c2 /\ c2 = JS.add c1 1 /\ p2 = 0)
  \/ (i1 < i2 /\ c2 = 1 /\ p2 = 0).

Fixpoint chain (prev : Pos) (l : list Pos) : Prop :=
  match l with
  | e :: r => next_ok prev e /\ chain e r
  | [] => True
  end.

Definition ordered (st : State) (l : list Pos) : Prop :=
  match l with
  | e :: r => first_ok st e /\ chain e r
  | [] => True
  end.

Fixpoint last_of (x : Pos) (l : list Pos) : Pos :=
  match l with
  | y :: r => last_of y r
  | [] => x
  end.

(** [e] may come after the warm-ups [l]. *)
Definition ready (st : State) (l : list Pos) (e : Pos) : Prop :=
  match l with
  | x :: r => next_ok (last_of x r) e
  | [] => first_ok st e
  end.

(** The lexicographic order of positions. *)
Definition lex_le (a b : Pos) : Prop :=
  let '(i1, c1, p1) := a in
  let '(i2, c2, p2) := b in
  i1 < i2 \/ (i1 = i2 /\ (c1 < c2 \/ (c1 = c2 /\ p1 <= p2))).

Definition start_of (st : State) : Pos := (mIdx st, cIdx st, pIdx st).

(** A checkpoint that the program can hold: its fields are numbers. *)
Definition is_checkpoint (st : State) : Prop :=
  JS.is_double (mIdx st) /\ JS.is_double (cIdx st) /\ JS.is_double (pIdx st).

(** The warm-up [e] is not before the checkpoint: not in an earlier
    manga, not in an earlier chapter of the resumed manga, and, where
    [c++] advances the resumed chapter, not at an earlier page of
    it. *)
Definition at_or_after (st : State) (e : Pos) : Prop :=
  let '(i, c, page) := e in
  mIdx st <= i
  /\ (i = mIdx st -> cIdx st <= c)
  /\ (i = mIdx st -> c = cIdx st -> Z.abs (cIdx st) < 2 ^ 53 -> pIdx st <= page).

(** *** The effects of a traversal *)

Definition is_warm (e : Event) : Prop :=
  match e with
  | Warm _ _ _ _ => True
  | Put _ => False
  end.

(** From [w] to [w'] pages were warmed and nothing was written. *)
Definition Quiet (w w' : World) : Prop :=
  kv w' = kv w /\
  (rounds w <= rounds w')%nat /\
  exists ws, log w' = log w ++ ws /\ Forall is_warm ws.

(** From [w] the traversal went on quietly to some [w1], ran one more
    round at offset [p] of chapter [c] of manga [i], and wrote the
    checkpoint [(i, c, p')], [p'] being the offset after that round. *)
Definition HaltedAt (net : nat -> string -> Reply) (w w' : World) : Prop :=
  exists w1 i mangaName c p,
    Quiet w w1 /\
    w' = put (JSON.stringify_triple i c
                (fst (advance p (batch net (rounds w1) mangaName c p))))
             (round_done i mangaName c p w1).

(** The clock readings between [w] and [w']: the one after each round
    but the last is within the budget; the one after the last round is
    over the budget exactly when the loop was left by [Halted]. *)
Definition Budgeted (clock : nat -> Z) (w : World) (sig : Signal) (w' : World)
  : Prop :=
  (rounds w <= rounds w')%nat /\
  (forall k, (rounds w < k < rounds w')%nat -> over_budget clock k = false) /\
  (sig = Halted ->
     (rounds w < rounds w')%nat /\ over_budget clock (rounds w') = true) /\
  (sig <> Halted ->
     (rounds w < rounds w')%nat -> over_budget clock (rounds w') = false).

(** What a loop that went from [w] to [w'] with signal [sig] did. *)
Definition Ran (net : nat -> string -> Reply) (clock : nat -> Z)
    (w : World) (sig : Signal) (w' : World) : Prop :=
  Budgeted clock w sig w' /\
  (sig = Halted -> HaltedAt net w w') /\
  (sig <> Halted -> Quiet w w').

(** The signal of a loop as the result of the invocation. *)
Definition result_of (sig : Signal) : Result :=
  match sig with
  | Continue => Completed
  | Halted => Budget
  | Threw => TypeError
  | OutOfFuel => Unfinished
  end.

(** Evaluate the code of a literal character in the goal. *)
Ltac eval_codes :=
  repeat match goal with
         | |- context [JS.code (Ascii ?a ?b ?c ?d ?e ?f ?g ?h)] =>
             let v := eval vm_compute in (JS.code (Ascii a b c d e f g h)) in
             change (JS.code (Ascii a b c d e f g h)) with v
         end.

(** ** Sample requests and platforms *)

Module Demo.

Definition parts : list string := ["naruto"; "12"; "3.webp"]%string.
Definition hd : string := "https://cdne.megaman-server.ir/564/naruto/12/HD/3.webp".
Definition plain : string := "https://cdne.megaman-server.ir/564/naruto/12/3.webp".

Definition cached : Response :=
  mkResponse 203 [("content-type", "image/webp")%string] "HD-PAGE".
Definition page : Response :=
  mkResponse 206 [("content-type", "image/webp")%string] "PAGE".
Definition missing : Response := mkResponse 404 [] "nope".

(** The HD variant is in the cache. *)
Definition edge_hit : Edge :=
  mkEdge (fun u => if String.eqb u hd then Some cached else None)
         (fun _ => None).

(** Nothing is cached; the origin has the plain variant only. *)
Definition edge_fill : Edge :=
  mkEdge (fun _ => None)
         (fun u => if String.eqb u plain then Some page else Some missing).

(** Nothing is cached and the origin has neither variant. *)
Definition edge_none : Edge :=
  mkEdge (fun _ => None) (fun _ => Some missing).

(** Signed requests: the signatures are HMAC-SHA256 under [SECRET_KEY]
    of the path, a colon and the timestamp, in hexadecimal. *)
Definition path_a : string := "/a/1/0.webp".
Definition ts_a : string := "1700000000".
Definition now_a : Z := 1700000100000.
Definition sig_a : string :=
  "4a84884fca247877f865c7540854e69555443ca4ec29795dd85a3b2f369dfbd7".
(** [sig_a] with the digit 0 of its thirteenth byte replaced by a space. *)
Definition sig_a_tampered : string :=
  "4a84884fca247877f865c754 854e69555443ca4ec29795dd85a3b2f369dfbd7".

Definition path_n : string := "/naruto/12/3.webp".
Definition sig_n : string :=
  "e6cf2ff91279e29ffdc52aa7f4b3f88759277079d326cf2f4bb9dc2b2a9f612f".
(** The signature of [path_n] with the timestamp [abc], and with the
    empty timestamp of a URL that ends in [t=]. *)
Definition sig_abc : string :=
  "7a56b30d03569623eaaf8d14b53a173adde87482bc7f54e9098f8f1e218574eb".
Definition sig_empty : string :=
  "6726ba8ae4193635c7ca04e4e196cad31ba11212f95d9d9af6f6077bcf0acf35".

(** A catalog of one manga with two chapters; the origin has pages 0-6
    of chapter 1 and pages 0-4 of chapter 2, the latter in HD only. *)
Definition catalog : list Manga := [mkManga "A" 2].

Definition page_url (hdv : bool) (c page : Z) : string :=
  (origin_base "A" (JS.toString c) ++ (if hdv then "/HD/" else "/")
     ++ JS.toString page ++ ".webp")%string.

Definition net (k : nat) (url : string) : Reply :=
  if existsb (fun page => String.eqb url (page_url false 1 page))
             [0; 1; 2; 3; 4; 5; 6]
     || existsb (fun page => String.eqb url (page_url true 2 page))
                [0; 1; 2; 3; 4]
  then Replies 200 true else Replies 404 true.

(** A clock that stands still, and one that advances 30 seconds per
    round. *)
Definition clock_still (k : nat) : Z := 1700000000000.
Definition clock_slow (k : nat) : Z := 1700000000000 + 30000 * Z.of_nat k.

Definition resumed : State := mkState 0 2 3.
Definition fresh : World := mkWorld (Some (JSON.stringify_triple 0 2 3)) 0 [].

End Demo.

(** *** Paths *)

Fixpoint no_slash (s : string) : bool :=
  match s with
  | String c r => negb (Ascii.eqb c "/") && no_slash r
  | EmptyString => true
  end.

(** A path segment: not empty and without a slash. *)
Definition is_segment (s : string) : Prop :=
  s <> EmptyString /\ no_slash s = true.

(** The path [/p1/p2/.../pn]. *)
Fixpoint join_path (parts : list string) : string :=
  match parts with
  | p :: r => (String "/" p ++ join_path r)%string
  | [] => EmptyString
  end.

(** *** The edge cache after a write *)

(** [cache.put(cacheKey, response)]: the cache with [response] stored
    under the URL of the key. *)
Definition cache_put (url : string) (response : Response) (edge : Edge) : Edge :=
  mkEdge (fun u => if String.eqb u url then Some response else cache_match edge u)
         (origin_fetch edge).

(** The edge once the writes handed to [ctx.waitUntil] have completed. *)
Definition settle (writes : list (string * Response)) (edge : Edge) : Edge :=
  fold_left (fun e kv => cache_put (fst kv) (snd kv) e) writes edge.

(** [l] is the start of [targets]. *)
Definition starts (l targets : list string) : Prop :=
  exists post, targets = l ++ post.

(** *** The URLs of a page and the fetches of a warm-up *)

(** The URL variants that [warmUpPage] tries, the HD one first
    (lines 117-118). *)
Definition page_urls (mangaName : string) (chapter page : Z) : list string :=
  let base := origin_base mangaName (JS.toString chapter) in
  [(base ++ "/HD/" ++ JS.toString page ++ ".webp")%string;
   (base ++ "/" ++ JS.toString page ++ ".webp")%string].

(** The loop [for (const url of urls)] of [warmUpPage] (lines 120-144)
    with the URLs it fetches, in order: the result and the fetches. *)
Fixpoint warm_run (net : nat -> string -> Reply) (round : nat)
    (urls : list string) : bool * list string :=
  match urls with
  | [] => (false, [])
  | url :: rest =>
      match net round url with
      | Fails => (false, [url])
      | Replies st readable =>
          if st =? 200 then (readable, [url])
          else let '(r, fetched) := warm_run net round rest in
               (r, url :: fetched)
      end
  end.

(** *** Hexadecimal text *)

(** The digit of a value below 16, in lower case, and the two digits of
    a byte: the spelling of a signature that a signer sends. *)
Definition hex_digit (d : Z) : ascii :=
  ascii_of_N (Z.to_N (if d <? 10 then 48 + d else 87 + d)).

Definition hex_byte (b : Z) : string :=
  String (hex_digit (b / 16)) (String (hex_digit (b mod 16)) EmptyString).

Fixpoint hex_of_bytes (bs : list Z) : string :=
  match bs with
  | b :: r => (hex_byte b ++ hex_of_bytes r)%string
  | [] => EmptyString
  end.

Definition is_byte (b : Z) : Prop := 0 <= b < 256.

(** The bytes below 256 whose two digits are read back by the decoder of
    [verifySignature]. *)
Definition hex_byte_read_back (n : nat) : bool :=
  let b := Z.of_nat n in
  (Hex.to_uint8 (JS.parseInt (hex_byte b) 16) =? b)
  && negb (Hex.is_line_terminator (hex_digit (b / 16)))
  && negb (Hex.is_line_terminator (hex_digit (b mod 16))).

(** *** More on the order of the warm-ups *)

(** [b] is not in an earlier manga than [a], nor in an earlier chapter
    of the same manga. *)
Definition chapter_le (a b : Pos) : Prop :=
  let '(i1, c1, p1) := a in
  let '(i2, c2, p2) := b in
  i1 < i2 \/ (i1 = i2 /\ c1 <= c2).

(** The chapter counts of a catalog below which [c++] is exact. *)
Definition safe_chapters (mangaList : list Manga) : Prop :=
  Forall (fun manga => chapters manga < 2 ^ 53) mangaList.

(** The writes at the end of an invocation. *)
Definition final_write (r : Result) (w' : World) : list Event :=
  match r, kv w' with
  | Completed, Some text => [Put text]
  | Budget, Some text => [Put text]
  | _, _ => []
  end.

(** A warm-up of chapter [c] of [manga], the entry at index [i]. *)
Definition warms_chapter (i : Z) (manga : Manga) (c : Z) (e : Event) : Prop :=
  match e with
  | Warm i' nm c' _ => i' = i /\ nm = name manga /\ c' = c
  | Put _ => True
  end.

(** A warm-up of a chapter of [manga] that is not beyond its last one. *)
Definition warms_manga (i : Z) (manga : Manga) (e : Event) : Prop :=
  match e with
  | Warm i' nm c _ => i' = i /\ nm = name manga /\ c <= chapters manga
  | Put _ => True
  end.

(** A warm-up of a chapter of an entry of the catalog, under the name of
    that entry. *)
Definition warms_catalog (mangaList : list Manga) (e : Event) : Prop :=
  match e with
  | Warm i nm c _ =>
      exists manga, item mangaList i = Some manga
                    /\ nm = name manga /\ c <= chapters manga
  | Put _ => True
  end.

(** ** More sample data *)

Module Sample.

(** The body of a catalog feed with the one entry of [Demo.catalog]. *)
Definition feed_text : string :=
  ("[{" ++ JSON.quote "name" ++ ":" ++ JSON.quote "A" ++ ","
        ++ JSON.quote "chapters" ++ ":2}]")%string.

(** An origin without any page. *)
Definition net_empty (k : nat) (url : string) : Reply := Replies 404 true.

Definition run_still : Result * World :=
  traverse Demo.net Demo.clock_still 10 Demo.catalog Demo.resumed Demo.fresh.

Definition run_slow : Result * World :=
  traverse Demo.net Demo.clock_slow 10 Demo.catalog Demo.resumed Demo.fresh.

End Sample.

(* ================================================================== *)
(** * Properties *)

(** ** The cache-fill proxy *)

Lemma headers_get_set (n v : string) (h : Headers.t) :
  Headers.get n (Headers.set n v h) = Some v.
Proof.
  unfold Headers.set; simpl. now rewrite String.eqb_refl.
Qed.

Lemma serve_targets_skip (edge : Edge) (pre rest done : list string) :
  Forall (variant_fails edge) pre ->
  serve_targets edge (pre ++ rest) done = serve_targets edge rest (done ++ pre).
Proof.
  intros H; revert done.
  induction H as [|url pre [Hc [res [Ho Hk]]] _ IH]; intros done; simpl.
  - now rewrite app_nil_r.
  - rewrite Hc, Ho, Hk, IH, <- app_assoc. reflexivity.
Qed.

Lemma serve_targets_hit (edge : Edge) (url : string) (post done : list string)
    (cached : Response) :
  cache_match edge url = Some cached ->
  serve_targets edge (url :: post) done =
  mkServed (Returned (mkResponse 200
              (Headers.set "X-Proxy-Cache" "HIT-V3" (headers cached))
              (body cached)))
           done [].
Proof. intros H; simpl. now rewrite H. Qed.

Lemma serve_targets_fill (edge : Edge) (url : string) (post done : list string)
    (res : Response) :
  cache_match edge url = None ->
  origin_fetch edge url = Some res ->
  ok res = true ->
  serve_targets edge (url :: post) done =
  mkServed (Returned (finalRes_of res)) (done ++ [url]) [(url, finalRes_of res)].
Proof. intros Hc Ho Hk; simpl. rewrite Hc, Ho, Hk. reflexivity. Qed.

Lemma serve_targets_status (edge : Edge) (targets done : list string) (r : Response) :
  outcome (serve_targets edge targets done) = Returned r ->
  status r = 200 \/ status r = 404.
Proof.
  revert done; induction targets as [|url rest IH]; intros done; simpl.
  - intros [= <-]; now right.
  - destruct (cache_match edge url) as [cached|].
    + intros [= <-]; now left.
    + destruct (origin_fetch edge url) as [res|]; [|discriminate].
      destruct (ok res).
      * intros [= <-]; now left.
      * apply IH.
Qed.

Lemma serve_targets_none (edge : Edge) (targets done : list string) :
  Forall (variant_fails edge) targets ->
  serve_targets edge targets done =
  mkServed (Returned (text_response "Manga Page Not Found" 404))
           (done ++ targets) [].
Proof.
  intros H.
  rewrite <- (app_nil_r targets) at 1.
  now rewrite serve_targets_skip.
Qed.

(** C4 (as amended).  The variants are tried in order, the HD one first.
    For a variant [url] all of whose predecessors failed: a cache hit
    returns the cached body with status 200 and the header
    [X-Proxy-Cache: HIT-V3], and fetches nothing from the origin for this
    variant or a later one; a miss with a 2xx origin response returns
    status 200 with [Access-Control-Allow-Origin: *],
    [Cache-Control: public, max-age=2592000, immutable] and
    [X-Proxy-Cache: MISS]; when every variant fails the response is the
    plain-text 404. *)
Theorem C4_cache_fill_responses (edge : Edge) (pathParts : list string)
    (pre : list string) (url : string) (post : list string) :
  targets_of pathParts = pre ++ url :: post ->
  Forall (variant_fails edge) pre ->
  targets_of pathParts =
    [(origin_base (part pathParts 0) (part pathParts 1) ++ "/HD/" ++ part pathParts 2)%string;
     (origin_base (part pathParts 0) (part pathParts 1) ++ "/" ++ part pathParts 2)%string]
  /\ (forall cached, cache_match edge url = Some cached ->
        exists r, handleMangaLogic edge pathParts = mkServed (Returned r) pre [] /\
          status r = 200 /\ body r = body cached /\
          Headers.get "X-Proxy-Cache" (headers r) = Some "HIT-V3"%string)
  /\ (forall res, cache_match edge url = None ->
        origin_fetch edge url = Some res -> ok res = true ->
        exists r, outcome (handleMangaLogic edge pathParts) = Returned r /\
          fetched (handleMangaLogic edge pathParts) = pre ++ [url] /\
          status r = 200 /\ body r = body res /\
          Headers.get "Access-Control-Allow-Origin" (headers r) = Some "*"%string /\
          Headers.get "Cache-Control" (headers r)
            = Some "public, max-age=2592000, immutable"%string /\
          Headers.get "X-Proxy-Cache" (headers r) = Some "MISS"%string)
  /\ (variant_fails edge url -> Forall (variant_fails edge) post ->
        outcome (handleMangaLogic edge pathParts)
          = Returned (text_response "Manga Page Not Found" 404) /\
        Headers.get "Content-Type" (headers (text_response "Manga Page Not Found" 404))
          = Some "text/plain;charset=UTF-8"%string).
Proof.
  intros Hsplit Hpre. split; [reflexivity|].
  unfold handleMangaLogic. rewrite Hsplit.
  rewrite serve_targets_skip by assumption. simpl app.
  split; [|split].
  - intros cached Hc. rewrite (serve_targets_hit _ _ _ _ _ Hc).
    eexists; repeat split.
  - intros res Hc Ho Hk. rewrite (serve_targets_fill _ _ _ _ _ Hc Ho Hk).
    eexists; repeat split.
  - intros Hu Hpost.
    rewrite serve_targets_none by (constructor; assumption).
    split; reflexivity.
Qed.

Lemma C4_cache_fill_responses_witness :
  (exists r, handleMangaLogic Demo.edge_fill Demo.parts
             = mkServed (Returned r) [Demo.hd; Demo.plain] [(Demo.plain, r)] /\
     status r = 200 /\ body r = "PAGE"%string /\
     Headers.get "X-Proxy-Cache" (headers r) = Some "MISS"%string).
Proof.
  destruct (C4_cache_fill_responses Demo.edge_fill Demo.parts
              [Demo.hd] Demo.plain [] eq_refl) as (_ & _ & Hfill & _).
  - repeat constructor. exists Demo.missing. split; reflexivity.
  - destruct (Hfill Demo.page eq_refl eq_refl eq_refl) as (r & Hr & _).
    exists (finalRes_of Demo.page). repeat split.
Defined.

(** C4 (as stated) fails: the header stamped on a cache hit is
    [HIT-V3], not [HIT]. *)
Lemma C4_hit_header_counterexample :
  cache_match Demo.edge_hit Demo.hd = Some Demo.cached /\
  exists r, outcome (handleMangaLogic Demo.edge_hit Demo.parts) = Returned r /\
    Headers.get "X-Proxy-Cache" (headers r) = Some "HIT-V3"%string /\
    Headers.get "X-Proxy-Cache" (headers r) <> Some "HIT"%string.
Proof.
  split; [reflexivity|]. eexists. split; [reflexivity|].
  split; [reflexivity|discriminate].
Qed.

(** C10.  Every response the fetch handler returns has status 200, 403
    or 404.  A cache hit is served with status 200 whatever the status
    of the cached response, and a 2xx origin response with status 200
    whatever its own status. *)
Theorem C10_handler_statuses (nowMs : Z) (edge : Edge) (request : Request)
    (r : Response) :
  outcome (Worker.fetch nowMs edge request) = Returned r ->
  (status r = 200 \/ status r = 403 \/ status r = 404)
  /\ (forall url post done cached,
        cache_match edge url = Some cached ->
        exists r', outcome (serve_targets edge (url :: post) done) = Returned r' /\
                   status r' = 200 /\ body r' = body cached)
  /\ (forall url post done res,
        cache_match edge url = None -> origin_fetch edge url = Some res ->
        ok res = true ->
        exists r', outcome (serve_targets edge (url :: post) done) = Returned r' /\
                   status r' = 200 /\ body r' = body res).
Proof.
  intros H. repeat split.
  - unfold Worker.fetch in H.
    destruct (Nat.ltb _ 3).
    + injection H as <-. now left.
    + destruct (negb _).
      * injection H as <-. right; now left.
      * apply serve_targets_status in H. tauto.
  - intros url post done cached Hc.
    rewrite (serve_targets_hit _ _ _ _ _ Hc). eexists; repeat split.
  - intros url post done res Hc Ho Hk.
    rewrite (serve_targets_fill _ _ _ _ _ Hc Ho Hk). eexists; repeat split.
Qed.

(** ** Decimal spelling of integers *)

Lemma digit_val_10 (c : ascii) :
  JS.digit_val 10 c = if JS.is_digit c then Some (JS.code c - 48) else None.
Proof. each_ascii c. Qed.

Lemma uint_all_digits (d : Decimal.uint) :
  all_digits (NilEmpty.string_of_uint d) = true.
Proof. induction d; simpl; auto. Qed.

Lemma scan_stops (rest : string) (acc : option Z) :
  stops rest -> JS.scan_digits 10 rest acc = acc.
Proof.
  destruct rest as [|c r]; simpl; [reflexivity|].
  intros H. now rewrite digit_val_10, H.
Qed.

Lemma scan_step (c : ascii) (r : string) (acc : option Z) :
  JS.is_digit c = true ->
  JS.scan_digits 10 (String c r) acc
  = JS.scan_digits 10 r
      (Some (10 * match acc with Some a => a | None => 0 end + (JS.code c - 48))).
Proof. intros H; simpl. now rewrite digit_val_10, H. Qed.

Ltac scan_case IH :=
  cbn [NilEmpty.string_of_uint Pos.of_uint_acc Pos.of_uint String.append];
  rewrite scan_step by reflexivity; eval_codes;
  try (rewrite <- IH; do 2 f_equal; lia).

Lemma scan_uint_acc (d : Decimal.uint) (rest : string) (acc : positive) :
  stops rest ->
  JS.scan_digits 10 (NilEmpty.string_of_uint d ++ rest)%string (Some (Z.pos acc))
  = Some (Z.pos (Pos.of_uint_acc d acc)).
Proof.
  intros Hr; revert acc.
  induction d; intros acc; [now apply scan_stops | scan_case IHd ..].
Qed.

Lemma scan_uint_zero (d : Decimal.uint) (rest : string) :
  stops rest ->
  JS.scan_digits 10 (NilEmpty.string_of_uint d ++ rest)%string (Some 0)
  = Some (Z.of_N (Pos.of_uint d)).
Proof.
  intros Hr.
  induction d; [now apply scan_stops | scan_case IHd ..];
    try exact IHd;
    cbn [Z.of_N]; now rewrite <- (scan_uint_acc d rest _ Hr).
Qed.

Lemma scan_uint (d : Decimal.uint) (rest : string) :
  stops rest -> d <> Decimal.Nil ->
  JS.scan_digits 10 (NilEmpty.string_of_uint d ++ rest)%string None
  = Some (Z.of_N (Pos.of_uint d)).
Proof.
  intros Hr Hd.
  destruct d; [congruence | scan_case IHd ..];
    try (now apply scan_uint_zero);
    cbn [Z.of_N]; now rewrite <- (scan_uint_acc d rest _ Hr).
Qed.

Lemma unorm_no_leading_zero (d : Decimal.uint) :
  match Decimal.unorm d with
  | Decimal.D0 l => l = Decimal.Nil
  | _ => True
  end.
Proof.
  induction d; simpl; auto.
Qed.

Lemma pos_to_uint_head (p : positive) :
  match Pos.to_uint p with
  | Decimal.Nil | Decimal.D0 _ => False
  | _ => True
  end.
Proof.
  pose proof (DecimalPos.Unsigned.to_uint_nonzero p) as Hz.
  pose proof (DecimalPos.Unsigned.to_uint_nonnil p) as Hn.
  pose proof (unorm_no_leading_zero (Pos.to_uint p)) as Hu.
  pose proof (DecimalPos.Unsigned.to_of (Pos.to_uint p)) as Ht.
  rewrite DecimalPos.Unsigned.of_to in Ht. simpl in Ht.
  rewrite <- Ht in Hu.
  destruct (Pos.to_uint p); auto.
  subst. now apply Hz.
Qed.

Lemma show_pos (p : positive) : JS.show (Z.pos p) = spelled p.
Proof.
  unfold JS.show, spelled; simpl.
  pose proof (pos_to_uint_head p). now destruct (Pos.to_uint p).
Qed.

Lemma show_neg (p : positive) : JS.show (Z.neg p) = String "-" (spelled p).
Proof.
  unfold JS.show, spelled; simpl.
  pose proof (pos_to_uint_head p). now destruct (Pos.to_uint p).
Qed.

Lemma spelled_head (p : positive) :
  exists c r, spelled p = String c r /\ JS.is_digit c = true /\
              Ascii.eqb c "0" = false /\ all_digits r = true.
Proof.
  unfold spelled. pose proof (pos_to_uint_head p) as H.
  destruct (Pos.to_uint p) as [|d|d|d|d|d|d|d|d|d|d]; try contradiction;
    simpl; do 2 eexists; repeat split; apply uint_all_digits.
Qed.

Lemma scan_spelled (p : positive) (rest : string) :
  stops rest ->
  JS.scan_digits 10 (spelled p ++ rest)%string None = Some (Z.pos p).
Proof.
  intros Hr. unfold spelled.
  rewrite scan_uint by (assumption || apply DecimalPos.Unsigned.to_uint_nonnil).
  now rewrite DecimalPos.Unsigned.of_to.
Qed.

Lemma append_empty (s : string) : (s ++ "")%string = s.
Proof. induction s; simpl; congruence. Qed.

Lemma parseInt_digit_led (c : ascii) (r : string) :
  JS.is_digit c = true -> Ascii.eqb c "0" = false ->
  JS.parseInt (String c r) 0
  = option_map (Z.mul 1) (JS.scan_digits 10 (String c r) None).
Proof.
  intros H H0.
  destruct c as [[|] [|] [|] [|] [|] [|] [|] [|]];
    try discriminate H; try discriminate H0; reflexivity.
Qed.

Lemma parseInt_spelled (p : positive) : JS.parseInt (spelled p) 0 = Some (Z.pos p).
Proof.
  destruct (spelled_head p) as (c & r & E & Hd & H0 & _).
  pose proof (scan_spelled p "" I) as Hs. rewrite append_empty in Hs.
  rewrite E in *. rewrite parseInt_digit_led, Hs by assumption.
  reflexivity.
Qed.

Lemma parseInt_minus_digit_led (c : ascii) (r : string) :
  JS.is_digit c = true -> Ascii.eqb c "0" = false ->
  JS.parseInt (String "-" (String c r)) 0
  = option_map (Z.mul (-1)) (JS.scan_digits 10 (String c r) None).
Proof.
  intros H H0.
  destruct c as [[|] [|] [|] [|] [|] [|] [|] [|]];
    try discriminate H; try discriminate H0; reflexivity.
Qed.

Lemma parseInt_minus_spelled (p : positive) :
  JS.parseInt (String "-" (spelled p)) 0 = Some (Z.neg p).
Proof.
  destruct (spelled_head p) as (c & r & E & Hd & H0 & _).
  pose proof (scan_spelled p "" I) as Hs. rewrite append_empty in Hs.
  rewrite E in *. rewrite parseInt_minus_digit_led, Hs by assumption.
  reflexivity.
Qed.

(** [parseInt] reads back the decimal spelling of an integer. *)
Lemma parseInt_show (z : Z) : JS.parseInt (JS.show z) 0 = Some z.
Proof.
  destruct z as [|p|p].
  - reflexivity.
  - rewrite show_pos. apply parseInt_spelled.
  - rewrite show_neg. apply parseInt_minus_spelled.
Qed.

(** ** The signature verifier *)

Lemma bytes_eqb_eq (a b : list Z) : Subtle.bytes_eqb a b = true <-> a = b.
Proof.
  revert b; induction a as [|x a IH]; intros [|y b]; simpl;
    try (split; (reflexivity || discriminate)).
  rewrite andb_true_iff, Z.eqb_eq, IH.
  split; [intros [-> ->]; reflexivity | intros [= -> ->]; auto].
Qed.

Lemma encode_nonempty (s : string) : s <> EmptyString -> JS.encode s <> [].
Proof.
  destruct s as [|c r]; [congruence|]. intros _. simpl.
  unfold JS.utf8_char. destruct (JS.code c <? 128); discriminate.
Qed.

Lemma match_pairs_nonempty (sg : string) (chunked : list string) :
  Hex.match_pairs sg = Some chunked -> JS.truthy (Some sg) = true.
Proof. destruct sg; [discriminate | reflexivity]. Qed.

(** The verifier on a present, non-empty signature and timestamp. *)
Lemma verifySignature_unfold (nowMs : Z) (path ts sg secret : string) :
  JS.truthy (Some ts) = true -> JS.truthy (Some sg) = true ->
  secret <> EmptyString ->
  verifySignature nowMs path (Some ts) (Some sg) secret
  = if expired (nowMs / 1000) (JS.parseInt ts 0) then false
    else match Hex.match_pairs sg with
         | Some chunked =>
             Subtle.verify (JS.encode secret) (Hex.decode chunked)
                           (JS.encode (path ++ ":" ++ ts)%string)
         | None => false
         end.
Proof.
  intros Ht Hs Hk. unfold verifySignature, verifySignature_try.
  rewrite Ht, Hs. cbn [negb orb].
  destruct (expired _ _); [reflexivity|].
  destruct (Hex.match_pairs sg); [|reflexivity].
  pose proof (encode_nonempty secret Hk).
  destruct (JS.encode secret); [congruence | reflexivity].
Qed.

Lemma verifySignature_signed (nowMs : Z) (path ts sg secret : string) :
  JS.truthy (Some ts) = true -> secret <> EmptyString ->
  signs secret path ts sg ->
  verifySignature nowMs path (Some ts) (Some sg) secret
  = negb (expired (nowMs / 1000) (JS.parseInt ts 0)).
Proof.
  intros Ht Hk (chunked & Hm & Hd).
  rewrite verifySignature_unfold
    by (assumption || now apply (match_pairs_nonempty _ _ Hm)).
  destruct (expired _ _); [reflexivity|].
  rewrite Hm. unfold Subtle.verify. now apply bytes_eqb_eq.
Qed.

Lemma verifySignature_unsigned (nowMs : Z) (path ts sg secret : string) :
  ~ signs secret path ts sg ->
  verifySignature nowMs path (Some ts) (Some sg) secret = false.
Proof.
  intros Hn. unfold verifySignature, verifySignature_try.
  destruct (negb _ || negb _); [reflexivity|].
  destruct (expired _ _); [reflexivity|].
  destruct (Hex.match_pairs sg) as [chunked|] eqn:Hm; [|reflexivity].
  destruct (Subtle.importKey _) as [key|] eqn:Hk; [|reflexivity].
  assert (key = JS.encode secret) as ->.
  { unfold Subtle.importKey in Hk. destruct (JS.encode secret); congruence. }
  destruct (Subtle.verify _ _ _) eqn:Hv; [|reflexivity].
  exfalso. apply Hn. exists chunked. split; [assumption|].
  now apply bytes_eqb_eq.
Qed.

Lemma show_truthy (z : Z) : JS.truthy (Some (JS.show z)) = true.
Proof.
  destruct z as [|p|p].
  - reflexivity.
  - rewrite show_pos. destruct (spelled_head p) as (c & r & -> & _). reflexivity.
  - rewrite show_neg. reflexivity.
Qed.

(** C5 (as amended).  [verifySignature] returns a boolean and turns every
    exception into [false].  It returns [false] when the signature or the
    timestamp is absent or empty, when the timestamp parses to a time
    more than 3600 seconds from now in either direction, when the
    signature has nothing to decode, and when the decoded bytes are not
    the HMAC of ["{path}:{timestamp}"].  A signature that decodes to that
    HMAC, for the timestamp [t] in decimal, is accepted exactly when
    [|now - t| <= 3600]: at [now - 3599] it passes, at [now - 3601] it
    fails. *)
Theorem C5_verifier_contract (nowMs : Z) (path : string)
    (timestamp sig : option string) (secret : string) :
  (verifySignature_try nowMs path timestamp sig secret = None ->
     verifySignature nowMs path timestamp sig secret = false)
  /\ (JS.truthy sig = false \/ JS.truthy timestamp = false ->
        verifySignature nowMs path timestamp sig secret = false)
  /\ (forall ts t, timestamp = Some ts -> JS.parseInt ts 0 = Some t ->
        3600 < Z.abs (nowMs / 1000 - t) ->
        verifySignature nowMs path timestamp sig secret = false)
  /\ (forall sg, sig = Some sg -> Hex.match_pairs sg = None ->
        verifySignature nowMs path timestamp sig secret = false)
  /\ (forall sg ts, sig = Some sg -> timestamp = Some ts ->
        ~ signs secret path ts sg ->
        verifySignature nowMs path timestamp sig secret = false)
  /\ (forall sg t, sig = Some sg -> timestamp = Some (JS.show t) ->
        secret <> EmptyString -> signs secret path (JS.show t) sg ->
        verifySignature nowMs path timestamp sig secret
        = (Z.abs (nowMs / 1000 - t) <=? 3600))
  /\ (forall sg d, sig = Some sg ->
        timestamp = Some (JS.show (nowMs / 1000 - d)) ->
        secret <> EmptyString ->
        signs secret path (JS.show (nowMs / 1000 - d)) sg ->
        (d = 0 \/ d = 3599 -> verifySignature nowMs path timestamp sig secret = true)
        /\ (d = 3601 -> verifySignature nowMs path timestamp sig secret = false)).
Proof.
  assert (Hsigned : forall sg t, sig = Some sg -> timestamp = Some (JS.show t) ->
            secret <> EmptyString -> signs secret path (JS.show t) sg ->
            verifySignature nowMs path timestamp sig secret
            = (Z.abs (nowMs / 1000 - t) <=? 3600)).
  { intros sg t -> -> Hk Hs.
    rewrite verifySignature_signed by (assumption || apply show_truthy).
    rewrite parseInt_show. unfold expired.
    destruct (Z.ltb_spec 3600 (Z.abs (nowMs / 1000 - t)));
      destruct (Z.leb_spec (Z.abs (nowMs / 1000 - t)) 3600); simpl; lia || reflexivity. }
  split; [|split; [|split; [|split; [|split; [|split]]]]].
  - unfold verifySignature. now intros ->.
  - unfold verifySignature, verifySignature_try.
    intros [H|H]; destruct sig, timestamp; try reflexivity; rewrite H;
      try reflexivity; now rewrite orb_true_r.
  - intros ts t -> Hp Hlt. unfold verifySignature, verifySignature_try.
    destruct sig; [|reflexivity].
    destruct (negb _ || negb _); [reflexivity|].
    rewrite Hp. unfold expired.
    destruct (Z.ltb_spec 3600 (Z.abs (nowMs / 1000 - t))); [reflexivity|lia].
  - intros sg -> Hm. unfold verifySignature, verifySignature_try.
    destruct timestamp; [|reflexivity].
    destruct (negb _ || negb _); [reflexivity|].
    destruct (expired _ _); [reflexivity|]. now rewrite Hm.
  - intros sg ts -> -> Hn. now apply verifySignature_unsigned.
  - exact Hsigned.
  - intros sg d Hs Ht Hk Hsg.
    rewrite (Hsigned sg _ Hs Ht Hk Hsg).
    replace (nowMs / 1000 - (nowMs / 1000 - d)) with d by lia.
    split; [intros [-> | ->]; reflexivity | intros ->; reflexivity].
Qed.

Lemma C5_verifier_contract_witness :
  verifySignature Demo.now_a Demo.path_a (Some Demo.ts_a) (Some Demo.sig_a) SECRET_KEY
  = true
  /\ verifySignature (Demo.now_a + 3601000) Demo.path_a (Some Demo.ts_a)
       (Some Demo.sig_a) SECRET_KEY = false.
Proof.
  split.
  - destruct (C5_verifier_contract Demo.now_a Demo.path_a (Some Demo.ts_a)
                (Some Demo.sig_a) SECRET_KEY) as (_ & _ & _ & _ & _ & H & _).
    rewrite (H Demo.sig_a 1700000000 eq_refl eq_refl).
    + vm_compute; reflexivity.
    + discriminate.
    + exists (Hex.chunks Demo.sig_a). split; vm_compute; reflexivity.
  - destruct (C5_verifier_contract (Demo.now_a + 3601000) Demo.path_a
                (Some Demo.ts_a) (Some Demo.sig_a) SECRET_KEY)
      as (_ & _ & H & _).
    apply (H Demo.ts_a 1700000000 eq_refl); vm_compute; reflexivity.
Defined.

(** C5 (as stated) fails: replacing one character of a valid signature
    by a character that is not a hexadecimal digit leaves it valid,
    because [parseInt] skips the space and reads the same byte. *)
Lemma C5_tampering_counterexample :
  verifySignature Demo.now_a Demo.path_a (Some Demo.ts_a) (Some Demo.sig_a) SECRET_KEY
  = true
  /\ distance Demo.sig_a Demo.sig_a_tampered = Some 1%nat
  /\ verifySignature Demo.now_a Demo.path_a (Some Demo.ts_a)
       (Some Demo.sig_a_tampered) SECRET_KEY = true.
Proof. vm_compute. repeat split. Qed.

(** C9 (as amended).  When the timestamp is not empty and [parseInt] of
    it is [NaN], the expiry check does not reject, whatever the current
    time: a request whose signature is the HMAC of
    ["{path}:{timestamp}"] is accepted at every time. *)
Theorem C9_nan_timestamp_never_expires (nowMs : Z) (path ts sg secret : string) :
  ts <> EmptyString -> secret <> EmptyString ->
  JS.parseInt ts 0 = None ->
  signs secret path ts sg ->
  expired (nowMs / 1000) (JS.parseInt ts 0) = false
  /\ verifySignature nowMs path (Some ts) (Some sg) secret = true.
Proof.
  intros Hts Hk Hnan Hs.
  assert (Ht : JS.truthy (Some ts) = true) by (destruct ts; congruence || reflexivity).
  rewrite verifySignature_signed by assumption.
  rewrite Hnan. split; reflexivity.
Qed.

Lemma C9_nan_timestamp_never_expires_witness :
  JS.parseInt "abc" 0 = None
  /\ verifySignature 0 Demo.path_n (Some "abc"%string) (Some Demo.sig_abc) SECRET_KEY
     = true
  /\ verifySignature 4102444800000 Demo.path_n (Some "abc"%string)
       (Some Demo.sig_abc) SECRET_KEY = true.
Proof.
  assert (Hs : signs SECRET_KEY Demo.path_n "abc" Demo.sig_abc).
  { exists (Hex.chunks Demo.sig_abc). split; vm_compute; reflexivity. }
  split; [vm_compute; reflexivity|]. split.
  - apply (C9_nan_timestamp_never_expires 0 Demo.path_n "abc" Demo.sig_abc SECRET_KEY);
      [discriminate | discriminate | vm_compute; reflexivity | exact Hs].
  - apply (C9_nan_timestamp_never_expires 4102444800000 Demo.path_n "abc"
             Demo.sig_abc SECRET_KEY);
      [discriminate | discriminate | vm_compute; reflexivity | exact Hs].
Defined.

(** C9 (as stated) fails for the empty timestamp: [parseInt] of it is
    [NaN] and the signature is the HMAC of ["{path}:"], but line 200
    rejects the request before the expiry check, at every time. *)
Lemma C9_empty_timestamp_counterexample :
  JS.parseInt EmptyString 0 = None
  /\ expired 0 (JS.parseInt EmptyString 0) = false
  /\ signs SECRET_KEY Demo.path_n EmptyString Demo.sig_empty
  /\ forall nowMs,
       verifySignature nowMs Demo.path_n (Some EmptyString) (Some Demo.sig_empty)
                       SECRET_KEY = false.
Proof.
  split; [reflexivity|]. split; [reflexivity|]. split.
  - exists (Hex.chunks Demo.sig_empty). split; vm_compute; reflexivity.
  - intros nowMs. reflexivity.
Qed.

Lemma C10_handler_statuses_witness :
  exists r,
    outcome (Worker.fetch Demo.now_a Demo.edge_hit
               (mkRequest Demo.path_n (Some Demo.sig_n) (Some Demo.ts_a)))
    = Returned r
    /\ status Demo.cached = 203 /\ status r = 200 /\ body r = body Demo.cached.
Proof.
  eexists. split; [vm_compute; reflexivity|].
  split; [reflexivity|].
  destruct (C10_handler_statuses Demo.now_a Demo.edge_hit
              (mkRequest Demo.path_n (Some Demo.sig_n) (Some Demo.ts_a))
              (mkResponse 200
                 (Headers.set "X-Proxy-Cache" "HIT-V3" (headers Demo.cached))
                 (body Demo.cached)))
    as (Hst & _ & _).
  - vm_compute; reflexivity.
  - split; reflexivity.
Defined.

(** ** Integer-valued doubles *)

Lemma tie_up_range e a : 0 <= tie_up e a <= 1.
Proof. unfold tie_up. destruct (_ || _); lia. Qed.

Lemma grid_mono e a b : 0 <= e -> 0 <= a <= b -> grid e a <= grid e b.
Proof.
  intros He Hab. unfold grid.
  assert (HP : 0 < 2 ^ e) by (apply Z.pow_pos_nonneg; lia).
  apply Z.mul_le_mono_nonneg_r; [lia|].
  assert (Hq : a / 2 ^ e <= b / 2 ^ e) by (apply Z.div_le_mono; lia).
  pose proof (tie_up_range e a) as Ha. pose proof (tie_up_range e b) as Hb.
  destruct (Z.eq_dec (a / 2 ^ e) (b / 2 ^ e)) as [E|E]; [|lia].
  assert (Hr : a mod 2 ^ e <= b mod 2 ^ e).
  { pose proof (Z.div_mod a (2 ^ e)) as Da. pose proof (Z.div_mod b (2 ^ e)) as Db.
    rewrite E in Da. nia. }
  enough (tie_up e a <= tie_up e b) by lia.
  unfold tie_up. rewrite E.
  destruct (Z.ltb_spec (2 ^ (e - 1)) (a mod 2 ^ e)) as [H1|H1];
    destruct (Z.ltb_spec (2 ^ (e - 1)) (b mod 2 ^ e)) as [H2|H2];
    destruct (Z.eqb_spec (a mod 2 ^ e) (2 ^ (e - 1))) as [H3|H3];
    destruct (Z.eqb_spec (b mod 2 ^ e) (2 ^ (e - 1))) as [H4|H4];
    destruct (Z.odd (b / 2 ^ e)); cbn; lia.
Qed.

Lemma binade a :
  2 ^ 53 <= a ->
  1 <= Z.log2 a - 52 /\
  2 ^ (52 + (Z.log2 a - 52)) <= a < 2 ^ (53 + (Z.log2 a - 52)).
Proof.
  intros H.
  assert (Hpos : 0 < a) by (assert (0 < 2 ^ 53) by reflexivity; lia).
  assert (HL : 53 <= Z.log2 a).
  { change 53 with (Z.log2 (2 ^ 53)). apply Z.log2_le_mono. exact H. }
  pose proof (Z.log2_spec a Hpos) as [L1 L2].
  split; [lia|].
  replace (52 + (Z.log2 a - 52)) with (Z.log2 a) by lia.
  replace (53 + (Z.log2 a - 52)) with (Z.succ (Z.log2 a)) by lia.
  split; assumption.
Qed.

Lemma grid_quotient e a :
  0 <= e -> 2 ^ (52 + e) <= a < 2 ^ (53 + e) -> 2 ^ 52 <= a / 2 ^ e < 2 ^ 53.
Proof.
  intros He [H1 H2].
  assert (HP : 0 < 2 ^ e) by (apply Z.pow_pos_nonneg; lia).
  rewrite Z.pow_add_r in H1, H2 by lia.
  split.
  - apply Z.div_le_lower_bound; lia.
  - apply Z.div_lt_upper_bound; lia.
Qed.

Lemma grid_bounds e a :
  0 <= e -> 2 ^ (52 + e) <= a < 2 ^ (53 + e) ->
  2 ^ (52 + e) <= grid e a <= 2 ^ (53 + e).
Proof.
  intros He H. pose proof (grid_quotient e a He H) as [Q1 Q2].
  pose proof (tie_up_range e a) as U.
  assert (HP : 0 < 2 ^ e) by (apply Z.pow_pos_nonneg; lia).
  unfold grid. rewrite !Z.pow_add_r by lia. split.
  - apply Z.mul_le_mono_nonneg_r; lia.
  - apply Z.mul_le_mono_nonneg_r; lia.
Qed.

Lemma round53_small z : Z.abs z < 2 ^ 53 -> JS.round53 z = z.
Proof.
  intros H. unfold JS.round53. destruct (Z.ltb_spec (Z.abs z) (2 ^ 53)); [reflexivity|lia].
Qed.

Lemma round53_large z :
  2 ^ 53 <= Z.abs z -> JS.round53 z = Z.sgn z * grid (Z.log2 (Z.abs z) - 52) (Z.abs z).
Proof.
  intros H. unfold JS.round53, grid, tie_up.
  destruct (Z.ltb_spec (Z.abs z) (2 ^ 53)); [lia|reflexivity].
Qed.

Lemma round53_exact z : Z.abs z <= 2 ^ 53 -> JS.round53 z = z.
Proof.
  intros H. destruct (Z.eq_dec (Z.abs z) (2 ^ 53)) as [E|E].
  - destruct (Z.abs_eq_or_opp z) as [A|A]; rewrite A in E.
    + subst z. reflexivity.
    + assert (z = - 2 ^ 53) by lia. subst z. reflexivity.
  - apply round53_small. lia.
Qed.

Lemma round53_opp z : JS.round53 (- z) = - JS.round53 z.
Proof.
  unfold JS.round53. rewrite Z.abs_opp, Z.sgn_opp.
  destruct (Z.abs z <? 2 ^ 53); lia.
Qed.

Lemma round53_pos_bounds a :
  2 ^ 53 <= a -> 2 ^ 53 <= JS.round53 a.
Proof.
  intros H. rewrite round53_large by lia.
  assert (0 < 2 ^ 53) by reflexivity.
  rewrite Z.abs_eq, Z.sgn_pos by lia.
  destruct (binade a H) as [He Hb].
  pose proof (grid_bounds (Z.log2 a - 52) a ltac:(lia) Hb) as [G1 _].
  assert (2 ^ 53 <= 2 ^ (52 + (Z.log2 a - 52))) by (apply Z.pow_le_mono_r; lia).
  lia.
Qed.

Lemma round53_mono_pos a b : 2 ^ 53 <= a -> a <= b -> JS.round53 a <= JS.round53 b.
Proof.
  intros Ha Hab.
  assert (0 < 2 ^ 53) by reflexivity.
  rewrite !round53_large by lia.
  rewrite !Z.abs_eq, !Z.sgn_pos, !Z.mul_1_l by lia.
  destruct (binade a Ha) as [Ea Ba]. destruct (binade b ltac:(lia)) as [Eb Bb].
  assert (HL : Z.log2 a <= Z.log2 b) by (apply Z.log2_le_mono; lia).
  destruct (Z.eq_dec (Z.log2 a) (Z.log2 b)) as [E|E].
  - rewrite E. apply grid_mono; lia.
  - pose proof (grid_bounds (Z.log2 a - 52) a ltac:(lia) Ba) as [_ G1].
    pose proof (grid_bounds (Z.log2 b - 52) b ltac:(lia) Bb) as [G2 _].
    assert (2 ^ (53 + (Z.log2 a - 52)) <= 2 ^ (52 + (Z.log2 b - 52)))
      by (apply Z.pow_le_mono_r; lia).
    lia.
Qed.

Lemma round53_mono a b : a <= b -> JS.round53 a <= JS.round53 b.
Proof.
  intros Hab. assert (H53 : 0 < 2 ^ 53) by reflexivity.
  destruct (Z_lt_le_dec (Z.abs a) (2 ^ 53)) as [Sa|La];
    destruct (Z_lt_le_dec (Z.abs b) (2 ^ 53)) as [Sb|Lb].
  - rewrite !round53_small by assumption. exact Hab.
  - rewrite (round53_small a) by assumption.
    destruct (Z_lt_le_dec b 0) as [Nb|Pb]; [lia|].
    pose proof (round53_pos_bounds b ltac:(lia)). lia.
  - rewrite (round53_small b) by assumption.
    destruct (Z_lt_le_dec 0 a) as [Pa|Na]; [lia|].
    pose proof (round53_pos_bounds (- a) ltac:(lia)) as P.
    rewrite round53_opp in P. lia.
  - destruct (Z_lt_le_dec a 0) as [Na|Pa]; destruct (Z_lt_le_dec b 0) as [Nb|Pb].
    + pose proof (round53_mono_pos (- b) (- a) ltac:(lia) ltac:(lia)) as P.
      rewrite !round53_opp in P. lia.
    + pose proof (round53_pos_bounds (- a) ltac:(lia)) as P.
      rewrite round53_opp in P.
      pose proof (round53_pos_bounds b ltac:(lia)). lia.
    + lia.
    + apply round53_mono_pos; lia.
Qed.

Lemma grid_fixed e q :
  1 <= e -> 0 <= q -> grid e (q * 2 ^ e) = q * 2 ^ e.
Proof.
  intros He Hq.
  assert (HP : 0 < 2 ^ e) by (apply Z.pow_pos_nonneg; lia).
  assert (HH : 0 < 2 ^ (e - 1)) by (apply Z.pow_pos_nonneg; lia).
  unfold grid, tie_up. rewrite Z.div_mul by lia. rewrite Z.mod_mul by lia.
  destruct (Z.ltb_spec (2 ^ (e - 1)) 0); [lia|].
  destruct (Z.eqb_spec 0 (2 ^ (e - 1))); [lia|]. cbn. lia.
Qed.

Lemma round53_large_pos a :
  2 ^ 53 <= a -> JS.round53 a = grid (Z.log2 a - 52) a.
Proof.
  intros H. assert (0 < 2 ^ 53) by reflexivity.
  rewrite round53_large by lia. rewrite Z.abs_eq, Z.sgn_pos by lia. lia.
Qed.

Lemma round53_idem_pos a : 0 <= a -> JS.round53 (JS.round53 a) = JS.round53 a.
Proof.
  intros Ha. assert (H53 : 0 < 2 ^ 53) by reflexivity.
  destruct (Z_lt_le_dec a (2 ^ 53)) as [S|L].
  - rewrite !(round53_small a) by lia. reflexivity.
  - pose proof (round53_pos_bounds a L) as B.
    rewrite (round53_large_pos (JS.round53 a)) by lia.
    rewrite (round53_large_pos a) in * by lia.
    destruct (binade a L) as [He Hb].
    set (e := Z.log2 a - 52) in *.
    pose proof (grid_quotient e a ltac:(lia) Hb) as [Q1 Q2].
    pose proof (tie_up_range e a) as U.
    assert (HP : 0 < 2 ^ e) by (apply Z.pow_pos_nonneg; lia).
    set (q := a / 2 ^ e + tie_up e a).
    assert (Hq : 2 ^ 52 <= q <= 2 ^ 53) by (unfold q; lia).
    change (grid e a) with (q * 2 ^ e).
    destruct (Z.eq_dec q (2 ^ 53)) as [E|E].
    + rewrite E. rewrite <- Z.pow_add_r by lia.
      rewrite Z.log2_pow2 by lia.
      replace (53 + e - 52) with (e + 1) by lia.
      replace (2 ^ (53 + e)) with (2 ^ 52 * 2 ^ (e + 1))
        by (rewrite <- Z.pow_add_r by lia; f_equal; lia).
      apply grid_fixed; lia.
    + assert (HL : Z.log2 (q * 2 ^ e) = 52 + e).
      { apply Z.log2_unique; [lia|].
        replace (Z.succ (52 + e)) with (53 + e) by lia.
        rewrite !Z.pow_add_r by lia. split.
        - apply Z.mul_le_mono_nonneg_r; lia.
        - apply Zmult_lt_compat_r; lia. }
      rewrite HL. replace (52 + e - 52) with e by lia.
      apply grid_fixed; lia.
Qed.

Lemma round53_idem z : JS.round53 (JS.round53 z) = JS.round53 z.
Proof.
  destruct (Z_lt_le_dec z 0) as [N|P].
  - pose proof (round53_idem_pos (- z) ltac:(lia)) as H.
    rewrite !round53_opp in H. lia.
  - apply round53_idem_pos. exact P.
Qed.

Lemma add_exact (a b : Z) : Z.abs (a + b) <= 2 ^ 53 -> JS.add a b = a + b.
Proof. apply round53_exact. Qed.

Lemma add_zero (z : Z) : JS.round53 z = z -> JS.add z 0 = z.
Proof. intros H. unfold JS.add. now rewrite Z.add_0_r. Qed.

Lemma add_mono (z b1 b2 : Z) : b1 <= b2 -> JS.add z b1 <= JS.add z b2.
Proof. intros H. apply round53_mono. lia. Qed.

Lemma add_le (z b : Z) : JS.round53 z = z -> 0 <= b -> z <= JS.add z b.
Proof.
  intros Hz Hb. rewrite <- Hz at 1. apply round53_mono. lia.
Qed.

Lemma add_round (a b : Z) : JS.round53 (JS.add a b) = JS.add a b.
Proof. apply round53_idem. Qed.

(** A double is at most [max_double] in magnitude. *)
Lemma double_max_pos (z : Z) :
  0 <= z -> JS.round53 z = z -> z < 2 ^ 1024 -> z <= max_double.
Proof.
  intros Hz Hr Hb. assert (H53 : 0 < 2 ^ 53) by reflexivity.
  destruct (Z_lt_le_dec z (2 ^ 53)) as [S|L].
  - assert (2 ^ 53 <= max_double) by (vm_compute; discriminate). lia.
  - rewrite round53_large_pos in Hr by exact L.
    destruct (binade z L) as [He [B1 B2]].
    set (e := Z.log2 z - 52) in *.
    assert (HP : 0 < 2 ^ e) by (apply Z.pow_pos_nonneg; lia).
    assert (Hle : e <= 971).
    { destruct (Z_lt_le_dec 971 e) as [G|G]; [|exact G].
      assert (2 ^ 1024 <= 2 ^ (52 + e)) by (apply Z.pow_le_mono_r; lia). lia. }
    unfold grid in Hr. set (k := z / 2 ^ e + tie_up e z) in *.
    assert (Hk : k <= 2 ^ 53 - 1).
    { rewrite Z.pow_add_r in B2 by lia.
      assert (k * 2 ^ e < 2 ^ 53 * 2 ^ e) by lia.
      assert (k < 2 ^ 53) by (apply (Zmult_lt_reg_r _ _ (2 ^ e)); lia). lia. }
    assert (H1 : k * 2 ^ e <= (2 ^ 53 - 1) * 2 ^ e)
      by (apply Z.mul_le_mono_nonneg_r; lia).
    assert (H2 : (2 ^ 53 - 1) * 2 ^ e <= (2 ^ 53 - 1) * 2 ^ 971).
    { apply Z.mul_le_mono_nonneg_l; [lia|]. apply Z.pow_le_mono_r; lia. }
    assert (H3 : (2 ^ 53 - 1) * 2 ^ 971 = max_double) by reflexivity.
    lia.
Qed.

Lemma double_max (z : Z) : JS.is_double z -> - max_double <= z <= max_double.
Proof.
  intros [Hr Hb]. destruct (Z_lt_le_dec z 0) as [N|P].
  - pose proof (double_max_pos (- z) ltac:(lia)) as H.
    rewrite round53_opp, Hr in H. specialize (H eq_refl ltac:(lia)).
    assert (0 < max_double) by reflexivity. lia.
  - pose proof (double_max_pos z P Hr ltac:(lia)).
    assert (0 < max_double) by reflexivity. lia.
Qed.

Lemma is_double_safe (z : Z) : Z.abs z <= 2 ^ 53 -> JS.is_double z.
Proof.
  intros H. split; [now apply round53_exact|].
  assert (2 ^ 53 < 2 ^ 1024) by reflexivity. lia.
Qed.

(** Adding a batch offset to a double gives a double. *)
Lemma add_is_double (z b : Z) :
  JS.is_double z -> 0 <= b <= BATCH_SIZE -> JS.is_double (JS.add z b).
Proof.
  intros Hz Hb. pose proof (double_max z Hz) as [M1 M2]. destruct Hz as [Hr _].
  split; [apply add_round|].
  assert (U : JS.add z b <= max_double).
  { unfold JS.add.
    replace max_double with (JS.round53 (max_double + BATCH_SIZE))
      by (vm_compute; reflexivity).
    apply round53_mono. lia. }
  assert (L : - max_double <= JS.add z b).
  { pose proof (add_le z b Hr ltac:(lia)). lia. }
  assert (max_double < 2 ^ 1024) by reflexivity.
  lia.
Qed.

(** The arithmetic and the printing at the edge of the exact integers,
    as the program computes them: [2^53 + 5] is [2^53 + 4], [10^21] is
    printed with an exponent, [2^60] with its 16 shortest digits, and a
    number is read as the nearest double. *)
Lemma double_samples :
  JS.add (2 ^ 53) BATCH_SIZE = 2 ^ 53 + 4
  /\ JS.toString (JS.add (2 ^ 53) BATCH_SIZE) = "9007199254740996"%string
  /\ JS.add (10 ^ 21) BATCH_SIZE = 10 ^ 21
  /\ JS.toString (10 ^ 21) = "1e+21"%string
  /\ JS.toString (2 ^ 60) = "1152921504606847000"%string
  /\ JSON.number "1e1" = Some (JSON.Num 10)
  /\ JSON.number "10.0" = Some (JSON.Num 10)
  /\ JSON.number "9007199254740993" = Some (JSON.Num (2 ^ 53)).
Proof. vm_compute. repeat split. Qed.

(** ** The stored checkpoint: printing and parsing *)

Lemma span_all_digits (s : string) :
  all_digits s = true -> JSON.span_digits s = (s, EmptyString).
Proof.
  induction s as [|c r IH]; simpl; [reflexivity|].
  unfold JSON.is_digit. intros H. apply andb_true_iff in H as [Hc Hr].
  now rewrite Hc, IH.
Qed.

Lemma span_digits_app (d rest : string) :
  all_digits d = true -> stops rest ->
  JSON.span_digits (d ++ rest)%string = (d, rest).
Proof.
  intros Hd Hr. induction d as [|c d IH]; simpl.
  - destruct rest as [|c r]; [reflexivity|].
    simpl in *. unfold JSON.is_digit. now rewrite Hr.
  - simpl in Hd. apply andb_true_iff in Hd as [Hc Hd].
    unfold JSON.is_digit. now rewrite Hc, (IH Hd).
Qed.

Lemma all_digits_numchars (s : string) :
  all_digits s = true -> all_numchars s = true.
Proof.
  induction s as [|c r IH]; simpl; [reflexivity|].
  intros H. apply andb_true_iff in H as [Hc Hr].
  unfold JSON.is_numchar, JSON.is_digit. now rewrite Hc, (IH Hr).
Qed.

Lemma all_numchars_app (a b : string) :
  all_numchars a = true -> all_numchars b = true ->
  all_numchars (a ++ b)%string = true.
Proof.
  intros Ha Hb. induction a as [|c a IH]; simpl; [exact Hb|].
  simpl in Ha. apply andb_true_iff in Ha as [Hc Ha]. now rewrite Hc, (IH Ha).
Qed.

(** The spelling of a natural number. *)
Lemma show_nonneg (x : Z) :
  0 <= x ->
  all_digits (JS.show x) = true
  /\ JSON.nonempty (JS.show x) = true
  /\ JS.scan_digits 10 (JS.show x) None = Some x.
Proof.
  intros Hx. destruct x as [|p|p]; [repeat split | | lia].
  rewrite show_pos. destruct (spelled_head p) as (c & r & E & Hc & _ & Hr).
  pose proof (scan_spelled p "" I) as Hs. rewrite append_empty in Hs.
  rewrite E in *. repeat split; [|exact Hs]. simpl. now rewrite Hc, Hr.
Qed.

Lemma strip10_spec (fuel : nat) (v t : Z) :
  0 < v -> 0 <= t ->
  0 < fst (JS.strip10 fuel v t) /\ 0 <= snd (JS.strip10 fuel v t)
  /\ fst (JS.strip10 fuel v t) * 10 ^ snd (JS.strip10 fuel v t) = v * 10 ^ t.
Proof.
  revert v t. induction fuel as [|fuel IH]; intros v t Hv Ht; simpl.
  - repeat split; lia.
  - destruct (Z.eqb_spec (v mod 10) 0) as [E|E]; [|simpl; repeat split; lia].
    assert (Hd : v = 10 * (v / 10)).
    { pose proof (Z.div_mod v 10 ltac:(lia)). lia. }
    destruct (IH (v / 10) (t + 1) ltac:(lia) ltac:(lia)) as (H1 & H2 & H3).
    repeat split; [exact H1 | exact H2 |].
    rewrite H3, Z.pow_add_r by lia. lia.
Qed.

(** A literal with an integer part [String h t], read by [JSON.number]
    with and without a sign. *)
Lemma number_parts (h : ascii) (t tail f s3 : string) (x n v : Z) :
  JS.is_digit h = true -> all_digits t = true ->
  JSON.int_ok (String h t) = true -> stops tail ->
  JSON.split_frac tail = Some (f, s3) -> JSON.split_exp s3 = Some x ->
  JS.scan_digits 10 (String h t ++ f)%string None = Some n ->
  JSON.number_value n (x - Z.of_nat (String.length f)) = Some v ->
  JSON.number (String h t ++ tail)%string = Some (JSON.Num v)
  /\ JSON.number (String "-" (String h t ++ tail))%string = Some (JSON.Num (- v)).
Proof.
  intros Hh Ht Hok Hs Hf Hx Hn Hv.
  assert (Hspan : JSON.span_digits (String h t ++ tail)%string = (String h t, tail)).
  { apply span_digits_app; [|exact Hs]. simpl. now rewrite Hh, Ht. }
  split.
  - unfold JSON.number.
    replace (match (String h t ++ tail)%string with
             | String "-" r0 => (-1, r0)
             | _ => (1, (String h t ++ tail)%string)
             end) with (1, (String h t ++ tail)%string)
      by (destruct h as [[|] [|] [|] [|] [|] [|] [|] [|]];
          try discriminate Hh; reflexivity).
    rewrite Hspan, Hok, Hf, Hx, Hn, Hv. do 2 f_equal; lia.
  - unfold JSON.number. cbv iota. cbn [Ascii.eqb].
    rewrite Hspan, Hok, Hf, Hx, Hn, Hv. do 2 f_equal; lia.
Qed.

Lemma number_value_whole (n : Z) :
  0 < n -> JS.round53 n < 2 ^ 1024 ->
  JSON.number_value n 0 = Some (JS.round53 n).
Proof.
  intros Hn Hb. unfold JSON.number_value. cbn [Z.leb Z.compare].
  destruct (Z.eqb_spec n 0); [lia|].
  change (309 <=? 0) with false. cbv iota.
  change (10 ^ 0) with 1. rewrite Z.mul_1_r.
  destruct (Z.ltb_spec (JS.round53 n) (2 ^ 1024)); [reflexivity|lia].
Qed.

Lemma number_spelled (p : positive) :
  JS.round53 (Z.pos p) < 2 ^ 1024 ->
  JSON.number (spelled p) = Some (JSON.Num (JS.round53 (Z.pos p)))
  /\ JSON.number (String "-" (spelled p))
     = Some (JSON.Num (- JS.round53 (Z.pos p))).
Proof.
  intros Hb. destruct (spelled_head p) as (c & r & E & Hc & H0 & Hr).
  pose proof (scan_spelled p "" I) as Hs. rewrite E in Hs.
  rewrite E, <- (append_empty (String c r)).
  apply (number_parts c r "" "" "" 0 (Z.pos p)); try assumption; try reflexivity.
  - simpl. destruct r; [reflexivity|]. now rewrite H0.
  - apply number_value_whole; [lia|exact Hb].
Qed.

Lemma split_exp_plus (x : Z) :
  0 <= x -> JSON.split_exp ("e+" ++ JS.show x)%string = Some x.
Proof.
  intros Hx. destruct (show_nonneg x Hx) as (Hd & Hn & Hs).
  cbn [String.append JSON.split_exp Ascii.eqb Bool.eqb orb].
  rewrite (span_all_digits _ Hd), Hn, Hs. simpl. f_equal. destruct x; reflexivity.
Qed.

Lemma number_value_scaled (d t : Z) :
  0 < d -> 0 <= t -> JS.round53 (d * 10 ^ t) < 2 ^ 1024 ->
  JSON.number_value d t = Some (JS.round53 (d * 10 ^ t)).
Proof.
  intros Hd Ht Hb. unfold JSON.number_value.
  destruct (Z.leb_spec 0 t); [|lia].
  destruct (Z.eqb_spec d 0); [lia|].
  destruct (Z.leb_spec 309 t) as [G|G].
  - exfalso.
    assert (H1 : 10 ^ 309 <= 10 ^ t) by (apply Z.pow_le_mono_r; lia).
    assert (H0 : 0 < 10 ^ 309) by reflexivity.
    assert (H2 : 10 ^ 309 <= d * 10 ^ t) by nia.
    pose proof (round53_mono _ _ H2) as H3.
    assert (H4 : 2 ^ 1024 <= JS.round53 (10 ^ 309)) by (vm_compute; discriminate).
    lia.
  - destruct (Z.ltb_spec (JS.round53 (d * 10 ^ t)) (2 ^ 1024)); [reflexivity|lia].
Qed.

Lemma number_exponential (v : Z) :
  0 < v -> JS.round53 v < 2 ^ 1024 ->
  JSON.number (JS.exponential v) = Some (JSON.Num (JS.round53 v))
  /\ JSON.number (String "-" (JS.exponential v))
     = Some (JSON.Num (- JS.round53 v)).
Proof.
  intros Hv Hb. unfold JS.exponential.
  pose proof (strip10_spec (String.length (JS.show v)) v 0 Hv ltac:(lia))
    as (Hd & Ht & Hdt).
  destruct (JS.strip10 _ v 0) as [d t]. cbn [fst snd] in *.
  rewrite Z.mul_1_r in Hdt.
  destruct d as [|pd|pd]; try lia.
  rewrite show_pos. destruct (spelled_head pd) as (c & r & E & Hc & H0 & Hr).
  pose proof (scan_spelled pd "" I) as Hs. rewrite append_empty, E in Hs.
  rewrite E.
  set (x := t + Z.of_nat (String.length r)).
  assert (Hx : 0 <= x) by (unfold x; lia).
  assert (Hst : stops ("e+" ++ JS.show x)%string) by reflexivity.
  assert (Hval : JSON.number_value (Z.pos pd) (x - Z.of_nat (String.length r))
                 = Some (JS.round53 v)).
  { replace (x - Z.of_nat (String.length r)) with t by (unfold x; lia).
    rewrite <- Hdt. apply number_value_scaled; [lia | lia | now rewrite Hdt]. }
  destruct r as [|r1 rs].
  - apply (number_parts c "" ("e+" ++ JS.show x) "" ("e+" ++ JS.show x) x (Z.pos pd));
      try assumption; try reflexivity.
    now apply split_exp_plus.
  - apply (number_parts c "" (String "." (String r1 rs ++ "e+" ++ JS.show x))
             (String r1 rs) ("e+" ++ JS.show x) x (Z.pos pd));
      try assumption; try reflexivity.
    + cbn [JSON.split_frac].
      rewrite (span_digits_app (String r1 rs) _ Hr Hst). reflexivity.
    + now apply split_exp_plus.
Qed.

Lemma number_render (v : Z) :
  0 < v -> JS.round53 v < 2 ^ 1024 ->
  JSON.number (JS.render v) = Some (JSON.Num (JS.round53 v))
  /\ JSON.number (String "-" (JS.render v)) = Some (JSON.Num (- JS.round53 v)).
Proof.
  intros Hv Hb. unfold JS.render. destruct (v <? 10 ^ 21).
  - destruct v as [|p|p]; try lia. rewrite show_pos. now apply number_spelled.
  - now apply number_exponential.
Qed.

(** The digits that [toString] picks read back as the double. *)
Lemma candidate_reads (a m v : Z) :
  JS.candidate a m = Some v -> JS.round53 v = a.
Proof.
  unfold JS.candidate.
  destruct (Z.eqb_spec (JS.round53 (a / 10 ^ m * 10 ^ m)) a) as [L|L];
    destruct (Z.eqb_spec (JS.round53 (a / 10 ^ m * 10 ^ m + 10 ^ m)) a) as [H|H];
    intros E; inversion E; subst; try assumption.
  repeat destruct (_ <? _); try destruct (Z.even _); assumption.
Qed.

Lemma shortest_from_reads (ms : list Z) (a : Z) :
  JS.round53 a = a -> JS.round53 (JS.shortest_from ms a) = a.
Proof.
  intros Ha. induction ms as [|m ms IH]; simpl; [exact Ha|].
  destruct (JS.candidate a m) as [v|] eqn:E; [|exact IH].
  now apply candidate_reads with m.
Qed.

Lemma shortest_reads (a : Z) :
  0 < a -> JS.round53 a = a ->
  JS.round53 (JS.shortest a) = a /\ 0 < JS.shortest a.
Proof.
  intros Hp Ha. unfold JS.shortest.
  pose proof (shortest_from_reads
                (map (fun k => Z.of_nat (String.length (JS.show a) - k))
                     (seq 1 (String.length (JS.show a)))) a Ha) as H.
  split; [exact H|].
  destruct (Z_lt_le_dec 0 (JS.shortest_from
                (map (fun k => Z.of_nat (String.length (JS.show a) - k))
                     (seq 1 (String.length (JS.show a)))) a)) as [G|G]; [exact G|].
  pose proof (round53_mono _ _ G) as M. rewrite H in M.
  change (JS.round53 0) with 0 in M. lia.
Qed.

(** [JSON.number] reads back what [toString] printed. *)
Lemma number_toString (z : Z) :
  JS.is_double z -> JSON.number (JS.toString z) = Some (JSON.Num z).
Proof.
  intros [Hr Hb]. unfold JS.toString.
  destruct (Z.ltb_spec (Z.abs z) (2 ^ 53)) as [S|L].
  - destruct z as [|p|p]; [reflexivity | |].
    + rewrite show_pos, <- Hr at 1.
      apply number_spelled. rewrite Hr. lia.
    + rewrite show_neg.
      assert (Hp : JS.round53 (Z.pos p) = Z.pos p) by (apply round53_small; lia).
      destruct (number_spelled p) as [_ H]; [rewrite Hp; lia|].
      rewrite H, Hp. reflexivity.
  - assert (H53 : 0 < 2 ^ 53) by reflexivity.
    assert (Ha : JS.round53 (Z.abs z) = Z.abs z).
    { destruct (Z.abs_eq_or_opp z) as [A|A]; rewrite A;
        [exact Hr | now rewrite round53_opp, Hr]. }
    destruct (shortest_reads (Z.abs z) ltac:(lia) Ha) as [Hs Hpos].
    destruct (number_render (JS.shortest (Z.abs z)) Hpos ltac:(rewrite Hs; lia))
      as [N1 N2].
    rewrite Hs in N1, N2.
    destruct (Z.ltb_spec z 0).
    + rewrite N2. do 2 f_equal. lia.
    + rewrite N1. do 2 f_equal. lia.
Qed.

Lemma render_shape (v : Z) :
  0 < v ->
  exists h t, JS.render v = String h t
              /\ JS.is_digit h = true /\ all_numchars t = true.
Proof.
  intros Hv. unfold JS.render. destruct (v <? 10 ^ 21).
  - destruct v as [|p|p]; try lia. rewrite show_pos.
    destruct (spelled_head p) as (c & r & E & Hc & _ & Hr).
    exists c, r. repeat split; [exact E | exact Hc | now apply all_digits_numchars].
  - unfold JS.exponential.
    pose proof (strip10_spec (String.length (JS.show v)) v 0 Hv ltac:(lia))
      as (Hd & Ht & _).
    destruct (JS.strip10 _ v 0) as [d t]. cbn [fst snd] in *.
    destruct d as [|pd|pd]; try lia.
    rewrite show_pos. destruct (spelled_head pd) as (c & r & E & Hc & _ & Hr).
    rewrite E. do 2 eexists. split; [reflexivity|]. split; [exact Hc|].
    destruct (show_nonneg (t + Z.of_nat (String.length r)) ltac:(lia)) as (Hx & _).
    apply all_numchars_app.
    + destruct r as [|r1 rs]; [reflexivity|].
      change (all_numchars (String "." (String r1 rs)))
        with (all_numchars (String r1 rs)).
      now apply all_digits_numchars.
    + apply (all_numchars_app "e+"); [reflexivity|]. now apply all_digits_numchars.
Qed.

Lemma toString_shape (z : Z) :
  JS.is_double z ->
  exists h t, JS.toString z = String h t
              /\ (h = "-"%char \/ JS.is_digit h = true) /\ all_numchars t = true.
Proof.
  intros [Hr Hb]. unfold JS.toString.
  destruct (Z.ltb_spec (Z.abs z) (2 ^ 53)) as [S|L].
  - destruct z as [|p|p].
    + exists "0"%char, EmptyString. repeat split. now right.
    + rewrite show_pos. destruct (spelled_head p) as (c & r & E & Hc & _ & Hd).
      exists c, r. repeat split; [exact E | now right | now apply all_digits_numchars].
    + rewrite show_neg. destruct (spelled_head p) as (c & r & E & Hc & _ & Hd).
      exists "-"%char, (spelled p). repeat split; [now left|].
      apply all_digits_numchars. rewrite E. simpl. now rewrite Hc, Hd.
  - assert (H53 : 0 < 2 ^ 53) by reflexivity.
    assert (Ha : JS.round53 (Z.abs z) = Z.abs z).
    { destruct (Z.abs_eq_or_opp z) as [A|A]; rewrite A;
        [exact Hr | now rewrite round53_opp, Hr]. }
    destruct (shortest_reads (Z.abs z) ltac:(lia) Ha) as [_ Hpos].
    destruct (render_shape _ Hpos) as (h & t & E & Hh & Ht).
    destruct (z <? 0).
    + exists "-"%char, (JS.render (JS.shortest (Z.abs z))).
      repeat split; [now left|]. rewrite E. simpl.
      unfold JSON.is_numchar, JSON.is_digit. now rewrite Hh, Ht.
    + exists h, t. repeat split; [exact E | now right | exact Ht].
Qed.

Lemma snoc_append (acc : string) (c : ascii) (t : string) :
  (JSON.snoc acc c ++ t)%string = (acc ++ String c t)%string.
Proof. unfold JSON.snoc. induction acc; simpl; congruence. Qed.

Lemma lex_in_number (t acc : string) (c : ascii) (r : string) :
  all_numchars t = true -> JSON.is_numchar c = false ->
  JSON.lex (JSON.InNumber acc) (t ++ String c r)%string
  = JSON.close (JSON.number (acc ++ t)%string) c (fun m => JSON.lex m r).
Proof.
  intros Ht Hc; revert acc.
  induction t as [|d t IH]; intros acc.
  - simpl. now rewrite Hc, append_empty.
  - simpl in Ht. apply andb_true_iff in Ht as [Hd Ht].
    cbn [String.append JSON.lex]. rewrite Hd.
    rewrite (IH Ht), snoc_append. reflexivity.
Qed.

Lemma option_map_app_nil (x : option (list JSON.token)) :
  option_map (app []) x = x.
Proof. now destruct x. Qed.

(** The lexer reads the text of a number up to a code unit that cannot
    continue it. *)
Lemma lex_number_text (h : ascii) (t : string) (c : ascii) (r : string) :
  h = "-"%char \/ JS.is_digit h = true -> all_numchars t = true ->
  JSON.is_numchar c = false ->
  JSON.lex JSON.Idle (String h t ++ String c r)%string
  = JSON.close (JSON.number (String h t)) c (fun m => JSON.lex m r).
Proof.
  intros Hh Ht Hc. cbn [String.append JSON.lex].
  replace (JSON.start h)
    with (Some (JSON.InNumber (String h EmptyString), @nil JSON.token)).
  - rewrite option_map_app_nil. now rewrite lex_in_number.
  - destruct Hh as [-> | Hh]; [reflexivity|].
    destruct h as [[|] [|] [|] [|] [|] [|] [|] [|]];
      try discriminate Hh; reflexivity.
Qed.

Lemma lex_toString (z : Z) (c : ascii) (r : string) :
  JS.is_double z -> JSON.is_numchar c = false ->
  JSON.lex JSON.Idle (JS.toString z ++ String c r)%string
  = JSON.close (Some (JSON.Num z)) c (fun m => JSON.lex m r).
Proof.
  intros Hz Hc. rewrite <- (number_toString z Hz).
  destruct (toString_shape z Hz) as (h & t & -> & Hh & Ht).
  now apply lex_number_text.
Qed.

(** [JSON.parse] reads back what [JSON.stringify] wrote for a
    checkpoint. *)
Lemma parse_stringify_triple (i c p : Z) :
  JS.is_double i -> JS.is_double c -> JS.is_double p ->
  JSON.parse (JSON.stringify_triple i c p) = Some (triple_value i c p).
Proof.
  intros Di Dc Dp.
  unfold JSON.parse, JSON.stringify_triple, JSON.quote.
  generalize (fun ch r => lex_toString i ch r Di),
             (fun ch r => lex_toString c ch r Dc),
             (fun ch r => lex_toString p ch r Dp).
  generalize (JS.toString i), (JS.toString c), (JS.toString p).
  intros si sc sp Hi Hc Hp.
  cbn [String.append JSON.lex].
  change (JSON.start "{") with (Some (JSON.Idle, [JSON.LBrace])).
  cbn.
  rewrite Hi by reflexivity. cbn.
  rewrite Hc by reflexivity. cbn.
  rewrite Hp by reflexivity. cbn.
  reflexivity.
Qed.

Lemma load_stringify_triple (i c p : Z) :
  JS.is_double i -> JS.is_double c -> JS.is_double p ->
  load_state (Some (JSON.stringify_triple i c p)) = triple_value i c p.
Proof.
  intros Di Dc Dp. unfold load_state.
  rewrite parse_stringify_triple by assumption. reflexivity.
Qed.

(** C8 (as amended).  Writing the checkpoint [{mIdx: i, cIdx: c, pIdx: p}]
    of integer-valued numbers and loading it again yields the same
    triple.  A key that is absent, an empty value and a value that is
    not JSON text load as the default [{mIdx: 0, cIdx: 1, pIdx: 0}].
    Every value that is JSON text loads as the value that [JSON.parse]
    gives, whatever that is: nothing is checked and nothing is
    replaced. *)
Theorem C8_checkpoint_roundtrip_and_fallback :
  (forall i c p w,
      JS.is_double i -> JS.is_double c -> JS.is_double p ->
      load_state (kv (put (JSON.stringify_triple i c p) w)) = triple_value i c p
      /\ as_state (triple_value i c p) = Some (mkState i c p))
  /\ load_state None = default_state
  /\ load_state (Some EmptyString) = default_state
  /\ (forall text, JSON.parse text = None -> load_state (Some text) = default_state)
  /\ (forall text v, JSON.parse text = Some v -> load_state (Some text) = v)
  /\ as_state default_state = Some (mkState 0 1 0).
Proof.
  split; [|split; [|split; [|split; [|split]]]]; try reflexivity.
  - intros i c p w Di Dc Dp. split; [|reflexivity].
    now apply load_stringify_triple.
  - intros text H. unfold load_state. rewrite H. now destruct (JS.truthy _).
  - intros text v H. unfold load_state. rewrite H.
    destruct text; [discriminate H | reflexivity].
Qed.

Lemma C8_checkpoint_roundtrip_and_fallback_witness :
  as_state (load_state (kv (put (JSON.stringify_triple 4 7 35) (mkWorld None 0 []))))
  = Some (mkState 4 7 35)
  /\ load_state (Some "{not json"%string) = default_state
  /\ load_state (Some "[1e1]"%string) = JSON.Arr [JSON.Num 10].
Proof.
  destruct C8_checkpoint_roundtrip_and_fallback as (Hrt & _ & _ & Hbad & Hgood & _).
  split; [|split].
  - assert (D4 : JS.is_double 4) by (split; vm_compute; reflexivity).
    assert (D7 : JS.is_double 7) by (split; vm_compute; reflexivity).
    assert (D35 : JS.is_double 35) by (split; vm_compute; reflexivity).
    destruct (Hrt 4 7 35 (mkWorld None 0 []) D4 D7 D35) as [-> ->]. reflexivity.
  - apply Hbad. reflexivity.
  - apply Hgood. reflexivity.
Defined.

(** C8 (as stated) fails: a stored value that is JSON text but not a
    checkpoint triple is loaded as it is, not as the default.  The text
    [{}] loads as an object without the three properties: [state.mIdx]
    is [undefined], no loop is entered and nothing is warmed, where the
    default checkpoint starts at the first manga.  The text [null] loads
    as [null], and reading [state.mIdx] then throws before anything is
    warmed or written. *)
Lemma C8_malformed_counterexample :
  load_state (Some "{}"%string) = JSON.Obj []
  /\ load_state (Some "{}"%string) <> default_state
  /\ as_state (load_state (Some "{}"%string)) = None
  /\ (forall net clock fuel,
        runSmartCacher net clock fuel (FeedReplies true Sample.feed_text)
                       (mkWorld (Some "{}"%string) 0 [])
        = (Completed, put (JSON.stringify_triple 0 1 0)
                          (mkWorld (Some "{}"%string) 0 [])))
  /\ (exists rest,
        log (snd (runSmartCacher Demo.net Demo.clock_still 10
                    (FeedReplies true Sample.feed_text) (mkWorld None 0 [])))
        = Warm 0 "A" 1 0 :: rest)
  /\ load_state (Some "null"%string) = JSON.Null
  /\ load_state (Some "null"%string) <> default_state
  /\ forall net clock fuel,
       runSmartCacher net clock fuel (FeedReplies true "[]")
                      (mkWorld (Some "null"%string) 0 [])
       = (TypeError, mkWorld (Some "null"%string) 0 []).
Proof.
  split; [reflexivity|]. split; [discriminate|]. split; [reflexivity|].
  split; [intros; vm_compute; reflexivity|].
  split; [vm_compute; eexists; reflexivity|].
  split; [reflexivity|]. split; [discriminate|].
  intros. reflexivity.
Qed.

(** ** The catalog feed *)

(** C6.  When the catalog fetch fails, the status is not a success or the
    body is not the JSON text of an array, the invocation returns at once:
    no page is warmed, nothing is written, and the stored checkpoint is
    the one that was there. *)
Theorem C6_catalog_unavailable_noop (net : nat -> string -> Reply)
    (clock : nat -> Z) (fuel : nat) (feed : Feed) (w : World) :
  catalog_unavailable feed ->
  runSmartCacher net clock fuel feed w = (NoCatalog, w).
Proof.
  destruct feed as [|ok text]; simpl; [reflexivity|].
  intros [-> | H]; [reflexivity|].
  destruct ok; [|reflexivity]. simpl.
  destruct (JSON.parse text) as [[]|]; try reflexivity. discriminate.
Qed.

Lemma C6_catalog_unavailable_noop_witness :
  runSmartCacher (fun _ _ => Replies 200 true) (fun _ => 0) 9
    (FeedReplies true "{}") (mkWorld (Some (JSON.stringify_triple 3 2 10)) 0 [])
  = (NoCatalog, mkWorld (Some (JSON.stringify_triple 3 2 10)) 0 [])
  /\ runSmartCacher (fun _ _ => Replies 200 true) (fun _ => 0) 9
       (FeedReplies false "[]") (mkWorld None 0 [])
     = (NoCatalog, mkWorld None 0 []).
Proof.
  split.
  - apply (C6_catalog_unavailable_noop _ _ 9 (FeedReplies true "{}")).
    right. reflexivity.
  - apply (C6_catalog_unavailable_noop _ _ 9 (FeedReplies false "[]")).
    left. reflexivity.
Defined.

(** ** The traversal: time budget and writes *)

Section Traversal.

Variable net : nat -> string -> Reply.
Variable clock : nat -> Z.

Lemma Quiet_refl (w : World) : Quiet w w.
Proof.
  split; [reflexivity|]. split; [lia|].
  exists []. now rewrite app_nil_r.
Qed.

Lemma Quiet_trans (w w1 w2 : World) : Quiet w w1 -> Quiet w1 w2 -> Quiet w w2.
Proof.
  intros (Hk1 & Hr1 & ws1 & Hl1 & Hw1) (Hk2 & Hr2 & ws2 & Hl2 & Hw2).
  split; [congruence|]. split; [lia|].
  exists (ws1 ++ ws2). split.
  - now rewrite Hl2, Hl1, app_assoc.
  - now apply Forall_app.
Qed.

Lemma batch_events_warm (i : Z) (mangaName : string) (c p : Z) :
  Forall is_warm (batch_events i mangaName c p).
Proof. unfold batch_events. apply Forall_forall. intros e H.
  apply in_map_iff in H as (b & <- & _). exact I.
Qed.

Lemma Quiet_round (i : Z) (mangaName : string) (c p : Z) (w : World) :
  Quiet w (round_done i mangaName c p w).
Proof.
  split; [reflexivity|]. split; [simpl; lia|].
  eexists. split; [reflexivity|]. apply batch_events_warm.
Qed.

Lemma HaltedAt_after (w w1 w' : World) :
  Quiet w w1 -> HaltedAt net w1 w' -> HaltedAt net w w'.
Proof.
  intros Hq (w2 & i & nm & c & p & Hq2 & ->).
  exists w2, i, nm, c, p. split; [|reflexivity].
  now apply Quiet_trans with w1.
Qed.

Lemma Budgeted_refl (w : World) (sig : Signal) :
  sig <> Halted -> Budgeted clock w sig w.
Proof.
  intros Hs. split; [lia|]. split; [intros k Hk; lia|]. split.
  - intros ->. congruence.
  - intros _ Hlt. lia.
Qed.

Lemma Budgeted_trans (w w1 w2 : World) (sig : Signal) :
  Budgeted clock w Continue w1 -> Budgeted clock w1 sig w2 ->
  Budgeted clock w sig w2.
Proof.
  intros (Hr1 & Hin1 & _ & Hout1) (Hr2 & Hin2 & Hh2 & Hout2).
  split; [lia|]. split; [|split].
  - intros k Hk.
    destruct (Nat.lt_trichotomy k (rounds w1)) as [Hlt | [-> | Hgt]].
    + apply Hin1; lia.
    + apply Hout1; [discriminate | lia].
    + apply Hin2; lia.
  - intros Hs. destruct (Hh2 Hs). split; [lia | assumption].
  - intros Hs Hlt.
    destruct (Nat.eq_dec (rounds w1) (rounds w2)) as [E|E].
    + rewrite <- E in *. apply Hout1; [discriminate | lia].
    + apply Hout2; [assumption | lia].
Qed.

(** One unfolding of the [while] loop. *)
Lemma pages_loop_step (fuel : nat) (i : Z) (manga : Manga) (c p : Z) (w : World) :
  pages_loop net clock (S fuel) i manga c p w =
  let w1 := round_done i (name manga) c p w in
  let r := advance p (batch net (rounds w) (name manga) c p) in
  if over_budget clock (rounds w1) then
    (Halted, put (JSON.stringify_triple i c (fst r)) w1)
  else if snd r then (Continue, w1)
  else pages_loop net clock fuel i manga c (fst r) w1.
Proof.
  cbn [pages_loop]. now destruct (advance p _).
Qed.

Lemma pages_loop_run (fuel : nat) (i : Z) (manga : Manga) (c p : Z)
    (w w' : World) (sig : Signal) :
  pages_loop net clock fuel i manga c p w = (sig, w') ->
  Budgeted clock w sig w'
  /\ sig <> Threw
  /\ (sig = Halted -> HaltedAt net w w')
  /\ (sig <> Halted -> Quiet w w')
  /\ (sig = Continue -> (rounds w < rounds w')%nat).
Proof.
  revert p w; induction fuel as [|fuel IH]; intros p w.
  - intros [= <- <-]. split; [apply Budgeted_refl; discriminate|].
    split; [discriminate|]. split; [discriminate|].
    split; [intros _; apply Quiet_refl | discriminate].
  - rewrite pages_loop_step. cbv zeta.
    set (w1 := round_done i (name manga) c p w).
    set (r := advance p _).
    assert (Hr1 : rounds w1 = S (rounds w)) by reflexivity.
    destruct (over_budget clock (rounds w1)) eqn:Hover.
    + intros [= <- <-].
      assert (Hr2 : rounds (put (JSON.stringify_triple i c (fst r)) w1)
                    = S (rounds w)) by reflexivity.
      split; [|split; [discriminate|split; [|split]]].
      * unfold Budgeted. rewrite Hr2.
        split; [lia|]. split; [intros k Hk; lia|]. split.
        -- intros _. split; [lia | exact Hover].
        -- intros Hne. now elim Hne.
      * intros _. exists w, i, (name manga), c, p.
        split; [apply Quiet_refl | reflexivity].
      * intros Hne. now elim Hne.
      * discriminate.
    + assert (Hb1 : Budgeted clock w Continue w1).
      { unfold Budgeted. rewrite Hr1.
        split; [lia|]. split; [intros k Hk; lia|]. split.
        - discriminate.
        - intros _ _. exact Hover. }
      destruct (snd r).
      * intros [= <- <-]. split; [exact Hb1|].
        split; [discriminate|]. split; [discriminate|].
        split; [intros _; apply Quiet_round | intros _; lia].
      * intros H. apply IH in H as (Hb & Ht & Hh & Hq & Hc).
        split; [now apply Budgeted_trans with w1|].
        split; [assumption|]. split; [|split].
        -- intros Hs. apply HaltedAt_after with w1; [apply Quiet_round | auto].
        -- intros Hs. apply Quiet_trans with w1; [apply Quiet_round | auto].
        -- intros Hs. specialize (Hc Hs). lia.
Qed.

Lemma Ran_refl (w : World) (sig : Signal) : sig <> Halted -> Ran net clock w sig w.
Proof.
  intros Hs. split; [now apply Budgeted_refl|].
  split; [congruence | intros _; apply Quiet_refl].
Qed.

Lemma Ran_trans (w w1 w2 : World) (sig : Signal) :
  Ran net clock w Continue w1 -> Ran net clock w1 sig w2 -> Ran net clock w sig w2.
Proof.
  intros (Hb1 & _ & Hq1) (Hb2 & Hh2 & Hq2).
  assert (Hq : Quiet w w1) by (apply Hq1; discriminate).
  split; [now apply Budgeted_trans with w1|]. split.
  - intros Hs. apply HaltedAt_after with w1; auto.
  - intros Hs. apply Quiet_trans with w1; auto.
Qed.

Lemma pages_loop_ran (fuel : nat) (i : Z) (manga : Manga) (c p : Z)
    (w w' : World) (sig : Signal) :
  pages_loop net clock fuel i manga c p w = (sig, w') ->
  Ran net clock w sig w' /\ sig <> Threw.
Proof.
  intros H. apply pages_loop_run in H as (Hb & Ht & Hh & Hq & _).
  split; [|assumption]. split; [assumption|]. split; assumption.
Qed.

Lemma chapters_loop_ran (n fuel : nat) (i : Z) (manga : Manga) (c : Z)
    (state state' : State) (w w' : World) (sig : Signal) :
  chapters_loop net clock n fuel i manga c state w = (sig, state', w') ->
  Ran net clock w sig w' /\ sig <> Threw /\ mIdx state' = mIdx state.
Proof.
  revert c state w; induction n as [|n IH]; intros c state w; cbn [chapters_loop];
    (destruct (c <=? chapters manga);
     [|intros [= <- <- <-];
       split; [apply Ran_refl; discriminate|];
       split; [discriminate | reflexivity]]).
  - intros [= <- <- <-].
    split; [apply Ran_refl; discriminate|]. split; [discriminate | reflexivity].
  - destruct (pages_loop net clock fuel i manga c _ w) as [sig1 w1] eqn:Hp.
    apply pages_loop_ran in Hp as [Hr1 Ht1].
    destruct sig1.
    + intros H. apply IH in H as (Hr & Ht & Hm).
      split; [now apply Ran_trans with w1|]. split; assumption.
    + intros [= <- <- <-]. split; [exact Hr1|]. split; [discriminate | reflexivity].
    + congruence.
    + intros [= <- <- <-]. split; [exact Hr1|]. split; [discriminate | reflexivity].
Qed.

Lemma item_in_range (mangaList : list Manga) (i : Z) :
  0 <= i < Z.of_nat (List.length mangaList) ->
  exists manga, item mangaList i = Some manga.
Proof.
  intros H. unfold item.
  destruct (Z.ltb_spec i 0); [lia|].
  destruct (nth_error mangaList (Z.to_nat i)) eqn:E; [eauto|].
  apply nth_error_None in E. lia.
Qed.

Lemma mangas_loop_ran (n fuel : nat) (mangaList : list Manga) (i : Z)
    (state state' : State) (w w' : World) (sig : Signal) :
  mangas_loop net clock n fuel mangaList i state w = (sig, state', w') ->
  Ran net clock w sig w' /\ (sig = Threw -> i < 0).
Proof.
  revert i state w; induction n as [|n IH]; intros i state w; cbn [mangas_loop].
  - intros [= <- <- <-]. split; [apply Ran_refl|]; discriminate.
  - destruct (Z.ltb_spec i (Z.of_nat (List.length mangaList))) as [Hlt|Hge].
    2:{ intros [= <- <- <-]. split; [apply Ran_refl|]; discriminate. }
    destruct (item mangaList i) as [manga|] eqn:Hitem.
    2:{ intros [= <- <- <-]. split; [apply Ran_refl; discriminate|].
        intros _. destruct (Z.ltb_spec i 0) as [|Hpos]; [assumption|].
        destruct (item_in_range mangaList i) as [m Hm]; [lia | congruence]. }
    destruct (chapters_loop net clock _ fuel i manga _ state w)
      as [[sig1 state1] w1] eqn:Hc.
    apply chapters_loop_ran in Hc as (Hr1 & Ht1 & _).
    destruct sig1.
    + intros H. apply IH in H as (Hr & Ht).
      split; [now apply Ran_trans with w1|].
      intros Hs. specialize (Ht Hs).
      unfold item in Hitem. destruct (Z.ltb_spec i 0); [assumption | lia].
    + intros [= <- <- <-]. split; [exact Hr1 | discriminate].
    + congruence.
    + intros [= <- <- <-]. split; [exact Hr1 | discriminate].
Qed.

(** The traversal as a whole: its result is that of the catalog loop,
    and the reset of the checkpoint follows a quiet run. *)
Lemma traverse_ran (fuel : nat) (mangaList : list Manga) (state : State)
    (w w' : World) (r : Result) :
  traverse net clock fuel mangaList state w = (r, w') ->
  exists sig w1,
    r = result_of sig /\
    Ran net clock w sig w1 /\
    (sig = Threw -> mIdx state < 0) /\
    w' = match sig with
         | Continue => put (JSON.stringify_triple 0 1 0) w1
         | _ => w1
         end.
Proof.
  unfold traverse.
  destruct (mangas_loop net clock _ fuel mangaList (mIdx state) state w)
    as [[sig state1] w1] eqn:Hm.
  apply mangas_loop_ran in Hm as [Hr Ht].
  intros H. exists sig, w1.
  destruct sig; injection H as <- <-;
    (split; [reflexivity|]; split; [exact Hr|]; split; [exact Ht | reflexivity]).
Qed.

(** ** The batch round *)

Lemma indexOf_false_none (results : list bool) (from : Z) :
  forallb (fun r => r) results = true -> indexOf_false results from = -1.
Proof.
  revert from; induction results as [|r rest IH]; intros from; simpl.
  - reflexivity.
  - destruct r; [apply IH | discriminate].
Qed.

Lemma indexOf_false_first (results : list bool) (k : nat) (from : Z) :
  first_failure results k -> indexOf_false results from = from + Z.of_nat k.
Proof.
  revert k from; induction results as [|r rest IH]; intros k from [Hk Hbefore].
  - destruct k; discriminate.
  - destruct k as [|k]; simpl in *.
    + injection Hk as ->. lia.
    + pose proof (Hbefore O ltac:(lia)) as H0. simpl in H0. injection H0 as ->.
      rewrite (IH k (from + 1)); [lia|].
      split; [assumption|].
      intros j Hj. apply (Hbefore (S j)). lia.
Qed.

Lemma indexOf_false_cases (results : list bool) (from : Z) :
  (forallb (fun r => r) results = true /\ indexOf_false results from = -1)
  \/ exists k, (k < List.length results)%nat /\ first_failure results k /\
               indexOf_false results from = from + Z.of_nat k.
Proof.
  revert from; induction results as [|r rest IH]; intros from; simpl.
  - now left.
  - destruct r.
    + destruct (IH (from + 1)) as [[Hall Hi] | (k & Hk & Hf & Hi)].
      * now left.
      * right. exists (S k). split; [lia|]. split.
        -- destruct Hf as [Hf1 Hf2]. split; [exact Hf1|].
           intros [|j] Hj; [reflexivity | apply Hf2; lia].
        -- rewrite Hi. lia.
    + right. exists O. split; [lia|]. split; [|lia].
      split; [reflexivity | intros j Hj; lia].
Qed.

Lemma advance_all (p : Z) (results : list bool) :
  forallb (fun r => r) results = true ->
  advance p results = (JS.add p BATCH_SIZE, false).
Proof.
  intros H. unfold advance. now rewrite (indexOf_false_none _ _ H).
Qed.

Lemma advance_first (p : Z) (results : list bool) (k : nat) :
  first_failure results k -> advance p results = (JS.add p (Z.of_nat k), true).
Proof.
  intros H. unfold advance. rewrite (indexOf_false_first _ _ 0 H).
  destruct (Z.eqb_spec (0 + Z.of_nat k) (-1)); [lia|].
  simpl. do 2 f_equal; lia.
Qed.

Lemma batch_length (round : nat) (mangaName : string) (c p : Z) :
  List.length (batch net round mangaName c p) = 5%nat.
Proof. reflexivity. Qed.

(** The offset after a round: a full batch further, or at the first
    failure within the batch. *)
Lemma advance_batch (round : nat) (mangaName : string) (c p : Z) :
  let r := advance p (batch net round mangaName c p) in
  (fst r = JS.add p BATCH_SIZE /\ snd r = false)
  \/ exists k, 0 <= k < BATCH_SIZE /\ fst r = JS.add p k /\ snd r = true.
Proof.
  cbv zeta.
  destruct (indexOf_false_cases (batch net round mangaName c p) 0)
    as [[Hall _] | (k & Hk & Hf & _)].
  - left. now rewrite (advance_all _ _ Hall).
  - right. exists (Z.of_nat k). rewrite (advance_first _ _ _ Hf).
    rewrite batch_length in Hk. unfold BATCH_SIZE. repeat split; simpl; lia.
Qed.

(** Below [2^53] the pages of a round are consecutive. *)
Lemma batch_exact (round : nat) (mangaName : string) (c p : Z) :
  - 2 ^ 53 <= p -> p + BATCH_SIZE <= 2 ^ 53 ->
  batch net round mangaName c p
  = map (fun b => warmUpPage net round mangaName c (p + b)) [0; 1; 2; 3; 4].
Proof.
  intros Hl Hu. unfold batch, BATCH_SIZE in *. change offsets with [0; 1; 2; 3; 4].
  cbn [map]. rewrite !add_exact by lia. reflexivity.
Qed.

Lemma batch_events_exact (i : Z) (mangaName : string) (c p : Z) :
  - 2 ^ 53 <= p -> p + BATCH_SIZE <= 2 ^ 53 ->
  batch_events i mangaName c p
  = map (fun b => Warm i mangaName c (p + b)) [0; 1; 2; 3; 4].
Proof.
  intros Hl Hu. unfold batch_events, BATCH_SIZE in *.
  change offsets with [0; 1; 2; 3; 4].
  cbn [map]. rewrite !add_exact by lia. reflexivity.
Qed.

(** C2 (as amended).  A round at a page offset [p] with
    [-2^53 <= p] and [p + BATCH_SIZE <= 2^53] issues exactly BATCH_SIZE
    warm-ups, for the pages [p .. p + BATCH_SIZE - 1] in this order.
    When all succeed the offset becomes [p + BATCH_SIZE] and, the time
    budget permitting, the loop goes on in the same chapter.  Otherwise,
    [k] being the first page that failed, the offset becomes [p + k],
    the loop over the pages ends, and the next chapter, [c + 1] for a
    chapter below [2^53], is entered at page offset 0. *)
Theorem C2_batch_reduction (fuel : nat) (i : Z) (manga : Manga) (c p : Z)
    (w : World) :
  - 2 ^ 53 <= p -> p + BATCH_SIZE <= 2 ^ 53 ->
  let results := batch net (rounds w) (name manga) c p in
  let w1 := round_done i (name manga) c p w in
  results = map (fun b => warmUpPage net (rounds w) (name manga) c (p + b))
                [0; 1; 2; 3; 4]
  /\ log w1 = log w ++ map (fun b => Warm i (name manga) c (p + b)) [0; 1; 2; 3; 4]
  /\ Z.of_nat (List.length results) = BATCH_SIZE
  /\ (forallb (fun r => r) results = true ->
        advance p results = (p + BATCH_SIZE, false)
        /\ (over_budget clock (rounds w1) = false ->
              pages_loop net clock (S fuel) i manga c p w
              = pages_loop net clock fuel i manga c (p + BATCH_SIZE) w1))
  /\ (forall k, first_failure results k ->
        advance p results = (p + Z.of_nat k, true)
        /\ (over_budget clock (rounds w1) = false ->
              pages_loop net clock (S fuel) i manga c p w = (Continue, w1)))
  /\ (forall n state w2,
        c <= chapters manga ->
        pages_loop net clock fuel i manga c (entry_page state i c) w
          = (Continue, w2) ->
        chapters_loop net clock (S n) fuel i manga c state w
          = chapters_loop net clock n fuel i manga (JS.add c 1)
              (set_pIdx state 0) w2
        /\ entry_page (set_pIdx state 0) i (JS.add c 1) = 0
        /\ (Z.abs c < 2 ^ 53 -> JS.add c 1 = c + 1)).
Proof.
  intros Hl Hu. cbv zeta.
  assert (Hfull : JS.add p BATCH_SIZE = p + BATCH_SIZE)
    by (apply add_exact; unfold BATCH_SIZE in *; lia).
  split; [now apply batch_exact|].
  split; [cbn [round_done log]; now rewrite batch_events_exact|].
  split; [reflexivity|].
  split; [|split].
  - intros Hall. rewrite <- Hfull. split; [now apply advance_all|].
    intros Hover. rewrite pages_loop_step. cbv zeta.
    rewrite Hover, (advance_all _ _ Hall). reflexivity.
  - intros k Hk.
    assert (Hlt : (k < 5)%nat).
    { destruct Hk as [Hk _]. rewrite <- (batch_length (rounds w) (name manga) c p).
      apply nth_error_Some. congruence. }
    assert (Hpart : JS.add p (Z.of_nat k) = p + Z.of_nat k)
      by (apply add_exact; unfold BATCH_SIZE in *; lia).
    rewrite <- Hpart. split; [now apply advance_first|].
    intros Hover. rewrite pages_loop_step. cbv zeta.
    rewrite Hover, (advance_first _ _ _ Hk). reflexivity.
  - intros n state w2 Hc Hp. split; [|split].
    + cbn [chapters_loop].
      destruct (Z.leb_spec c (chapters manga)); [|lia].
      now rewrite Hp.
    + unfold entry_page, set_pIdx; simpl. now destruct (_ && _).
    + intros Hs. apply add_exact. lia.
Qed.

(** ** The time budget and the reset of the checkpoint *)


(** C7.  An invocation that completes has reset the stored checkpoint to
    exactly [{mIdx: 0, cIdx: 1, pIdx: 0}], after warming only, so that the
    next run loads [(0, 1, 0)].  An invocation from a checkpoint with
    [mIdx >= 0] that ends without any clock reading over the budget
    completes. *)
Theorem C7_full_pass_reset (fuel : nat) (mangaList : list Manga) (state : State)
    (w w' : World) (r : Result) :
  traverse net clock fuel mangaList state w = (r, w') ->
  (r = Completed ->
     kv w' = Some (JSON.stringify_triple 0 1 0)
     /\ as_state (load_state (kv w')) = Some (mkState 0 1 0)
     /\ exists w1, Quiet w w1 /\ w' = put (JSON.stringify_triple 0 1 0) w1)
  /\ (0 <= mIdx state -> r <> Unfinished ->
      (forall k, (rounds w < k <= rounds w')%nat -> over_budget clock k = false) ->
      r = Completed).
Proof.
  intros H. apply traverse_ran in H as (sig & w1 & -> & (Hb & Hh & Hq) & Ht & ->).
  split.
  - intros Hr. assert (Hs : sig = Continue) by (now destruct sig). subst sig.
    split; [reflexivity|]. split; [reflexivity|].
    exists w1. split; [apply Hq; discriminate | reflexivity].
  - intros Hm Hfuel Hclock. destruct sig; try reflexivity.
    + destruct Hb as (_ & _ & Hhalt & _). destruct (Hhalt eq_refl) as [Hlt Hover].
      rewrite Hclock in Hover by lia. discriminate.
    + specialize (Ht eq_refl). lia.
    + now elim Hfuel.
Qed.

(** ** The order of the warm-ups *)

Lemma positions_app (a b : list Event) :
  positions (a ++ b) = positions a ++ positions b.
Proof.
  induction a as [|[i nm c pg | text] a IH]; simpl; rewrite ?IH; reflexivity.
Qed.

Lemma positions_batch (i : Z) (mangaName : string) (c p : Z) :
  positions (batch_events i mangaName c p)
  = (i, c, JS.add p 0)
    :: [(i, c, JS.add p 1); (i, c, JS.add p 2); (i, c, JS.add p 3);
        (i, c, JS.add p 4)].
Proof. reflexivity. Qed.

Lemma last_of_app (x e : Pos) (l r : list Pos) :
  last_of x (l ++ e :: r) = last_of e r.
Proof. revert x; induction l as [|y l IH]; intros x; simpl; auto. Qed.

Lemma last_of_in (x : Pos) (l : list Pos) : In (last_of x l) (x :: l).
Proof.
  revert x; induction l as [|y l IH]; intros x; simpl; [now left|].
  right. apply IH.
Qed.

Lemma chain_extend (x e : Pos) (l r : list Pos) :
  chain x l -> next_ok (last_of x l) e -> chain e r -> chain x (l ++ e :: r).
Proof.
  revert x; induction l as [|y l IH]; intros x; simpl.
  - auto.
  - intros [Hxy Hc] Hn Hr. split; [assumption|]. now apply IH.
Qed.

Lemma chain_split (x e : Pos) (l r : list Pos) :
  chain x (l ++ e :: r) -> next_ok (last_of x l) e.
Proof.
  revert x; induction l as [|y l IH]; intros x; simpl.
  - now intros [H _].
  - intros [_ H]. now apply IH.
Qed.

Lemma ordered_extend (st : State) (l : list Pos) (e : Pos) (r : list Pos) :
  ordered st l -> ready st l e -> chain e r -> ordered st (l ++ e :: r).
Proof.
  destruct l as [|x l]; simpl.
  - auto.
  - intros [Hx Hc] Hn Hr. split; [assumption|]. now apply chain_extend.
Qed.

Lemma ordered_split (st : State) (pre : list Pos) (e : Pos) (post : list Pos) :
  ordered st (pre ++ e :: post) -> ready st pre e.
Proof.
  destruct pre as [|x l]; simpl.
  - now intros [H _].
  - intros [_ H]. now apply chain_split in H.
Qed.

Lemma ready_extended (st : State) (l : list Pos) (e : Pos) (r : list Pos) (e' : Pos) :
  ready st (l ++ e :: r) e' <-> next_ok (last_of e r) e'.
Proof.
  destruct l as [|x l]; simpl; [reflexivity|].
  now rewrite last_of_app.
Qed.

(** Where [c++] advances the resumed chapter. *)
Lemma add_one_advances (c : Z) : Z.abs c < 2 ^ 53 -> JS.add c 1 = c + 1.
Proof. intros H. apply add_exact. lia. Qed.

Lemma next_ok_after (st : State) (e1 e2 : Pos) :
  at_or_after st e1 -> next_ok e1 e2 -> at_or_after st e2.
Proof.
  destruct e1 as [[i1 c1] p1], e2 as [[i2 c2] p2]; simpl.
  intros (Hi & Hc & Hp)
         [(-> & -> & Hle) | [(-> & Hle & Hc2 & ->) | (Hlt & -> & ->)]].
  - split; [exact Hi|]. split; [exact Hc|]. intros E1 E2 Hs.
    specialize (Hp E1 E2 Hs). lia.
  - split; [exact Hi|]. split; [intros E; specialize (Hc E); lia|].
    intros E1 E2 Hs. exfalso. specialize (Hc E1).
    assert (c1 = cIdx st) by lia. subst c1.
    rewrite (add_one_advances _ Hs) in Hc2. lia.
  - split; [lia|]. split; intros; lia.
Qed.

Lemma chain_after (st : State) (e : Pos) (l : list Pos) :
  at_or_after st e -> chain e l -> Forall (at_or_after st) l.
Proof.
  revert e; induction l as [|y l IH]; intros e He; simpl.
  - constructor.
  - intros [Hn Hc]. pose proof (next_ok_after _ _ _ He Hn).
    constructor; [assumption|]. now apply IH with y.
Qed.

Lemma ordered_after (st : State) (l : list Pos) :
  ordered st l -> Forall (at_or_after st) l.
Proof.
  destruct l as [|e l]; simpl; [constructor|].
  intros [Hf Hc].
  assert (He : at_or_after st e).
  { destruct e as [[i c] p]. simpl in *.
    destruct Hf as [(-> & -> & ->) | (Hi & -> & ->)]; repeat split; lia. }
  constructor; [assumption|]. now apply chain_after with e.
Qed.

(** A round appended to an ordered trace that is ready for its first
    page. *)
Lemma ordered_round (st : State) (l : list Pos) (i : Z) (mangaName : string)
    (c p : Z) :
  JS.round53 p = p ->
  ordered st l -> ready st l (i, c, p) ->
  ordered st (l ++ positions (batch_events i mangaName c p))
  /\ forall e', ready st (l ++ positions (batch_events i mangaName c p)) e'
                <-> next_ok (i, c, JS.add p 4) e'.
Proof.
  intros Hp Ho Hr. rewrite positions_batch, (add_zero p Hp). split.
  - apply ordered_extend; [assumption | assumption|]. simpl.
    pose proof (add_le p 1 Hp ltac:(lia)).
    pose proof (add_mono p 1 2 ltac:(lia)).
    pose proof (add_mono p 2 3 ltac:(lia)).
    pose proof (add_mono p 3 4 ltac:(lia)).
    repeat split; left; repeat split; assumption.
  - intros e'. now rewrite ready_extended.
Qed.

Lemma Forall_manga_batch (i : Z) (mangaName : string) (c p : Z) :
  Forall (fun e => manga_of e = i) (positions (batch_events i mangaName c p)).
Proof. rewrite positions_batch. repeat constructor. Qed.

Lemma pages_loop_ordered (st : State) (fuel : nat) (i : Z) (manga : Manga)
    (c p : Z) (w w' : World) (sig : Signal) :
  JS.round53 p = p ->
  pages_loop net clock fuel i manga c p w = (sig, w') ->
  ordered st (positions (log w)) ->
  ready st (positions (log w)) (i, c, p) ->
  ordered st (positions (log w'))
  /\ (exists new, positions (log w') = positions (log w) ++ new
                  /\ Forall (fun e => manga_of e = i) new)
  /\ (sig = Continue ->
      exists page, forall e', ready st (positions (log w')) e'
                              <-> next_ok (i, c, page) e').
Proof.
  revert p w; induction fuel as [|fuel IH]; intros p w Hp.
  - intros [= <- <-] Ho Hr. split; [assumption|]. split; [|discriminate].
    exists []. now rewrite app_nil_r.
  - rewrite pages_loop_step. cbv zeta. intros H Ho Hr.
    set (w1 := round_done i (name manga) c p w) in *.
    assert (Hl1 : positions (log w1)
                  = positions (log w) ++ positions (batch_events i (name manga) c p))
      by (unfold w1; simpl; apply positions_app).
    destruct (ordered_round st _ i (name manga) c p Hp Ho Hr) as [Ho1 Hr1].
    rewrite <- Hl1 in Ho1, Hr1.
    assert (Hnew1 : exists new, positions (log w1) = positions (log w) ++ new
                                /\ Forall (fun e => manga_of e = i) new).
    { eexists. split; [exact Hl1 | apply Forall_manga_batch]. }
    destruct (over_budget clock (rounds w1)).
    { injection H as <- <-. simpl. rewrite positions_app, app_nil_r.
      split; [assumption|]. split; [assumption | discriminate]. }
    destruct (advance_batch (rounds w) (name manga) c p)
      as [[Hp' Hfin] | (k & _ & _ & Hfin)]; rewrite Hfin in H.
    + apply IH in H;
        [| rewrite Hp'; apply add_round
         | assumption
         | apply Hr1; rewrite Hp'; left; repeat split;
           apply add_mono; unfold BATCH_SIZE; lia].
      destruct H as (Ho' & (new & Hl' & Hn') & Hc'). split; [assumption|].
      split; [|assumption].
      destruct Hnew1 as (new1 & Hl1' & Hn1).
      exists (new1 ++ new). split.
      * now rewrite Hl', Hl1', app_assoc.
      * now apply Forall_app.
    + injection H as <- <-. split; [assumption|]. split; [assumption|].
      intros _. now exists (JS.add p 4).
Qed.

(** The checkpoint in memory after the loop over the chapters of a
    manga: as before, or with [pIdx] reset. *)
Lemma chapters_loop_state (n fuel : nat) (i : Z) (manga : Manga) (c : Z)
    (state state' : State) (w w' : World) (sig : Signal) :
  chapters_loop net clock n fuel i manga c state w = (sig, state', w') ->
  state' = state \/ state' = set_pIdx state 0.
Proof.
  revert c state w; induction n as [|n IH]; intros c state w; cbn [chapters_loop];
    (destruct (c <=? chapters manga); [|intros [= <- <- <-]; now left]).
  - intros [= <- <- <-]. now left.
  - destruct (pages_loop net clock fuel i manga c _ w) as [sig1 w1].
    destruct sig1; try (intros [= <- <- <-]; now left).
    intros H. apply IH in H as [-> | ->]; right; reflexivity.
Qed.

Lemma entry_page_reset (state : State) (i c : Z) :
  entry_page (set_pIdx state 0) i c = 0.
Proof. unfold entry_page, set_pIdx; simpl. now destruct (_ && _). Qed.

Lemma chapters_loop_ordered (st : State) (n fuel : nat) (i : Z) (manga : Manga)
    (c : Z) (state state' : State) (w w' : World) (sig : Signal) :
  JS.round53 c = c -> JS.round53 (pIdx state) = pIdx state ->
  chapters_loop net clock n fuel i manga c state w = (sig, state', w') ->
  ordered st (positions (log w)) ->
  ready st (positions (log w)) (i, c, entry_page state i c) ->
  ordered st (positions (log w'))
  /\ exists new, positions (log w') = positions (log w) ++ new
                 /\ Forall (fun e => manga_of e = i) new.
Proof.
  revert c state w; induction n as [|n IH]; intros c state w Hc Hps;
    cbn [chapters_loop];
    (destruct (c <=? chapters manga);
     [|intros [= <- <- <-] Ho _; split; [assumption|];
       exists []; now rewrite app_nil_r]).
  - intros [= <- <- <-] Ho _. split; [assumption|].
    exists []. now rewrite app_nil_r.
  - destruct (pages_loop net clock fuel i manga c _ w) as [sig1 w1] eqn:Hp.
    intros H Ho Hr.
    assert (Hep : JS.round53 (entry_page state i c) = entry_page state i c).
    { unfold entry_page. destruct (_ && _); [exact Hps | reflexivity]. }
    destruct (pages_loop_ordered st _ _ _ _ _ _ _ _ Hep Hp Ho Hr)
      as (Ho1 & (new1 & Hl1 & Hn1) & Hc1).
    destruct sig1; try (injection H as <- <- <-; split; [assumption | eauto]).
    destruct (Hc1 eq_refl) as [page Hready].
    apply IH in H; [| apply add_round | reflexivity | assumption |].
    + destruct H as (Ho' & new & Hl' & Hn'). split; [assumption|].
      exists (new1 ++ new). split.
      * now rewrite Hl', Hl1, app_assoc.
      * now apply Forall_app.
    + apply Hready. rewrite entry_page_reset.
      right; left. repeat split. now apply add_le.
Qed.

Lemma mangas_loop_ordered (st : State) (n fuel : nat) (mangaList : list Manga)
    (i : Z) (state state' : State) (w w' : World) (sig : Signal) :
  JS.round53 (cIdx st) = cIdx st ->
  JS.round53 (pIdx state) = pIdx state ->
  mangas_loop net clock n fuel mangaList i state w = (sig, state', w') ->
  ordered st (positions (log w)) ->
  Forall (fun e => manga_of e < i) (positions (log w)) ->
  mIdx st <= i -> mIdx state = mIdx st ->
  (i = mIdx st -> state = st /\ positions (log w) = []) ->
  ordered st (positions (log w')).
Proof.
  intros Hcs.
  revert i state w; induction n as [|n IH]; intros i state w Hps;
    cbn [mangas_loop].
  - now intros [= <- <- <-].
  - destruct (i <? Z.of_nat (List.length mangaList)); [|now intros [= <- <- <-]].
    destruct (item mangaList i) as [manga|]; [|now intros [= <- <- <-]].
    destruct (chapters_loop net clock _ fuel i manga _ state w)
      as [[sig1 state1] w1] eqn:Hc.
    intros H Ho Hlt Hi Hm Hfirst.
    assert (Hr : ready st (positions (log w))
                   (i, entry_chapter state i,
                    entry_page state i (entry_chapter state i))).
    { unfold entry_chapter, entry_page. rewrite Hm.
      destruct (Z.eqb_spec i (mIdx st)) as [E|E].
      - destruct (Hfirst E) as [-> ->]. rewrite Z.eqb_refl. simpl. now left.
      - simpl. destruct (positions (log w)) as [|x l] eqn:El; simpl.
        + right. lia.
        + pose proof (last_of_in x l) as Hin.
          rewrite Forall_forall in Hlt. apply Hlt in Hin.
          destruct (last_of x l) as [[i1 c1] p1]. unfold manga_of in Hin.
          simpl in *. right; right. lia. }
    assert (Hec : JS.round53 (entry_chapter state i) = entry_chapter state i).
    { unfold entry_chapter. rewrite Hm.
      destruct (Z.eqb_spec i (mIdx st)) as [E|E]; [|reflexivity].
      destruct (Hfirst E) as [-> _]. exact Hcs. }
    destruct (chapters_loop_ordered st _ _ _ _ _ _ _ _ _ _ Hec Hps Hc Ho Hr)
      as (Ho1 & new & Hl1 & Hn1).
    pose proof (chapters_loop_state _ _ _ _ _ _ _ _ _ _ Hc) as Hst1.
    apply chapters_loop_ran in Hc as (_ & _ & Hm1).
    destruct sig1; try (now injection H as <- <- <-).
    apply IH in H; try assumption; try lia.
    + destruct Hst1 as [-> | ->]; [exact Hps | reflexivity].
    + rewrite Hl1. apply Forall_app. split.
      * eapply Forall_impl; [|exact Hlt]. simpl. intros; lia.
      * eapply Forall_impl; [|exact Hn1]. simpl. intros; lia.
    + unfold set_cIdx; simpl. congruence.
Qed.

Lemma traverse_ordered (st : State) (fuel : nat) (mangaList : list Manga)
    (w w' : World) (r : Result) :
  JS.round53 (cIdx st) = cIdx st -> JS.round53 (pIdx st) = pIdx st ->
  log w = [] ->
  traverse net clock fuel mangaList st w = (r, w') ->
  ordered st (positions (log w')).
Proof.
  intros Hc Hp Hlog. unfold traverse.
  destruct (mangas_loop net clock _ fuel mangaList (mIdx st) st w)
    as [[sig state1] w1] eqn:Hm.
  assert (Hord : ordered st (positions (log w1))).
  { apply (mangas_loop_ordered st) in Hm; try assumption.
    - rewrite Hlog. exact I.
    - rewrite Hlog. constructor.
    - lia.
    - reflexivity.
    - intros _. split; [reflexivity|]. now rewrite Hlog. }
  destruct sig; intros [= <- <-]; try assumption.
  simpl. now rewrite positions_app, app_nil_r.
Qed.

(** *** Where the warming begins *)

Lemma Ran_extends (w w' : World) (sig : Signal) :
  Ran net clock w sig w' -> exists ext, log w' = log w ++ ext.
Proof.
  intros (_ & Hh & Hq). destruct sig;
    try (destruct Hq as (_ & _ & ws & -> & _); [discriminate | eauto]).
  destruct (Hh eq_refl) as (w1 & i & nm & c & p & (_ & _ & ws & Hl & _) & ->).
  simpl. rewrite Hl. eexists. now rewrite <- !app_assoc.
Qed.

Lemma pages_loop_begins (fuel : nat) (i : Z) (manga : Manga) (c p : Z)
    (w w' : World) (sig : Signal) :
  pages_loop net clock (S fuel) i manga c p w = (sig, w') ->
  exists ext, log w' = log w ++ batch_events i (name manga) c p ++ ext.
Proof.
  rewrite pages_loop_step. cbv zeta.
  destruct (over_budget clock _).
  { intros [= <- <-]. eexists. cbn [put round_done log]. now rewrite <- app_assoc. }
  destruct (snd (advance p _)).
  { intros [= <- <-]. exists []. rewrite app_nil_r. reflexivity. }
  intros H. apply pages_loop_ran in H as [Hr _].
  apply Ran_extends in Hr as [ext ->]. cbn [round_done log].
  exists ext. now rewrite <- app_assoc.
Qed.

Lemma chapters_loop_begins (n fuel : nat) (i : Z) (manga : Manga) (c : Z)
    (state state' : State) (w w' : World) (sig : Signal) :
  c <= chapters manga ->
  chapters_loop net clock (S n) (S fuel) i manga c state w = (sig, state', w') ->
  exists ext,
    log w' = log w ++ batch_events i (name manga) c (entry_page state i c) ++ ext.
Proof.
  intros Hc. cbn [chapters_loop].
  destruct (Z.leb_spec c (chapters manga)) as [_|Hgt]; [|lia].
  destruct (pages_loop net clock (S fuel) i manga c _ w) as [sig1 w1] eqn:Hp.
  apply pages_loop_begins in Hp as [ext1 Hl1].
  destruct sig1; try (intros [= <- <- <-]; eauto).
  intros H. apply chapters_loop_ran in H as (Hr & _).
  apply Ran_extends in Hr as [ext ->]. rewrite Hl1.
  exists (ext1 ++ ext). now rewrite <- !app_assoc.
Qed.

Lemma item_some_range (mangaList : list Manga) (i : Z) (manga : Manga) :
  item mangaList i = Some manga -> 0 <= i < Z.of_nat (List.length mangaList).
Proof.
  unfold item. destruct (Z.ltb_spec i 0) as [Hneg|Hpos]; [discriminate|].
  intros H. assert (Hn : nth_error mangaList (Z.to_nat i) <> None) by congruence.
  apply nth_error_Some in Hn. lia.
Qed.

Lemma traverse_begins (fuel : nat) (mangaList : list Manga) (st : State)
    (manga : Manga) (w w' : World) (r : Result) :
  item mangaList (mIdx st) = Some manga ->
  cIdx st <= chapters manga ->
  traverse net clock (S fuel) mangaList st w = (r, w') ->
  exists ext,
    log w' = log w ++ batch_events (mIdx st) (name manga) (cIdx st) (pIdx st) ++ ext.
Proof.
  intros Hitem Hc. pose proof (item_some_range _ _ _ Hitem) as Hrange.
  unfold traverse, mangas_left.
  destruct (Z.to_nat (Z.of_nat (List.length mangaList) - mIdx st)) as [|n] eqn:En;
    [lia|].
  cbn [mangas_loop].
  destruct (Z.ltb_spec (mIdx st) (Z.of_nat (List.length mangaList))) as [_|Hge];
    [|lia].
  rewrite Hitem.
  assert (Hec : entry_chapter st (mIdx st) = cIdx st)
    by (unfold entry_chapter; now rewrite Z.eqb_refl).
  assert (Hep : entry_page st (mIdx st) (cIdx st) = pIdx st)
    by (unfold entry_page; now rewrite !Z.eqb_refl).
  rewrite Hec. unfold chapters_left.
  destruct (Z.to_nat (chapters manga - cIdx st + 1)) as [|n'] eqn:En'; [lia|].
  destruct (chapters_loop net clock (S n') (S fuel) (mIdx st) manga (cIdx st) st w)
    as [[sig1 state1] w1] eqn:Hch.
  apply chapters_loop_begins in Hch as [ext1 Hl1]; [|assumption].
  rewrite Hep in Hl1.
  destruct sig1; try (intros [= <- <-]; eauto).
  destruct (mangas_loop net clock n (S fuel) mangaList (mIdx st + 1) _ w1)
    as [[sig2 state2] w2] eqn:Hm.
  apply mangas_loop_ran in Hm as [Hr _].
  apply Ran_extends in Hr as [ext2 Hl2].
  intros H.
  assert (Hw' : exists ext3, log w' = log w2 ++ ext3).
  { destruct sig2; injection H as <- <-; simpl; eauto;
      exists []; now rewrite app_nil_r. }
  destruct Hw' as [ext3 ->]. rewrite Hl2, Hl1.
  exists (ext1 ++ ext2 ++ ext3). now rewrite <- !app_assoc.
Qed.

(** C1 (as amended).  An invocation that starts from a checkpoint
    [(mIdx, cIdx, pIdx)] of numbers begins with the warm-up of page
    [pIdx] of chapter [cIdx] of manga [mIdx] when the catalog has an
    entry at [mIdx] with at least [cIdx] chapters; in every case its
    first warm-up is that one or page 0 of chapter 1 of a later manga.
    No page is warmed of a manga before [mIdx], nor of a chapter of manga
    [mIdx] below [cIdx], nor, when [cIdx] is below [2^53] in magnitude,
    of a page of that chapter below [pIdx].  The first chapter warmed of
    any other manga is chapter 1, and the first page warmed of any other
    chapter is page 0. *)
Theorem C1_resume_correctness (fuel : nat) (mangaList : list Manga) (st : State)
    (w w' : World) (r : Result) :
  is_checkpoint st ->
  log w = [] ->
  traverse net clock fuel mangaList st w = (r, w') ->
  (forall manga, (0 < fuel)%nat ->
      item mangaList (mIdx st) = Some manga -> cIdx st <= chapters manga ->
      exists rest,
        log w' = Warm (mIdx st) (name manga) (cIdx st) (pIdx st) :: rest)
  /\ (forall i c page rest, positions (log w') = (i, c, page) :: rest ->
        (i = mIdx st /\ c = cIdx st /\ page = pIdx st)
        \/ (mIdx st < i /\ c = 1 /\ page = 0))
  /\ (forall i c page, In (i, c, page) (positions (log w')) ->
        mIdx st <= i
        /\ (i = mIdx st -> cIdx st <= c)
        /\ (i = mIdx st -> c = cIdx st -> Z.abs (cIdx st) < 2 ^ 53 ->
            pIdx st <= page))
  /\ (forall pre i c page post,
        positions (log w') = pre ++ (i, c, page) :: post ->
        ((forall c' page', ~ In (i, c', page') pre) ->
           c = if i =? mIdx st then cIdx st else 1)
        /\ ((forall page', ~ In (i, c, page') pre) ->
              page = if (i =? mIdx st) && (c =? cIdx st) then pIdx st else 0)).
Proof.
  intros (_ & [Hcs _] & [Hps _]) Hlog Hrun.
  pose proof (traverse_ordered st _ _ _ _ _ Hcs Hps Hlog Hrun) as Hord.
  pose proof (ordered_after _ _ Hord) as Hlow. rewrite Forall_forall in Hlow.
  split; [|split; [|split]].
  - intros manga Hfuel Hitem Hc. destruct fuel as [|fuel]; [lia|].
    destruct (traverse_begins _ _ _ _ _ _ _ Hitem Hc Hrun) as [ext Hl].
    rewrite Hlog in Hl. simpl in Hl. rewrite (add_zero _ Hps) in Hl. eauto.
  - intros i c page rest E. rewrite E in Hord. exact (proj1 Hord).
  - intros i c page Hin. exact (Hlow _ Hin).
  - intros pre i c page post Hsplit.
    rewrite Hsplit in Hord. pose proof (ordered_split _ _ _ _ Hord) as Hr.
    assert (Hpre : forall e, In e pre -> at_or_after st e).
    { intros e He. apply Hlow. rewrite Hsplit. apply in_or_app. now left. }
    destruct pre as [|x l]; simpl in Hr.
    + split; intros _; destruct Hr as [(-> & -> & ->) | (Hi & -> & ->)].
      * now rewrite Z.eqb_refl.
      * destruct (Z.eqb_spec i (mIdx st)); [lia | reflexivity].
      * now rewrite !Z.eqb_refl.
      * destruct (Z.eqb_spec i (mIdx st)); [lia | reflexivity].
    + pose proof (last_of_in x l) as Hin. pose proof (Hpre _ Hin) as Hle.
      destruct (last_of x l) as [[i1 c1] p1].
      simpl in Hr, Hle. destruct Hle as (Hi1 & Hc1 & _). split; intros Hnone.
      * destruct Hr as [(-> & _) | [(-> & _) | (Hi & -> & _)]];
          try (now elim (Hnone c1 p1)).
        destruct (Z.eqb_spec i (mIdx st)); [lia | reflexivity].
      * destruct Hr as [(-> & -> & _) | [(-> & Hle & Hc2 & ->) | (Hi & -> & ->)]].
        -- now elim (Hnone p1).
        -- destruct (Z.eqb_spec i1 (mIdx st)) as [E1|E1]; [|reflexivity].
           destruct (Z.eqb_spec c (cIdx st)) as [E2|E2]; [|reflexivity].
           exfalso. specialize (Hc1 E1).
           assert (c1 = c) by lia. subst c1. now elim (Hnone p1).
        -- destruct (Z.eqb_spec i (mIdx st)); [lia | reflexivity].
Qed.

End Traversal.

(** ** Sample runs *)

Lemma C1_resume_correctness_witness :
  exists rest,
    log (snd (traverse Demo.net Demo.clock_still 10 Demo.catalog Demo.resumed
                       Demo.fresh))
    = Warm 0 "A" 2 3 :: rest.
Proof.
  destruct (C1_resume_correctness Demo.net Demo.clock_still 10 Demo.catalog
              Demo.resumed Demo.fresh
              (snd (traverse Demo.net Demo.clock_still 10 Demo.catalog
                             Demo.resumed Demo.fresh))
              (fst (traverse Demo.net Demo.clock_still 10 Demo.catalog
                             Demo.resumed Demo.fresh)))
    as (Hbegin & _).
  - split; [|split]; split; vm_compute; reflexivity.
  - reflexivity.
  - vm_compute; reflexivity.
  - apply (Hbegin (mkManga "A" 2)).
    + apply Nat.lt_0_succ.
    + reflexivity.
    + vm_compute; discriminate.
Defined.

(** C1 (as stated) fails.  From the checkpoint [(0, 3, 7)] and a
    catalog whose first manga has two chapters, the first page warmed is
    page 0 of chapter 1 of the second manga: chapter 3 of manga 0 does
    not exist.  From the checkpoint [(0, 2^53, 7)] and a manga of
    [2^53 + 2] chapters, [c++] leaves the chapter at [2^53], and after
    the pages from 7 on the same chapter is entered again at page 0. *)
Lemma C1_resume_counterexample :
  (exists rest,
     log (snd (traverse Sample.net_empty Demo.clock_still 3
                        [mkManga "A" 2; mkManga "B" 1] (mkState 0 3 7)
                        (mkWorld None 0 [])))
     = Warm 1 "B" 1 0 :: rest)
  /\ JS.add (2 ^ 53) 1 = 2 ^ 53
  /\ exists pre post,
       positions (log (snd (traverse Sample.net_empty Demo.clock_still 3
                                     [mkManga "A" (2 ^ 53 + 2)]
                                     (mkState 0 (2 ^ 53) 7) (mkWorld None 0 []))))
       = (0, 2 ^ 53, 7) :: pre ++ (0, 2 ^ 53, 0) :: post.
Proof.
  split; [|split].
  - vm_compute. eexists. reflexivity.
  - reflexivity.
  - vm_compute. eexists (_ :: _ :: _ :: _ :: []). eexists. reflexivity.
Qed.

Lemma C2_batch_reduction_witness :
  batch Demo.net 0 "A" 2 3 = [true; true; false; false; false]
  /\ advance 3 (batch Demo.net 0 "A" 2 3) = (5, true)
  /\ pages_loop Demo.net Demo.clock_still 3 0 (mkManga "A" 2) 2 3 Demo.fresh
     = (Continue, round_done 0 "A" 2 3 Demo.fresh).
Proof.
  assert (Hl : - 2 ^ 53 <= 3) by (vm_compute; discriminate).
  assert (Hu : 3 + BATCH_SIZE <= 2 ^ 53) by (vm_compute; discriminate).
  destruct (C2_batch_reduction Demo.net Demo.clock_still 2 0 (mkManga "A" 2) 2 3
              Demo.fresh Hl Hu) as (_ & _ & _ & _ & Hfail & _).
  destruct (Hfail 2%nat) as [Hadv Hloop].
  - split; [vm_compute; reflexivity|].
    intros [|[|j]] Hj; [vm_compute; reflexivity | vm_compute; reflexivity|].
    exfalso. apply (Nat.nlt_0_r j). apply Nat.succ_lt_mono. now apply Nat.succ_lt_mono.
  - split; [vm_compute; reflexivity|].
    split; [exact Hadv | apply Hloop; vm_compute; reflexivity].
Defined.

(** C2 (as stated) fails.  From the stored offset [2^53] a round warms
    the pages [2^53], [2^53], [2^53 + 2], [2^53 + 4], [2^53 + 4], which
    are not consecutive, and when all succeed the offset becomes
    [2^53 + 4], not [2^53 + BATCH_SIZE]: the sums are rounded to the
    nearest double. *)
Lemma C2_rounding_counterexample :
  positions (log (snd (traverse (fun _ _ => Replies 200 true) Demo.clock_still 1
                                [mkManga "A" 1] (mkState 0 1 (2 ^ 53))
                                (mkWorld None 0 []))))
  = [(0, 1, 2 ^ 53); (0, 1, 2 ^ 53); (0, 1, 2 ^ 53 + 2); (0, 1, 2 ^ 53 + 4);
     (0, 1, 2 ^ 53 + 4)]
  /\ advance (2 ^ 53) (batch (fun _ _ => Replies 200 true) 0 "A" 1 (2 ^ 53))
     = (2 ^ 53 + 4, false)
  /\ 2 ^ 53 + 4 <> 2 ^ 53 + BATCH_SIZE.
Proof.
  split; [vm_compute; reflexivity|].
  split; [vm_compute; reflexivity | vm_compute; discriminate].
Qed.


(** A halt beyond the exact integers: from the stored offsets [2^53] and
    [10^21] one round of five successes is followed by the write of the
    offset that [p += BATCH_SIZE] gives on doubles. *)
Lemma halt_beyond_exact_integers :
  kv (snd (traverse (fun _ _ => Replies 200 true) Demo.clock_slow 5
                    [mkManga "A" 1] (mkState 0 1 (2 ^ 53)) (mkWorld None 0 [])))
  = Some (JSON.stringify_triple 0 1 9007199254740996)
  /\ kv (snd (traverse (fun _ _ => Replies 200 true) Demo.clock_slow 5
                       [mkManga "A" 1] (mkState 0 1 (10 ^ 21)) (mkWorld None 0 [])))
     = Some (JSON.stringify_triple 0 1 (10 ^ 21))
  /\ JS.toString 9007199254740996 = "9007199254740996"%string
  /\ JS.toString (10 ^ 21) = "1e+21"%string.
Proof. vm_compute. repeat split. Qed.

Lemma C7_full_pass_reset_witness :
  fst (traverse Demo.net Demo.clock_still 10 Demo.catalog Demo.resumed Demo.fresh)
  = Completed
  /\ kv (snd (traverse Demo.net Demo.clock_still 10 Demo.catalog Demo.resumed
                       Demo.fresh))
     = Some (JSON.stringify_triple 0 1 0).
Proof.
  destruct (C7_full_pass_reset Demo.net Demo.clock_still 10 Demo.catalog
              Demo.resumed Demo.fresh
              (snd (traverse Demo.net Demo.clock_still 10 Demo.catalog
                             Demo.resumed Demo.fresh))
              (fst (traverse Demo.net Demo.clock_still 10 Demo.catalog
                             Demo.resumed Demo.fresh)))
    as (Hreset & Hdone).
  - vm_compute; reflexivity.
  - assert (Hr : fst (traverse Demo.net Demo.clock_still 10 Demo.catalog
                               Demo.resumed Demo.fresh) = Completed).
    { apply Hdone.
      - vm_compute; discriminate.
      - vm_compute; discriminate.
      - intros k _. reflexivity. }
    split; [exact Hr | apply (Hreset Hr)].
Defined.

(** ** Splitting the path of a request *)

Lemma append_assoc (a b c : string) :
  ((a ++ b) ++ c)%string = (a ++ b ++ c)%string.
Proof. induction a; simpl; congruence. Qed.

Lemma no_slash_append (a b : string) :
  no_slash (a ++ b)%string = no_slash a && no_slash b.
Proof.
  induction a as [|c a IH]; simpl; [reflexivity|].
  now rewrite IH, andb_assoc.
Qed.

Lemma segments_read (p rest cur : string) :
  no_slash p = true ->
  segments (p ++ rest)%string cur = segments rest (cur ++ p)%string.
Proof.
  revert cur; induction p as [|c p IH]; intros cur; simpl.
  - now rewrite append_empty.
  - intros H. apply andb_true_iff in H as [Hc Hp].
    apply negb_true_iff in Hc. rewrite Hc, (IH _ Hp), append_assoc. reflexivity.
Qed.

Lemma segments_invariant (s cur : string) :
  no_slash cur = true -> Forall is_segment (segments s cur).
Proof.
  revert cur; induction s as [|c s IH]; intros cur Hcur; simpl.
  - destruct cur; constructor; [split; [discriminate | assumption] | constructor].
  - destruct (Ascii.eqb c "/") eqn:Hc.
    + destruct cur.
      * now apply IH.
      * constructor; [split; [discriminate | assumption] | now apply IH].
    + apply IH. rewrite no_slash_append, Hcur. simpl. now rewrite Hc.
Qed.

(** X1.  Every part of a split path is non-empty and free of slashes,
    whatever the path. *)
Theorem X1_segments_are_segments (pathname : string) :
  Forall is_segment (segments pathname EmptyString).
Proof. now apply segments_invariant. Qed.

Lemma segments_join (parts : list string) :
  Forall is_segment parts ->
  segments (join_path parts) EmptyString = parts.
Proof.
  induction 1 as [|p parts [Hne Hp] _ IH]; simpl; [reflexivity|].
  rewrite (segments_read p _ EmptyString Hp). simpl.
  destruct parts as [|q parts]; simpl in *.
  - destruct p; [congruence | reflexivity].
  - destruct p; [congruence|]. now rewrite IH.
Qed.

(** X2.  Splitting the path built from segments gives the segments back. *)
Theorem X2_segments_join (parts : list string) :
  Forall is_segment parts ->
  segments (join_path parts) EmptyString = parts.
Proof. apply segments_join. Qed.

Lemma X2_segments_join_witness :
  segments "/naruto/12/3.webp" EmptyString = ["naruto"; "12"; "3.webp"]%string.
Proof.
  apply (X2_segments_join ["naruto"; "12"; "3.webp"]%string).
  repeat constructor; discriminate.
Defined.

(** ** What a request does to the origin and to the cache *)

(** X3.  The handler contacts the origin or writes to the cache only for a
    path of at least three segments whose signature verifies; every
    other request is answered without either. *)
Theorem X3_fetch_gate (nowMs : Z) (edge : Edge) (request : Request) :
  let served := Worker.fetch nowMs edge request in
  fetched served <> [] \/ stored served <> [] ->
  (3 <= List.length (segments (pathname request) EmptyString))%nat
  /\ verifySignature nowMs (pathname request) (param_t request)
       (param_sig request) SECRET_KEY = true.
Proof.
  cbv zeta. unfold Worker.fetch.
  destruct (Nat.ltb_spec (List.length (segments (pathname request) EmptyString)) 3)
    as [Hlt|Hge].
  - simpl. intros [H|H]; now elim H.
  - destruct (verifySignature _ _ _ _ _); simpl.
    + intros _. split; [assumption | reflexivity].
    + intros [H|H]; now elim H.
Qed.

Lemma X3_fetch_gate_witness :
  verifySignature Demo.now_a Demo.path_n (Some Demo.ts_a) (Some Demo.sig_n) SECRET_KEY
  = true.
Proof.
  apply (X3_fetch_gate Demo.now_a Demo.edge_fill
           (mkRequest Demo.path_n (Some Demo.sig_n) (Some Demo.ts_a))).
  left. vm_compute. discriminate.
Defined.

Lemma serve_targets_effects (edge : Edge) (targets done : list string) :
  let served := serve_targets edge targets done in
  exists pre,
    fetched served = done ++ pre
    /\ starts pre targets
    /\ Forall (fun url => cache_match edge url = None) pre
    /\ match stored served with
       | [] => True
       | [(url, response)] =>
           outcome served = Returned response
           /\ (exists pre', pre = pre' ++ [url])
           /\ (exists res, origin_fetch edge url = Some res /\ ok res = true
                           /\ response = finalRes_of res)
       | _ => False
       end
    /\ (outcome served = Rejected ->
        exists pre' url, pre = pre' ++ [url] /\ origin_fetch edge url = None).
Proof.
  cbv zeta. revert done; induction targets as [|url rest IH]; intros done; simpl.
  - exists []. rewrite app_nil_r.
    split; [reflexivity|]. split; [now exists []|]. split; [constructor|].
    split; [exact I | discriminate].
  - destruct (cache_match edge url) as [cached|] eqn:Hc.
    { exists []. rewrite app_nil_r. simpl.
      split; [reflexivity|]. split; [now exists (url :: rest)|].
      split; [constructor|]. split; [exact I | discriminate]. }
    destruct (origin_fetch edge url) as [res|] eqn:Ho.
    2:{ exists [url]. simpl.
        split; [reflexivity|]. split; [now exists rest|].
        split; [now repeat constructor|]. split; [exact I|].
        intros _. now exists [], url. }
    destruct (ok res) eqn:Hk.
    { exists [url]. simpl.
      split; [reflexivity|]. split; [now exists rest|].
      split; [now repeat constructor|]. split; [|discriminate].
      split; [reflexivity|]. split; [now exists []|]. now exists res. }
    destruct (IH (done ++ [url])) as (pre & Hf & [post Hs] & Hmiss & Hst & Hrej).
    exists (url :: pre).
    split; [now rewrite Hf, <- app_assoc|].
    split; [exists post; simpl; now rewrite Hs|].
    split; [now constructor|]. split.
    + destruct (stored (serve_targets edge rest (done ++ [url])))
        as [|[u r] [|]]; try assumption.
      destruct Hst as (Hout & [pre' ->] & Hres).
      split; [assumption|]. split; [now exists (url :: pre') | assumption].
    + intros H. destruct (Hrej H) as (pre' & u & -> & Hu).
      now exists (url :: pre'), u.
Qed.

(** X4.  [handleMangaLogic] fetches from the origin a start of the list of
    variants, and only URLs that are not in the cache.  It hands at most
    one write to the cache: the response it returns, built from a 2xx
    origin reply, under the last URL fetched.  When it rejects, the last
    fetch rejected. *)
Theorem X4_proxy_effects (edge : Edge) (pathParts : list string) :
  let served := handleMangaLogic edge pathParts in
  starts (fetched served) (targets_of pathParts)
  /\ Forall (fun url => cache_match edge url = None) (fetched served)
  /\ match stored served with
     | [] => True
     | [(url, response)] =>
         outcome served = Returned response
         /\ (exists pre, fetched served = pre ++ [url])
         /\ (exists res, origin_fetch edge url = Some res /\ ok res = true
                         /\ response = finalRes_of res)
     | _ => False
     end
  /\ (outcome served = Rejected ->
      exists pre url, fetched served = pre ++ [url]
                      /\ origin_fetch edge url = None).
Proof.
  cbv zeta. unfold handleMangaLogic.
  destruct (serve_targets_effects edge (targets_of pathParts) [])
    as (pre & Hf & Hs & Hmiss & Hst & Hrej).
  change ([] ++ pre) with pre in Hf. rewrite Hf.
  split; [assumption|]. split; [assumption|]. split; [assumption|].
  exact Hrej.
Qed.

(** ** Serving twice *)

Lemma append_inj_l (a x y : string) :
  (a ++ x)%string = (a ++ y)%string -> x = y.
Proof. induction a; simpl; [auto | intros [= H]; auto]. Qed.

Lemma append_length (a b : string) :
  String.length (a ++ b)%string = (String.length a + String.length b)%nat.
Proof. induction a; simpl; congruence. Qed.

Lemma targets_distinct (pathParts : list string) : NoDup (targets_of pathParts).
Proof.
  unfold targets_of. constructor; [|repeat constructor; intros []].
  intros [H|[]]. apply append_inj_l in H.
  apply (f_equal String.length) in H.
  cbn [String.append String.length] in H. lia.
Qed.

Lemma serve_targets_fill_inv (edge : Edge) (targets done : list string)
    (url : string) (response : Response) :
  stored (serve_targets edge targets done) = [(url, response)] ->
  exists pre post res,
    targets = pre ++ url :: post
    /\ Forall (variant_fails edge) pre
    /\ cache_match edge url = None
    /\ origin_fetch edge url = Some res /\ ok res = true
    /\ response = finalRes_of res.
Proof.
  revert done; induction targets as [|u rest IH]; intros done; simpl.
  - discriminate.
  - destruct (cache_match edge u) as [cached|] eqn:Hc; [discriminate|].
    destruct (origin_fetch edge u) as [res|] eqn:Ho; [|discriminate].
    destruct (ok res) eqn:Hk.
    + simpl. intros [= <- <-]. exists [], rest, res. repeat split; auto.
    + intros H. apply IH in H as (pre & post & res' & -> & Hpre & H').
      exists (u :: pre), post, res'. split; [reflexivity|].
      split; [|exact H'].
      constructor; [|assumption]. split; [assumption|]. now exists res.
Qed.

Lemma variant_fails_put (edge : Edge) (url u : string) (response : Response) :
  u <> url -> variant_fails edge u -> variant_fails (cache_put url response edge) u.
Proof.
  intros Hne [Hc Ho]. split; [|exact Ho].
  simpl. destruct (String.eqb_spec u url); [contradiction | assumption].
Qed.

(** X5.  Cache-fill idempotence.  When a request was filled from the origin
    and its cache write has completed, the same request is served from
    the cache: the same body with status 200, marked [HIT-V3], with the
    cache and cross-origin headers of the first response, without a new
    write, and without asking the origin for the variant that was
    stored (the variants before it are asked again). *)
Theorem X5_cache_fill_idempotent (edge : Edge) (pathParts : list string)
    (url : string) (response : Response) :
  stored (handleMangaLogic edge pathParts) = [(url, response)] ->
  let edge' := settle (stored (handleMangaLogic edge pathParts)) edge in
  exists pre hit,
    outcome (handleMangaLogic edge pathParts) = Returned response
    /\ fetched (handleMangaLogic edge pathParts) = pre ++ [url]
    /\ handleMangaLogic edge' pathParts = mkServed (Returned hit) pre []
    /\ status hit = 200 /\ body hit = body response
    /\ Headers.get "X-Proxy-Cache" (headers hit) = Some "HIT-V3"%string
    /\ Headers.get "Cache-Control" (headers hit)
       = Some "public, max-age=2592000, immutable"%string
    /\ Headers.get "Access-Control-Allow-Origin" (headers hit) = Some "*"%string.
Proof.
  intros Hst. cbv zeta. rewrite Hst. unfold settle; simpl fold_left.
  unfold handleMangaLogic in *.
  destruct (serve_targets_effects edge (targets_of pathParts) [])
    as (pre0 & _ & _ & _ & Heff & _).
  rewrite Hst in Heff. pose proof (proj1 Heff) as Hout. clear Heff pre0.
  pose proof (targets_distinct pathParts) as Hnd.
  destruct (serve_targets_fill_inv _ _ _ _ _ Hst)
    as (pre & post & res & Ht & Hpre & Hc & Ho & Hk & ->).
  rewrite Ht in *.
  assert (Hf : fetched (serve_targets edge (pre ++ url :: post) []) = pre ++ [url]).
  { rewrite serve_targets_skip by assumption.
    now rewrite (serve_targets_fill _ _ _ _ _ Hc Ho Hk). }
  assert (Hpre' : Forall (variant_fails (cache_put url (finalRes_of res) edge)) pre).
  { rewrite Forall_forall in *. intros u Hu. apply variant_fails_put; [|auto].
    intros ->. apply NoDup_remove_2 in Hnd. apply Hnd.
    apply in_or_app. now left. }
  exists pre. eexists.
  split; [assumption|]. split; [assumption|]. split.
  - rewrite serve_targets_skip by assumption.
    rewrite (serve_targets_hit _ _ _ _ (finalRes_of res)).
    + reflexivity.
    + simpl. now rewrite String.eqb_refl.
  - repeat split.
Qed.

Lemma X5_cache_fill_idempotent_witness :
  exists hit,
    handleMangaLogic
      (settle (stored (handleMangaLogic Demo.edge_fill Demo.parts)) Demo.edge_fill)
      Demo.parts
    = mkServed (Returned hit) [Demo.hd] []
    /\ body hit = "PAGE"%string.
Proof.
  destruct (X5_cache_fill_idempotent Demo.edge_fill Demo.parts Demo.plain
              (finalRes_of Demo.page) eq_refl)
    as (pre & hit & _ & Hf & Hsecond & _ & Hbody & _).
  assert (E : fetched (handleMangaLogic Demo.edge_fill Demo.parts)
              = [Demo.hd] ++ [Demo.plain]) by (vm_compute; reflexivity).
  rewrite E in Hf. apply app_inj_tail in Hf as [<- _].
  exists hit. split; [exact Hsecond | exact Hbody].
Defined.

(** ** Warming a page *)

Lemma warm_run_result (net : nat -> string -> Reply) (round : nat)
    (urls : list string) :
  fst (warm_run net round urls) = warm_urls net round urls.
Proof.
  induction urls as [|url rest IH]; simpl; [reflexivity|].
  destruct (net round url) as [|st rd]; [reflexivity|].
  destruct (st =? 200); [reflexivity|].
  destruct (warm_run net round rest). exact IH.
Qed.

(** X6.  [warmUpPage] fetches the HD variant first and the plain variant
    only when the HD variant answered with a status other than 200.  It
    reports success exactly when the HD variant answers 200 with a
    readable body, or the HD variant answers with another status and
    the plain variant answers 200 with a readable body.  A rejected
    fetch and an unreadable body of the HD variant end the attempt with
    [false]: the plain variant is not fetched. *)
Theorem X6_warmUpPage_outcome (net : nat -> string -> Reply) (round : nat)
    (mangaName : string) (chapter page : Z) :
  let hdv := nth 0 (page_urls mangaName chapter page) EmptyString in
  let plain := nth 1 (page_urls mangaName chapter page) EmptyString in
  let run := warm_run net round (page_urls mangaName chapter page) in
  warmUpPage net round mangaName chapter page = fst run
  /\ snd run = match net round hdv with
               | Fails => [hdv]
               | Replies st _ => if st =? 200 then [hdv] else [hdv; plain]
               end
  /\ (fst run = true <->
        net round hdv = Replies 200 true
        \/ exists st readable, net round hdv = Replies st readable /\ st <> 200
                               /\ net round plain = Replies 200 true)
  /\ (net round hdv = Fails \/ net round hdv = Replies 200 false ->
      run = (false, [hdv])).
Proof.
  cbv zeta. split; [symmetry; apply warm_run_result|].
  unfold page_urls. cbn [nth warm_run].
  set (hdv := (origin_base mangaName (JS.toString chapter) ++ "/HD/" ++ _)%string).
  set (plain := (origin_base mangaName (JS.toString chapter) ++ "/" ++ _)%string).
  split; [|split].
  - destruct (net round hdv) as [|st rd]; [reflexivity|].
    destruct (st =? 200); [reflexivity|].
    destruct (net round plain) as [|st2 rd2]; [reflexivity|].
    destruct (st2 =? 200); reflexivity.
  - destruct (net round hdv) as [|st rd] eqn:Hh.
    + split; [discriminate|]. intros [H | (st & rd & H & _)]; discriminate.
    + destruct (Z.eqb_spec st 200) as [->|Hne].
      * split.
        -- cbn [fst]. intros ->. now left.
        -- intros [[= ->] | (st & rd' & [= <- <-] & Hst & _)];
             [reflexivity | now elim Hst].
      * destruct (net round plain) as [|st2 rd2] eqn:Hp.
        -- split; [discriminate|].
           intros [[= -> _] | (st' & rd' & _ & _ & H)];
             [now elim Hne | discriminate].
        -- destruct (Z.eqb_spec st2 200) as [->|Hne2].
           ++ split.
              ** cbn [fst]. intros ->. right. now exists st, rd.
              ** intros [[= -> _] | (st' & rd' & _ & _ & [= ->])];
                   [now elim Hne | reflexivity].
           ++ split; [discriminate|].
              intros [[= -> _] | (st' & rd' & _ & _ & [= -> _])];
                [now elim Hne | now elim Hne2].
  - intros [-> | ->]; reflexivity.
Qed.

Lemma no_slash_numchars (s : string) : all_numchars s = true -> no_slash s = true.
Proof.
  induction s as [|c s IH]; simpl; [reflexivity|].
  intros H. apply andb_true_iff in H as [Hc Hs]. rewrite (IH Hs), andb_true_r.
  destruct c as [[|] [|] [|] [|] [|] [|] [|] [|]]; try discriminate Hc; reflexivity.
Qed.

Lemma toString_is_segment (z : Z) (suffix : string) :
  JS.is_double z -> no_slash suffix = true ->
  is_segment (JS.toString z ++ suffix)%string.
Proof.
  intros Hz Hs. destruct (toString_shape z Hz) as (h & t & -> & Hh & Ht).
  split; [discriminate|].
  change (String h t) with (String h EmptyString ++ t)%string.
  rewrite !no_slash_append, Hs, (no_slash_numchars t Ht), !andb_true_r.
  destruct Hh as [-> | Hh]; [reflexivity|].
  destruct h as [[|] [|] [|] [|] [|] [|] [|] [|]]; try discriminate Hh; reflexivity.
Qed.

(** X7.  The proxy and the warmer address the same origin URLs.  The request
    for [/name/c/page.webp], with the numbers [c] and [page] spelled as
    the warmer spells them, and the call [warmUpPage(name, c, page)] try
    the same two URLs, the HD one first. *)
Theorem X7_warm_and_serve_same_urls (mangaName : string) (chapter page : Z) :
  is_segment mangaName -> JS.is_double chapter -> JS.is_double page ->
  targets_of (segments (join_path [mangaName; JS.toString chapter;
                                   (JS.toString page ++ ".webp")%string])
                       EmptyString)
  = page_urls mangaName chapter page
  /\ forall net round,
       warmUpPage net round mangaName chapter page
       = warm_urls net round (page_urls mangaName chapter page).
Proof.
  intros Hname Hc Hp. split; [|reflexivity].
  rewrite segments_join; [reflexivity|].
  constructor; [assumption|]. constructor.
  - rewrite <- (append_empty (JS.toString chapter)). now apply toString_is_segment.
  - constructor; [|constructor]. now apply toString_is_segment.
Qed.

Lemma X7_warm_and_serve_same_urls_witness :
  targets_of (segments "/A/2/3.webp" EmptyString) = page_urls "A" 2 3.
Proof.
  apply (X7_warm_and_serve_same_urls "A" 2 3).
  - split; [discriminate | reflexivity].
  - split; vm_compute; reflexivity.
  - split; vm_compute; reflexivity.
Defined.

(** ** Signing a URL *)

Lemma hex_bytes_read_back : forallb hex_byte_read_back (seq 0 256) = true.
Proof. vm_compute. reflexivity. Qed.

Lemma hex_byte_facts (b : Z) :
  is_byte b ->
  Hex.to_uint8 (JS.parseInt (hex_byte b) 16) = b
  /\ Hex.is_line_terminator (hex_digit (b / 16)) = false
  /\ Hex.is_line_terminator (hex_digit (b mod 16)) = false.
Proof.
  intros Hb. pose proof hex_bytes_read_back as H.
  rewrite forallb_forall in H. specialize (H (Z.to_nat b)).
  unfold hex_byte_read_back in H. rewrite Z2Nat.id in H by (unfold is_byte in Hb; lia).
  assert (Hin : In (Z.to_nat b) (seq 0 256)).
  { apply in_seq. unfold is_byte in Hb. lia. }
  apply H in Hin. apply andb_true_iff in Hin as [Hin H3].
  apply andb_true_iff in Hin as [H1 H2].
  apply Z.eqb_eq in H1. apply negb_true_iff in H2, H3. auto.
Qed.

Lemma chunks_hex (b : Z) (rest : string) :
  is_byte b ->
  Hex.chunks (hex_byte b ++ rest)%string = hex_byte b :: Hex.chunks rest.
Proof.
  intros Hb. destruct (hex_byte_facts b Hb) as (_ & H1 & H2).
  unfold hex_byte. cbn [String.append Hex.chunks]. now rewrite H1, H2.
Qed.

Lemma decode_hex_of_bytes (bs : list Z) :
  Forall is_byte bs -> Hex.decode (Hex.chunks (hex_of_bytes bs)) = bs.
Proof.
  induction 1 as [|b bs Hb _ IH]; [reflexivity|].
  cbn [hex_of_bytes]. rewrite chunks_hex by assumption.
  cbn [Hex.decode map]. fold (Hex.decode (Hex.chunks (hex_of_bytes bs))).
  rewrite IH. f_equal. now apply hex_byte_facts.
Qed.

(** X8.  The decoder of [verifySignature] reads back the lower-case
    hexadecimal spelling of any sequence of bytes. *)
Theorem X8_hex_roundtrip (bs : list Z) :
  Forall is_byte bs -> Hex.decode (Hex.chunks (hex_of_bytes bs)) = bs.
Proof. apply decode_hex_of_bytes. Qed.

Lemma X8_hex_roundtrip_witness :
  Hex.decode (Hex.chunks (hex_of_bytes [0; 10; 127; 255])) = [0; 10; 127; 255].
Proof.
  apply (X8_hex_roundtrip [0; 10; 127; 255]).
  repeat constructor; unfold is_byte; lia.
Defined.

Lemma be_bytes_are_bytes (n : nat) (x : Z) : Forall is_byte (SHA256.be_bytes n x).
Proof.
  induction n as [|n IH]; cbn [SHA256.be_bytes]; constructor; [|assumption].
  unfold is_byte. change 255 with (Z.ones 8).
  rewrite Z.land_ones by lia. apply Z.mod_pos_bound. lia.
Qed.

Lemma be_bytes_length (n : nat) (x : Z) : List.length (SHA256.be_bytes n x) = n.
Proof. induction n; simpl; congruence. Qed.

Lemma round_length (s : list Z) (kw : Z * Z) :
  List.length (SHA256.round s kw) = List.length s.
Proof.
  unfold SHA256.round.
  destruct s as [|a [|b [|c [|d [|e [|f [|g [|h [|i s]]]]]]]]]; reflexivity.
Qed.

Lemma rounds_length (kws : list (Z * Z)) (s : list Z) :
  List.length (fold_left SHA256.round kws s) = List.length s.
Proof.
  revert s; induction kws as [|kw kws IH]; intros s; simpl; [reflexivity|].
  now rewrite IH, round_length.
Qed.

Lemma compress_length (h block : list Z) :
  List.length (SHA256.compress h block) = List.length h.
Proof.
  unfold SHA256.compress.
  rewrite length_map, length_combine, rounds_length. apply Nat.min_id.
Qed.

Lemma digest_shape (msg : list Z) :
  List.length (SHA256.digest msg) = 32%nat /\ Forall is_byte (SHA256.digest msg).
Proof.
  unfold SHA256.digest.
  set (bl := SHA256.blocks _ _).
  assert (Hlen : List.length (fold_left SHA256.compress bl SHA256.H0) = 8%nat).
  { generalize SHA256.H0 (eq_refl : List.length SHA256.H0 = 8%nat).
    induction bl as [|b bl IH]; intros h Hh; simpl; [assumption|].
    apply IH. now rewrite compress_length. }
  destruct (fold_left SHA256.compress bl SHA256.H0)
    as [|a [|b [|c [|d [|e [|f [|g [|h [|i s]]]]]]]]]; try discriminate Hlen.
  split.
  - cbn [flat_map]. rewrite !length_app, !be_bytes_length. reflexivity.
  - cbn [flat_map]. repeat (apply Forall_app; split; try apply be_bytes_are_bytes).
    constructor.
Qed.

Lemma signs_hex (secret path ts : string) :
  signs secret path ts
    (hex_of_bytes (HMAC.sign (JS.encode secret) (JS.encode (path ++ ":" ++ ts)%string))).
Proof.
  unfold signs.
  assert (H : forall mac, List.length mac = 32%nat -> Forall is_byte mac ->
            exists chunked, Hex.match_pairs (hex_of_bytes mac) = Some chunked
                            /\ Hex.decode chunked = mac).
  { intros mac Hlen Hbytes. pose proof (decode_hex_of_bytes mac Hbytes) as Hd.
    exists (Hex.chunks (hex_of_bytes mac)). split; [|exact Hd].
    unfold Hex.match_pairs.
    destruct (Hex.chunks (hex_of_bytes mac)) eqn:E; [|reflexivity].
    simpl in Hd. rewrite <- Hd in Hlen. discriminate. }
  apply H; unfold HMAC.sign; apply digest_shape.
Qed.

(** X9.  A URL signed as the verifier expects is accepted.  For every path and
    integer timestamp [t] within 3600 seconds of now, in either
    direction, the lower-case hexadecimal HMAC-SHA256 of ["{path}:{t}"]
    under a non-empty secret verifies. *)
Theorem X9_signed_url_accepted (nowMs : Z) (path secret : string) (t : Z) :
  secret <> EmptyString ->
  Z.abs (nowMs / 1000 - t) <= 3600 ->
  verifySignature nowMs path (Some (JS.show t))
    (Some (hex_of_bytes
             (HMAC.sign (JS.encode secret)
                        (JS.encode (path ++ ":" ++ JS.show t)%string))))
    secret = true.
Proof.
  intros Hk Hw.
  rewrite verifySignature_signed; [| apply show_truthy | assumption | apply signs_hex].
  rewrite parseInt_show. unfold expired.
  destruct (Z.ltb_spec 3600 (Z.abs (nowMs / 1000 - t))); [lia | reflexivity].
Qed.

Lemma X9_signed_url_accepted_witness :
  hex_of_bytes (HMAC.sign (JS.encode SECRET_KEY)
                          (JS.encode (Demo.path_a ++ ":" ++ JS.show 1700000000)%string))
  = Demo.sig_a
  /\ verifySignature Demo.now_a Demo.path_a (Some (JS.show 1700000000))
       (Some (hex_of_bytes
                (HMAC.sign (JS.encode SECRET_KEY)
                   (JS.encode (Demo.path_a ++ ":" ++ JS.show 1700000000)%string))))
       SECRET_KEY = true.
Proof.
  split; [vm_compute; reflexivity|].
  apply (X9_signed_url_accepted Demo.now_a Demo.path_a SECRET_KEY 1700000000).
  - discriminate.
  - vm_compute. discriminate.
Defined.

(** ** More on the traversal *)

Section TraversalMore.

Variable net : nat -> string -> Reply.
Variable clock : nat -> Z.

Lemma next_ok_chapter (e1 e2 : Pos) : next_ok e1 e2 -> chapter_le e1 e2.
Proof.
  destruct e1 as [[i1 c1] p1], e2 as [[i2 c2] p2]; simpl. lia.
Qed.

Lemma chapter_le_trans (a b c : Pos) :
  chapter_le a b -> chapter_le b c -> chapter_le a c.
Proof.
  destruct a as [[i1 c1] p1], b as [[i2 c2] p2], c as [[i3 c3] p3]; simpl. lia.
Qed.

Lemma chain_sorted (e : Pos) (l : list Pos) :
  chain e l -> StronglySorted chapter_le (e :: l).
Proof.
  revert e; induction l as [|y l IH]; intros e; simpl.
  - intros _. repeat constructor.
  - intros [Hn Hc]. specialize (IH y Hc).
    constructor; [assumption|].
    constructor; [now apply next_ok_chapter|].
    apply StronglySorted_inv in IH as [_ Hall].
    eapply Forall_impl; [|exact Hall].
    intros a Ha. apply chapter_le_trans with y;
      [now apply next_ok_chapter | assumption].
Qed.

(** X10.  The engine never goes back: of two warm-ups of an invocation,
    the later one is not for an earlier manga, nor for an earlier
    chapter of the same manga. *)
Theorem X10_warmups_never_go_back (fuel : nat) (mangaList : list Manga)
    (st : State) (w w' : World) (r : Result) :
  is_checkpoint st ->
  log w = [] ->
  traverse net clock fuel mangaList st w = (r, w') ->
  StronglySorted chapter_le (positions (log w')).
Proof.
  intros (_ & [Hcs _] & [Hps _]) Hlog Hrun.
  pose proof (traverse_ordered net clock st _ _ _ _ _ Hcs Hps Hlog Hrun) as Hord.
  destruct (positions (log w')) as [|e l]; [constructor|].
  destruct Hord as [_ Hc]. now apply chain_sorted.
Qed.

(** X11.  A checkpoint that points outside the catalog.  At or beyond its end,
    the invocation resets the checkpoint without warming anything; below
    zero, reading [manga.chapters] throws before any effect. *)
Theorem X11_checkpoint_out_of_range (fuel : nat) (mangaList : list Manga)
    (st : State) (w : World) :
  (Z.of_nat (List.length mangaList) <= mIdx st ->
     traverse net clock fuel mangaList st w
     = (Completed, put (JSON.stringify_triple 0 1 0) w))
  /\ (mIdx st < 0 ->
      traverse net clock fuel mangaList st w = (TypeError, w)).
Proof.
  unfold traverse, mangas_left. split; intros H.
  - replace (Z.to_nat (Z.of_nat (List.length mangaList) - mIdx st)) with O by lia.
    reflexivity.
  - destruct (Z.to_nat (Z.of_nat (List.length mangaList) - mIdx st)) as [|n] eqn:E;
      [lia|].
    cbn [mangas_loop].
    destruct (Z.ltb_spec (mIdx st) (Z.of_nat (List.length mangaList))) as [_|Hge];
      [|lia].
    unfold item. destruct (Z.ltb_spec (mIdx st) 0) as [_|Hge]; [reflexivity | lia].
Qed.

Lemma advance_is_double (p : Z) (results : list bool) :
  (List.length results <= 5)%nat ->
  JS.is_double p -> JS.is_double (fst (advance p results)).
Proof.
  intros Hlen Hp. unfold advance.
  destruct (indexOf_false_cases results 0) as [[_ ->] | (k & Hk & _ & ->)].
  - cbn [Z.eqb negb fst]. apply add_is_double; [assumption|]. unfold BATCH_SIZE. lia.
  - destruct (Z.eqb_spec (0 + Z.of_nat k) (-1)); [lia|]. cbn [negb fst].
    apply add_is_double; [assumption|]. unfold BATCH_SIZE. lia.
Qed.

(** The round of a halt, with the numbers it wrote. *)
Lemma pages_loop_halt (fuel : nat) (i : Z) (manga : Manga) (c p : Z)
    (w w' : World) :
  JS.is_double p ->
  pages_loop net clock fuel i manga c p w = (Halted, w') ->
  exists w1 p1,
    JS.is_double p1
    /\ w' = put (JSON.stringify_triple i c
                   (fst (advance p1 (batch net (rounds w1) (name manga) c p1))))
                (round_done i (name manga) c p1 w1).
Proof.
  revert p w; induction fuel as [|fuel IH]; intros p w Hp; [discriminate|].
  rewrite pages_loop_step. cbv zeta.
  destruct (over_budget clock _).
  { intros [= <-]. now exists w, p. }
  destruct (snd (advance p _)); [discriminate|].
  apply IH. apply advance_is_double; [|exact Hp].
  rewrite batch_length. lia.
Qed.

Lemma chapters_loop_halt (n fuel : nat) (i : Z) (manga : Manga) (c : Z)
    (state state' : State) (w w' : World) :
  JS.is_double c -> JS.is_double (pIdx state) ->
  chapters_loop net clock n fuel i manga c state w = (Halted, state', w') ->
  exists w1 c1 p1,
    JS.is_double c1 /\ JS.is_double p1
    /\ w' = put (JSON.stringify_triple i c1
                   (fst (advance p1 (batch net (rounds w1) (name manga) c1 p1))))
                (round_done i (name manga) c1 p1 w1).
Proof.
  revert c state w; induction n as [|n IH]; intros c state w Hc Hps;
    cbn [chapters_loop]; (destruct (c <=? chapters manga); [|discriminate]).
  - discriminate.
  - destruct (pages_loop net clock fuel i manga c _ w) as [sig1 w1] eqn:Hp.
    destruct sig1; try discriminate.
    + apply IH; [|split; vm_compute; reflexivity].
      apply add_is_double; [assumption|]. unfold BATCH_SIZE. lia.
    + intros [= <- <-]. apply pages_loop_halt in Hp as (w0 & p1 & Hp1 & ->).
      * now exists w0, c, p1.
      * unfold entry_page. destruct (_ && _); [exact Hps|].
        split; vm_compute; reflexivity.
Qed.

Lemma mangas_loop_halt (n fuel : nat) (mangaList : list Manga) (i : Z)
    (state state' : State) (w w' : World) :
  JS.is_double (cIdx state) -> JS.is_double (pIdx state) ->
  mangas_loop net clock n fuel mangaList i state w = (Halted, state', w') ->
  exists w1 i1 manga c1 p1,
    item mangaList i1 = Some manga
    /\ JS.is_double c1 /\ JS.is_double p1
    /\ w' = put (JSON.stringify_triple i1 c1
                   (fst (advance p1 (batch net (rounds w1) (name manga) c1 p1))))
                (round_done i1 (name manga) c1 p1 w1).
Proof.
  revert i state w; induction n as [|n IH]; intros i state w Hcs Hps;
    cbn [mangas_loop]; [discriminate|].
  destruct (i <? Z.of_nat (List.length mangaList)); [|discriminate].
  destruct (item mangaList i) as [manga|] eqn:Hitem; [|discriminate].
  destruct (chapters_loop net clock _ fuel i manga _ state w)
    as [[sig1 state1] w1] eqn:Hc.
  assert (Hec : JS.is_double (entry_chapter state i)).
  { unfold entry_chapter. destruct (_ =? _); [exact Hcs|].
    split; vm_compute; reflexivity. }
  destruct sig1; try discriminate.
  - apply IH; [split; vm_compute; reflexivity|]. cbn [set_cIdx pIdx].
    apply chapters_loop_state in Hc as [-> | ->];
      [exact Hps | split; vm_compute; reflexivity].
  - intros [= <- <-].
    apply chapters_loop_halt in Hc as (w0 & c1 & p1 & Hc1 & Hp1 & ->);
      try assumption.
    now exists w0, i, manga, c1, p1.
Qed.

Lemma in_batch_events (i : Z) (mangaName : string) (c p : Z) :
  In (i, c, JS.add p 0) (positions (batch_events i mangaName c p)).
Proof. rewrite positions_batch. now left. Qed.

(** X12.  After a halt on the time budget the stored value loads as a
    checkpoint that is not before the one the invocation started from,
    for a resumed chapter below [2^53] in magnitude (and a catalog of at
    most [2^53] entries, as every array is): progress is not lost across
    a halt. *)
Theorem X12_halt_keeps_progress (fuel : nat) (mangaList : list Manga)
    (st : State) (w w' : World) :
  is_checkpoint st -> Z.abs (cIdx st) < 2 ^ 53 ->
  Z.of_nat (List.length mangaList) <= 2 ^ 53 ->
  log w = [] ->
  traverse net clock fuel mangaList st w = (Budget, w') ->
  exists st',
    as_state (load_state (kv w')) = Some st'
    /\ lex_le (start_of st) (start_of st').
Proof.
  intros (Hms & Hcs & Hps) Hsafe Hlen Hlog Hrun.
  pose proof (traverse_ordered net clock st _ _ _ _ _ (proj1 Hcs) (proj1 Hps)
                Hlog Hrun) as Hord.
  apply ordered_after in Hord. rewrite Forall_forall in Hord.
  unfold traverse in Hrun.
  destruct (mangas_loop net clock _ fuel mangaList (mIdx st) st w)
    as [[sig state1] w1] eqn:Hm.
  destruct sig; try discriminate Hrun. injection Hrun as <-.
  apply mangas_loop_halt in Hm as (w0 & i & manga & c & p & Hitem & Hc & Hp & ->);
    try assumption.
  set (p' := fst (advance p (batch net (rounds w0) (name manga) c p))) in *.
  assert (Hp' : JS.is_double p').
  { apply advance_is_double; [rewrite batch_length; lia | exact Hp]. }
  assert (Hi : JS.is_double i).
  { apply item_some_range in Hitem. apply is_double_safe. lia. }
  exists (mkState i c p'). split.
  - cbn [put kv]. rewrite load_stringify_triple by assumption. reflexivity.
  - assert (Hin : In (i, c, JS.add p 0)
                     (positions (log (put (JSON.stringify_triple i c p')
                                          (round_done i (name manga) c p w0))))).
    { cbn [put round_done log]. rewrite !positions_app.
      apply in_or_app. left. apply in_or_app. right. apply in_batch_events. }
    apply Hord in Hin. simpl in Hin. destruct Hin as (H1 & H2 & H3).
    assert (Hpp : JS.add p 0 <= p').
    { unfold p'.
      destruct (advance_batch net (rounds w0) (name manga) c p)
        as [[-> _] | (k & Hk & -> & _)]; apply add_mono;
        unfold BATCH_SIZE in *; lia. }
    unfold start_of, lex_le. simpl.
    destruct (Z.eq_dec (mIdx st) i) as [E|E]; [|left; lia].
    right. split; [exact E|]. specialize (H2 (eq_sym E)).
    destruct (Z.eq_dec (cIdx st) c) as [E2|E2]; [|left; lia].
    right. split; [exact E2|]. specialize (H3 (eq_sym E) (eq_sym E2) Hsafe). lia.
Qed.

(** X13.  The checkpoint that an invocation starts from is the stored one.
    With a catalog feed of well-formed entries, [runSmartCacher] is the
    traversal from [(0, 1, 0)] when the key is absent, and from
    [(i, c, p)] when the key holds what a halt wrote for that triple of
    numbers. *)
Theorem X13_resume_from_store (fuel : nat) (text : string)
    (items : list JSON.value) (mangaList : list Manga) (w : World) :
  JSON.parse text = Some (JSON.Arr items) ->
  as_catalog items = Some mangaList ->
  (kv w = None ->
     runSmartCacher net clock fuel (FeedReplies true text) w
     = traverse net clock fuel mangaList (mkState 0 1 0) w)
  /\ (forall i c p,
        JS.is_double i -> JS.is_double c -> JS.is_double p ->
        kv w = Some (JSON.stringify_triple i c p) ->
        runSmartCacher net clock fuel (FeedReplies true text) w
        = traverse net clock fuel mangaList (mkState i c p) w).
Proof.
  intros Hparse Hcat. unfold runSmartCacher. cbn [negb]. rewrite Hparse.
  split.
  - intros ->. cbn [load_state JS.truthy]. unfold default_state.
    now rewrite Hcat.
  - intros i c p Di Dc Dp ->. rewrite load_stringify_triple by assumption.
    unfold triple_value. now rewrite Hcat.
Qed.

Lemma pages_loop_fuel (fuel : nat) (i : Z) (manga : Manga) (c p : Z)
    (w w' : World) :
  pages_loop net clock fuel i manga c p w = (OutOfFuel, w') ->
  (rounds w + fuel <= rounds w')%nat.
Proof.
  revert p w; induction fuel as [|fuel IH]; intros p w.
  - intros [= <-]. lia.
  - rewrite pages_loop_step. cbv zeta.
    destruct (over_budget clock _); [discriminate|].
    destruct (snd (advance p _)); [discriminate|].
    intros H. apply IH in H. cbn [round_done rounds] in H. lia.
Qed.

Lemma Ran_rounds (w w' : World) (sig : Signal) :
  Ran net clock w sig w' -> (rounds w <= rounds w')%nat.
Proof. now intros ((H & _) & _). Qed.

Lemma chapters_loop_fuel (n fuel : nat) (i : Z) (manga : Manga) (c : Z)
    (state state' : State) (w w' : World) :
  - 2 ^ 53 <= c -> chapters manga < 2 ^ 53 ->
  chapters manga - c + 1 <= Z.of_nat n ->
  chapters_loop net clock n fuel i manga c state w = (OutOfFuel, state', w') ->
  (rounds w + fuel <= rounds w')%nat.
Proof.
  intros Hl Hu.
  revert c state w Hl; induction n as [|n IH]; intros c state w Hl Hn;
    cbn [chapters_loop];
    (destruct (Z.leb_spec c (chapters manga)) as [Hc|Hc]; [|discriminate]).
  - lia.
  - destruct (pages_loop net clock fuel i manga c _ w) as [sig1 w1] eqn:Hp.
    destruct sig1; try discriminate.
    + apply pages_loop_ran in Hp as [Hr _]. apply Ran_rounds in Hr.
      rewrite add_exact by lia.
      intros H. apply IH in H; lia.
    + intros [= <- <-]. now apply pages_loop_fuel in Hp.
Qed.

Lemma item_in (mangaList : list Manga) (i : Z) (manga : Manga) :
  item mangaList i = Some manga -> In manga mangaList.
Proof.
  unfold item. destruct (i <? 0); [discriminate|]. apply nth_error_In.
Qed.

Lemma mangas_loop_fuel (n fuel : nat) (mangaList : list Manga) (i : Z)
    (state state' : State) (w w' : World) :
  safe_chapters mangaList -> - 2 ^ 53 <= cIdx state ->
  mangas_loop net clock n fuel mangaList i state w = (OutOfFuel, state', w') ->
  (rounds w + fuel <= rounds w')%nat.
Proof.
  intros Hsafe.
  revert i state w; induction n as [|n IH]; intros i state w Hcs;
    cbn [mangas_loop]; [discriminate|].
  destruct (i <? Z.of_nat (List.length mangaList)); [|discriminate].
  destruct (item mangaList i) as [manga|] eqn:Hitem; [|discriminate].
  destruct (chapters_loop net clock _ fuel i manga _ state w)
    as [[sig1 state1] w1] eqn:Hc.
  assert (Hm : chapters manga < 2 ^ 53).
  { unfold safe_chapters in Hsafe. rewrite Forall_forall in Hsafe.
    apply Hsafe. now apply item_in with i. }
  assert (Hec : - 2 ^ 53 <= entry_chapter state i).
  { unfold entry_chapter. destruct (_ =? _); [exact Hcs|]. vm_compute. discriminate. }
  destruct sig1; try discriminate.
  - apply chapters_loop_ran in Hc as (Hr & _). apply Ran_rounds in Hr.
    intros H. apply IH in H; [lia|]. cbn [set_cIdx cIdx]. vm_compute. discriminate.
  - intros [= <- <- ]. apply chapters_loop_fuel in Hc; try assumption.
    unfold chapters_left. lia.
Qed.

(** X14.  With chapter counts below [2^53] and a resumed chapter not
    below [-2^53], the bound on the rounds of the model is reached only
    after that many rounds, all of them within the time budget.  So on a
    clock that passes the budget after some round [k], every invocation
    with [k <= fuel] ends with a definite result. *)
Theorem X14_budget_bounds_the_run (fuel : nat) (mangaList : list Manga)
    (st : State) (w w' : World) (r : Result) :
  safe_chapters mangaList -> - 2 ^ 53 <= cIdx st ->
  traverse net clock fuel mangaList st w = (r, w') ->
  (r = Unfinished ->
     (rounds w + fuel <= rounds w')%nat
     /\ forall k, (rounds w < k <= rounds w')%nat -> over_budget clock k = false)
  /\ ((exists k, (rounds w < k <= rounds w + fuel)%nat
                 /\ over_budget clock k = true) ->
      r <> Unfinished).
Proof.
  intros Hsafe Hcs Hrun.
  assert (Hun : r = Unfinished ->
            (rounds w + fuel <= rounds w')%nat
            /\ forall k, (rounds w < k <= rounds w')%nat ->
                         over_budget clock k = false).
  { intros ->. unfold traverse in Hrun.
    destruct (mangas_loop net clock _ fuel mangaList (mIdx st) st w)
      as [[sig state1] w1] eqn:Hm.
    destruct sig; try discriminate Hrun. injection Hrun as <-.
    pose proof (mangas_loop_fuel _ _ _ _ _ _ _ _ Hsafe Hcs Hm) as Hfuel.
    apply mangas_loop_ran in Hm as [((_ & Hin & _ & Hout) & _) _].
    split; [assumption|]. intros k Hk.
    destruct (Nat.eq_dec k (rounds w1)) as [->|Hne].
    - apply Hout; [discriminate | lia].
    - apply Hin. lia. }
  split; [exact Hun|].
  intros (k & Hk & Hover) Hr. destruct (Hun Hr) as [Hfuel Hin].
  rewrite Hin in Hover by lia. discriminate.
Qed.

Lemma batch_events_chapter (i : Z) (manga : Manga) (c p : Z) :
  Forall (warms_chapter i manga c) (batch_events i (name manga) c p).
Proof.
  unfold batch_events. apply Forall_forall. intros e H.
  apply in_map_iff in H as (b & <- & _). simpl. auto.
Qed.

Lemma batch_events_count (i : Z) (mangaName : string) (c p : Z) :
  List.length (positions (batch_events i mangaName c p)) = 5%nat.
Proof. reflexivity. Qed.

Lemma pages_loop_events (fuel : nat) (i : Z) (manga : Manga) (c p : Z)
    (w w' : World) (sig : Signal) :
  pages_loop net clock fuel i manga c p w = (sig, w') ->
  exists new,
    log w' = log w ++ new
    /\ Forall (warms_chapter i manga c) new
    /\ (List.length (positions new) + 5 * rounds w = 5 * rounds w')%nat.
Proof.
  revert p w; induction fuel as [|fuel IH]; intros p w.
  - intros [= <- <-]. exists []. rewrite app_nil_r.
    split; [reflexivity|]. split; [constructor | simpl; lia].
  - rewrite pages_loop_step. cbv zeta.
    destruct (over_budget clock _).
    { intros [= <- <-]. eexists. cbn [put round_done log rounds].
      rewrite <- app_assoc. split; [reflexivity|]. split.
      - apply Forall_app. split; [apply batch_events_chapter|].
        repeat constructor.
      - rewrite positions_app, length_app, batch_events_count. simpl. lia. }
    destruct (snd (advance p _)).
    { intros [= <- <-]. eexists. cbn [round_done log rounds].
      split; [reflexivity|]. split; [apply batch_events_chapter|].
      rewrite batch_events_count. lia. }
    intros H. apply IH in H as (new & Hl & Hall & Hn).
    cbn [round_done log rounds] in Hl, Hn.
    exists (batch_events i (name manga) c p ++ new).
    split; [now rewrite Hl, <- app_assoc|]. split.
    + apply Forall_app. split; [apply batch_events_chapter | assumption].
    + rewrite positions_app, length_app, batch_events_count. lia.
Qed.

Lemma chapters_loop_events (n fuel : nat) (i : Z) (manga : Manga) (c : Z)
    (state state' : State) (w w' : World) (sig : Signal) :
  chapters_loop net clock n fuel i manga c state w = (sig, state', w') ->
  exists new,
    log w' = log w ++ new
    /\ Forall (warms_manga i manga) new
    /\ (List.length (positions new) + 5 * rounds w = 5 * rounds w')%nat.
Proof.
  revert c state w; induction n as [|n IH]; intros c state w; cbn [chapters_loop];
    (destruct (Z.leb_spec c (chapters manga)) as [Hc|Hc];
     [|intros [= <- <- <-]; exists []; rewrite app_nil_r;
       split; [reflexivity|]; split; [constructor | simpl; lia]]).
  - intros [= <- <- <-]. exists []. rewrite app_nil_r.
    split; [reflexivity|]. split; [constructor | simpl; lia].
  - destruct (pages_loop net clock fuel i manga c _ w) as [sig1 w1] eqn:Hp.
    apply pages_loop_events in Hp as (new1 & Hl1 & Hall1 & Hn1).
    assert (Hall1' : Forall (warms_manga i manga) new1).
    { eapply Forall_impl; [|exact Hall1].
      intros [i' nm c' pg|text]; simpl; [|auto].
      intros (-> & -> & ->). auto. }
    destruct sig1; try (intros [= <- <- <-]; exists new1; auto).
    intros H. apply IH in H as (new & Hl & Hall & Hn).
    exists (new1 ++ new).
    split; [now rewrite Hl, Hl1, <- app_assoc|]. split.
    + now apply Forall_app.
    + rewrite positions_app, length_app. lia.
Qed.

Lemma mangas_loop_events (n fuel : nat) (mangaList : list Manga) (i : Z)
    (state state' : State) (w w' : World) (sig : Signal) :
  mangas_loop net clock n fuel mangaList i state w = (sig, state', w') ->
  exists new,
    log w' = log w ++ new
    /\ Forall (warms_catalog mangaList) new
    /\ (List.length (positions new) + 5 * rounds w = 5 * rounds w')%nat.
Proof.
  revert i state w; induction n as [|n IH]; intros i state w; cbn [mangas_loop].
  - intros [= <- <- <-]. exists []. rewrite app_nil_r.
    split; [reflexivity|]. split; [constructor | simpl; lia].
  - destruct (i <? Z.of_nat (List.length mangaList)).
    2:{ intros [= <- <- <-]. exists []. rewrite app_nil_r.
        split; [reflexivity|]. split; [constructor | simpl; lia]. }
    destruct (item mangaList i) as [manga|] eqn:Hitem.
    2:{ intros [= <- <- <-]. exists []. rewrite app_nil_r.
        split; [reflexivity|]. split; [constructor | simpl; lia]. }
    destruct (chapters_loop net clock _ fuel i manga _ state w)
      as [[sig1 state1] w1] eqn:Hc.
    apply chapters_loop_events in Hc as (new1 & Hl1 & Hall1 & Hn1).
    assert (Hall1' : Forall (warms_catalog mangaList) new1).
    { eapply Forall_impl; [|exact Hall1].
      intros [i' nm c' pg|text]; simpl; [|auto].
      intros (-> & -> & Hle). now exists manga. }
    destruct sig1; try (intros [= <- <- <-]; exists new1; auto).
    intros H. apply IH in H as (new & Hl & Hall & Hn).
    exists (new1 ++ new).
    split; [now rewrite Hl, Hl1, <- app_assoc|]. split.
    + now apply Forall_app.
    + rewrite positions_app, length_app. lia.
Qed.

Lemma traverse_events (fuel : nat) (mangaList : list Manga) (st : State)
    (w w' : World) (r : Result) :
  traverse net clock fuel mangaList st w = (r, w') ->
  exists new,
    log w' = log w ++ new
    /\ Forall (warms_catalog mangaList) new
    /\ (List.length (positions new) + 5 * rounds w = 5 * rounds w')%nat.
Proof.
  unfold traverse.
  destruct (mangas_loop net clock _ fuel mangaList (mIdx st) st w)
    as [[sig state1] w1] eqn:Hm.
  apply mangas_loop_events in Hm as (new & Hl & Hall & Hn).
  destruct sig; intros [= <- <-]; [|exists new; auto ..].
  exists (new ++ [Put (JSON.stringify_triple 0 1 0)]).
  cbn [put log rounds]. split; [now rewrite Hl, <- app_assoc|]. split.
  - apply Forall_app. split; [assumption | repeat constructor].
  - rewrite positions_app, length_app. simpl. lia.
Qed.

(** X15.  The engine warms nothing outside the catalog: every call of
    [warmUpPage] is for an entry of the catalog, under its name, and for
    a chapter not beyond its chapter count. *)
Theorem X15_warmups_in_catalog (fuel : nat) (mangaList : list Manga) (st : State)
    (w w' : World) (r : Result) (i : Z) (nm : string) (c page : Z) :
  log w = [] ->
  traverse net clock fuel mangaList st w = (r, w') ->
  In (Warm i nm c page) (log w') ->
  exists manga, item mangaList i = Some manga
                /\ nm = name manga /\ c <= chapters manga.
Proof.
  intros Hlog Hrun Hin.
  apply traverse_events in Hrun as (new & Hl & Hall & _).
  rewrite Hl, Hlog in Hin. rewrite Forall_forall in Hall.
  apply (Hall _ Hin).
Qed.

Lemma positions_warm_length (l : list Event) :
  Forall is_warm l -> List.length (positions l) = List.length l.
Proof.
  induction 1 as [|[i nm c pg|t] l He _ IH]; simpl;
    [reflexivity | now rewrite IH | contradiction].
Qed.

(** X16.  The effects of an invocation: warm-ups, exactly BATCH_SIZE per
    round, followed by at most one write.  It writes once, at the end,
    when it completes or halts on the budget, and not at all when it
    throws. *)
Theorem X16_effects_shape (fuel : nat) (mangaList : list Manga) (st : State)
    (w w' : World) (r : Result) :
  log w = [] -> rounds w = O ->
  traverse net clock fuel mangaList st w = (r, w') ->
  exists ws,
    Forall is_warm ws
    /\ Z.of_nat (List.length ws) = BATCH_SIZE * Z.of_nat (rounds w')
    /\ log w' = ws ++ final_write r w'
    /\ (r = Completed \/ r = Budget -> exists text, final_write r w' = [Put text])
    /\ (r = TypeError \/ r = Unfinished ->
        final_write r w' = [] /\ kv w' = kv w).
Proof.
  intros Hlog Hrounds Hrun.
  destruct (traverse_events _ _ _ _ _ _ Hrun) as (new & Hl & _ & Hn).
  rewrite Hlog in Hl. simpl in Hl. rewrite Hrounds in Hn.
  assert (Hshape : exists ws, Forall is_warm ws
            /\ log w' = ws ++ final_write r w'
            /\ (r = Completed \/ r = Budget ->
                  exists text, final_write r w' = [Put text])
            /\ (r = TypeError \/ r = Unfinished ->
                  final_write r w' = [] /\ kv w' = kv w)).
  { apply traverse_ran in Hrun as (sig & w1 & -> & (_ & Hh & Hq) & _ & ->).
    destruct sig; cbn [result_of].
    - destruct (Hq ltac:(discriminate)) as (_ & _ & ws & Hlw & Hws).
      rewrite Hlog in Hlw. simpl in Hlw. exists ws.
      cbn [put log kv final_write]. rewrite Hlw.
      split; [assumption|]. split; [reflexivity|]. split; [eauto|].
      intros [H|H]; discriminate.
    - destruct (Hh eq_refl)
        as (w0 & i & nm & c & p & (_ & _ & ws & Hlw & Hws) & ->).
      rewrite Hlog in Hlw. simpl in Hlw.
      exists (ws ++ batch_events i nm c p).
      cbn [put round_done log kv final_write]. rewrite Hlw.
      split; [apply Forall_app; split; [assumption | apply batch_events_warm]|].
      split; [reflexivity|]. split; [eauto|].
      intros [H|H]; discriminate.
    - destruct (Hq ltac:(discriminate)) as (Hkv & _ & ws & Hlw & Hws).
      rewrite Hlog in Hlw. simpl in Hlw. exists ws.
      cbn [final_write]. rewrite app_nil_r.
      split; [assumption|]. split; [assumption|].
      split; [intros [H|H]; discriminate | auto].
    - destruct (Hq ltac:(discriminate)) as (Hkv & _ & ws & Hlw & Hws).
      rewrite Hlog in Hlw. simpl in Hlw. exists ws.
      cbn [final_write]. rewrite app_nil_r.
      split; [assumption|]. split; [assumption|].
      split; [intros [H|H]; discriminate | auto]. }
  destruct Hshape as (ws & Hws & Hlw & Hone & Hnone).
  exists ws. split; [assumption|]. split; [|auto].
  assert (Hpos : positions (log w') = positions ws).
  { rewrite Hlw, positions_app. unfold final_write.
    destruct r, (kv w'); simpl; now rewrite app_nil_r. }
  rewrite <- Hl, Hpos, positions_warm_length in Hn by assumption.
  unfold BATCH_SIZE. lia.
Qed.

(** *** Chapters of finite length *)

Section Finite.

(** No page at or beyond [bound] exists at the origin, for a [bound] in
    the range of the exact integers. *)
Variable bound : Z.
Hypothesis bound_safe : bound <= 2 ^ 53.
Hypothesis no_page : forall k nm c page,
  bound <= page -> warmUpPage net k nm c page = false.

Lemma batch_hits_bound (k : nat) (nm : string) (c p : Z) :
  bound <= JS.add p 4 -> snd (advance p (batch net k nm c p)) = true.
Proof.
  intros Hb.
  destruct (indexOf_false_cases (batch net k nm c p) 0)
    as [[Hall _] | (j & _ & Hf & _)].
  - exfalso. unfold batch, offsets in Hall. simpl in Hall.
    rewrite (no_page k nm c (JS.add p 4) Hb) in Hall.
    rewrite !andb_false_r in Hall. discriminate.
  - now rewrite (advance_first _ _ _ Hf).
Qed.

Lemma pages_loop_finite (fuel : nat) (i : Z) (manga : Manga) (c p : Z)
    (w w' : World) (sig : Signal) :
  (0 < fuel)%nat -> - 2 ^ 53 <= p -> bound <= p + 5 * Z.of_nat fuel - 1 ->
  pages_loop net clock fuel i manga c p w = (sig, w') -> sig <> OutOfFuel.
Proof.
  revert p w; induction fuel as [|fuel IH]; intros p w Hpos Hl Hb; [lia|].
  rewrite pages_loop_step. cbv zeta.
  destruct (over_budget clock _); [intros [= <- _]; discriminate|].
  destruct (snd (advance p _)) eqn:Hfin; [intros [= <- _]; discriminate|].
  assert (Hlt : p + 4 < bound).
  { destruct (Z.lt_ge_cases (p + 4) bound) as [|Hge]; [assumption|].
    rewrite batch_hits_bound in Hfin; [discriminate|].
    destruct (Z_le_gt_dec (p + 4) (2 ^ 53)) as [Hs|Hs].
    - rewrite add_exact by lia. exact Hge.
    - pose proof (round53_mono (2 ^ 53) (p + 4) ltac:(lia)) as Hm.
      change (JS.round53 (2 ^ 53)) with (2 ^ 53) in Hm. unfold JS.add. lia. }
  destruct (advance_batch net (rounds w) (name manga) c p)
    as [[Hp' _] | (k & _ & _ & Hk)]; [|congruence].
  rewrite Hp'. unfold BATCH_SIZE. rewrite add_exact by lia. apply IH; lia.
Qed.

Lemma entry_page_bound (m : Z) (state : State) (i c : Z) :
  m <= 0 -> m <= pIdx state -> m <= entry_page state i c.
Proof. intros H0 Hp. unfold entry_page. destruct (_ && _); assumption. Qed.

Lemma chapters_loop_finite (m : Z) (n fuel : nat) (i : Z) (manga : Manga) (c : Z)
    (state state' : State) (w w' : World) (sig : Signal) :
  (0 < fuel)%nat -> bound <= m + 5 * Z.of_nat fuel - 1 ->
  - 2 ^ 53 <= m -> m <= 0 -> chapters manga < 2 ^ 53 ->
  - 2 ^ 53 <= c -> chapters manga - c + 1 <= Z.of_nat n ->
  m <= pIdx state ->
  chapters_loop net clock n fuel i manga c state w = (sig, state', w') ->
  sig <> OutOfFuel /\ m <= pIdx state'.
Proof.
  intros Hpos Hb Hm H0 Hu.
  revert c state w; induction n as [|n IH]; intros c state w Hl Hn Hp;
    cbn [chapters_loop];
    (destruct (Z.leb_spec c (chapters manga)) as [Hc|Hc];
     [|intros [= <- <- _]; split; [discriminate | assumption]]).
  - lia.
  - destruct (pages_loop net clock fuel i manga c _ w) as [sig1 w1] eqn:Hpl.
    apply pages_loop_finite in Hpl;
      [| assumption
       | pose proof (entry_page_bound m state i c H0 Hp); lia
       | pose proof (entry_page_bound m state i c H0 Hp); lia].
    destruct sig1; try (intros [= <- <- _]; split; [discriminate | assumption]).
    + rewrite add_exact by lia. apply IH; [lia | lia | simpl; assumption].
    + now elim Hpl.
Qed.

Lemma mangas_loop_finite (m : Z) (n fuel : nat) (mangaList : list Manga) (i : Z)
    (state state' : State) (w w' : World) (sig : Signal) :
  (0 < fuel)%nat -> bound <= m + 5 * Z.of_nat fuel - 1 ->
  - 2 ^ 53 <= m -> m <= 0 -> safe_chapters mangaList ->
  - 2 ^ 53 <= cIdx state -> m <= pIdx state ->
  mangas_loop net clock n fuel mangaList i state w = (sig, state', w') ->
  sig <> OutOfFuel.
Proof.
  intros Hpos Hb Hm H0 Hsafe.
  revert i state w; induction n as [|n IH]; intros i state w Hcs Hp;
    cbn [mangas_loop].
  - intros [= <- _ _]. discriminate.
  - destruct (i <? Z.of_nat (List.length mangaList));
      [|intros [= <- _ _]; discriminate].
    destruct (item mangaList i) as [manga|] eqn:Hitem;
      [|intros [= <- _ _]; discriminate].
    destruct (chapters_loop net clock _ fuel i manga _ state w)
      as [[sig1 state1] w1] eqn:Hc.
    assert (Hu : chapters manga < 2 ^ 53).
    { unfold safe_chapters in Hsafe. rewrite Forall_forall in Hsafe.
      apply Hsafe. now apply item_in with i. }
    assert (Hec : - 2 ^ 53 <= entry_chapter state i).
    { unfold entry_chapter. destruct (_ =? _); [exact Hcs|].
      vm_compute. discriminate. }
    apply (chapters_loop_finite m) in Hc as [Hs Hp1]; try assumption;
      [|unfold chapters_left; lia].
    destruct sig1; try (intros [= <- _ _]; discriminate).
    + apply IH; [|simpl; assumption]. cbn [set_cIdx cIdx]. vm_compute. discriminate.
    + now elim Hs.
Qed.

(** X17.  The engine ends when chapters are finite.  If no page at or beyond
    [bound] exists and the numbers of the checkpoint and of the catalog
    are in the range where the increments are exact, an invocation with
    enough fuel for the longest chapter never stops for lack of fuel: it
    completes, halts on the budget or throws. *)
Theorem X17_finite_chapters_end (fuel : nat) (mangaList : list Manga) (st : State)
    (w w' : World) (r : Result) :
  (0 < fuel)%nat ->
  safe_chapters mangaList -> - 2 ^ 53 <= cIdx st -> - 2 ^ 53 <= pIdx st ->
  bound <= Z.min 0 (pIdx st) + 5 * Z.of_nat fuel - 1 ->
  traverse net clock fuel mangaList st w = (r, w') ->
  r <> Unfinished.
Proof.
  intros Hpos Hsafe Hcs Hps Hb. unfold traverse.
  destruct (mangas_loop net clock _ fuel mangaList (mIdx st) st w)
    as [[sig state1] w1] eqn:Hm.
  apply (mangas_loop_finite (Z.min 0 (pIdx st))) in Hm; try assumption; try lia.
  destruct sig; intros [= <- _]; try discriminate. now elim Hm.
Qed.

End Finite.

End TraversalMore.

(** ** More sample runs *)

Lemma X10_warmups_never_go_back_witness :
  StronglySorted chapter_le (positions (log (snd Sample.run_still))).
Proof.
  apply (X10_warmups_never_go_back Demo.net Demo.clock_still 10 Demo.catalog
           Demo.resumed Demo.fresh (snd Sample.run_still) (fst Sample.run_still)).
  - split; [|split]; split; vm_compute; reflexivity.
  - reflexivity.
  - vm_compute; reflexivity.
Defined.

Lemma X11_checkpoint_out_of_range_witness :
  traverse Demo.net Demo.clock_still 10 Demo.catalog (mkState 1 1 0) Demo.fresh
  = (Completed, put (JSON.stringify_triple 0 1 0) Demo.fresh)
  /\ traverse Demo.net Demo.clock_still 10 Demo.catalog (mkState (-1) 1 0) Demo.fresh
     = (TypeError, Demo.fresh).
Proof.
  split.
  - apply (X11_checkpoint_out_of_range Demo.net Demo.clock_still 10 Demo.catalog
             (mkState 1 1 0) Demo.fresh).
    vm_compute. discriminate.
  - apply (X11_checkpoint_out_of_range Demo.net Demo.clock_still 10 Demo.catalog
             (mkState (-1) 1 0) Demo.fresh).
    reflexivity.
Defined.

Lemma X12_halt_keeps_progress_witness :
  exists st',
    as_state (load_state (kv (snd Sample.run_slow))) = Some st'
    /\ lex_le (0, 2, 3) (start_of st').
Proof.
  apply (X12_halt_keeps_progress Demo.net Demo.clock_slow 10 Demo.catalog
           Demo.resumed Demo.fresh (snd Sample.run_slow)).
  - split; [|split]; split; vm_compute; reflexivity.
  - vm_compute; reflexivity.
  - vm_compute; discriminate.
  - reflexivity.
  - vm_compute; reflexivity.
Defined.

Lemma X13_resume_from_store_witness :
  runSmartCacher Demo.net Demo.clock_still 10 (FeedReplies true Sample.feed_text)
    Demo.fresh
  = Sample.run_still.
Proof.
  destruct (X13_resume_from_store Demo.net Demo.clock_still 10 Sample.feed_text
              [JSON.Obj [(JSON.units "name", JSON.Str (JSON.units "A"));
                         (JSON.units "chapters", JSON.Num 2)]]
              Demo.catalog Demo.fresh) as [_ H].
  - vm_compute; reflexivity.
  - vm_compute; reflexivity.
  - apply (H 0 2 3); try (split; vm_compute; reflexivity).
Defined.

Lemma X14_budget_bounds_the_run_witness : fst Sample.run_slow <> Unfinished.
Proof.
  destruct (X14_budget_bounds_the_run Demo.net Demo.clock_slow 10 Demo.catalog
              Demo.resumed Demo.fresh (snd Sample.run_slow) (fst Sample.run_slow))
    as [_ H].
  - constructor; [vm_compute; reflexivity | constructor].
  - vm_compute; discriminate.
  - vm_compute; reflexivity.
  - apply H. exists 1%nat. split; [|vm_compute; reflexivity].
    split; [apply Nat.lt_0_1 | vm_compute; apply Nat.leb_le; reflexivity].
Defined.

Lemma X15_warmups_in_catalog_witness :
  exists manga, item Demo.catalog 0 = Some manga
                /\ "A"%string = name manga /\ 2 <= chapters manga.
Proof.
  apply (X15_warmups_in_catalog Demo.net Demo.clock_still 10 Demo.catalog
           Demo.resumed Demo.fresh (snd Sample.run_still) (fst Sample.run_still)
           0 "A" 2 3).
  - reflexivity.
  - vm_compute; reflexivity.
  - vm_compute. left. reflexivity.
Defined.

Lemma X16_effects_shape_witness :
  exists ws,
    Forall is_warm ws
    /\ Z.of_nat (List.length ws) = BATCH_SIZE * Z.of_nat (rounds (snd Sample.run_still))
    /\ log (snd Sample.run_still)
       = ws ++ final_write (fst Sample.run_still) (snd Sample.run_still).
Proof.
  destruct (X16_effects_shape Demo.net Demo.clock_still 10 Demo.catalog
              Demo.resumed Demo.fresh (snd Sample.run_still) (fst Sample.run_still))
    as (ws & H1 & H2 & H3 & _).
  - reflexivity.
  - reflexivity.
  - vm_compute; reflexivity.
  - exists ws. auto.
Defined.

Lemma X17_finite_chapters_end_witness :
  fst (traverse Sample.net_empty Demo.clock_still 1 Demo.catalog Demo.resumed
                Demo.fresh) <> Unfinished.
Proof.
  assert (Hb : 0 <= 2 ^ 53) by (vm_compute; discriminate).
  apply (X17_finite_chapters_end Sample.net_empty Demo.clock_still 0 Hb
           (fun k nm c page _ => eq_refl) 1 Demo.catalog Demo.resumed Demo.fresh
           (snd (traverse Sample.net_empty Demo.clock_still 1 Demo.catalog
                          Demo.resumed Demo.fresh))).
  - apply Nat.lt_0_1.
  - constructor; [vm_compute; reflexivity | constructor].
  - vm_compute; discriminate.
  - vm_compute; discriminate.
  - vm_compute. discriminate.
  - vm_compute; reflexivity.
Defined.

(** ** The hash against published test vectors *)

(** SHA-256 of "abc" (FIPS 180-4) and HMAC-SHA256 of test case 2 of
    RFC 4231. *)
Lemma sha256_abc :
  hex_of_bytes (SHA256.digest (JS.encode "abc"))
  = "ba7816bf8f01cfea414140de5dae2223b00361a396177a9cb410ff61f20015ad"%string.
Proof. vm_compute. reflexivity. Qed.

Lemma hmac_sha256_rfc4231_2 :
  hex_of_bytes (HMAC.sign (JS.encode "Jefe")
                          (JS.encode "what do ya want for nothing?"))
  = "5bdcc146bf60754e6a042426089575c75a003f089d2739839dec58b964ec3843"%string.
Proof. vm_compute. reflexivity. Qed.
